(** * natter_go: mapping discovery, keep-alive, status manager, orchestrator

  A shallow embedding of the Go sources of natter_go and the properties
  its specification states about them.

  Conventions.
  - Go strings are byte strings: [string] (a list of 8-bit [ascii]).
  - Go [int] and [time.Duration] are 64-bit: values are [Z], and every
    operation that can leave the range is followed by [wrap64].
  - A Go value that may be [nil] is an [option]; a run-time panic is a
    separate constructor of the result type.
  - Everything the program asks of the outside world (the network, the
    random source, the file system, the context's cancellation) is an
    explicit input of the function that asks, and everything it does to
    the outside world is recorded in an explicit trace. *)

From Stdlib Require Import ZArith Lia Bool.
From Stdlib Require Import Strings.Ascii Strings.String Strings.Byte.
From stdpp Require Import base option list gmap strings pretty.

Local Open Scope Z_scope.

(** ** Go built-ins and the parts of the standard library the code calls *)

Module GoStr.

(** The result of an operation that can panic at run time. *)
Inductive outcome (A : Type) : Type :=
| Returns (a : A)
| Panics.
Arguments Returns {A} a.
Arguments Panics {A}.

(** Sequencing of steps that can panic. *)
Definition and_then {A B : Type} (o : outcome A) (k : A -> outcome B) : outcome B :=
  match o with
  | Returns a => k a
  | Panics => Panics
  end.

Definition len (s : string) : Z := Z.of_nat (String.length s).

(** [strings.HasPrefix(s, p)]. *)
Fixpoint HasPrefix (s p : string) : bool :=
  match p, s with
  | EmptyString, _ => true
  | String c p', String d s' => if Ascii.eqb c d then HasPrefix s' p' else false
  | String _ _, EmptyString => false
  end.

(** [strings.LastIndex(s, sub)]: the byte index of the last occurrence of
    [sub] in [s], or -1. The scan keeps the index of the latest match. *)
Fixpoint last_index_from (sub s : string) (i last : Z) : Z :=
  let last' := if HasPrefix s sub then i else last in
  match s with
  | EmptyString => last'
  | String _ s' => last_index_from sub s' (i + 1) last'
  end.

Definition LastIndex (s sub : string) : Z := last_index_from sub s 0 (-1).

Fixpoint drop_bytes (n : nat) (s : string) : string :=
  match n, s with
  | O, _ => s
  | S n', String _ s' => drop_bytes n' s'
  | S _, EmptyString => EmptyString
  end.

Fixpoint take_bytes (n : nat) (s : string) : string :=
  match n, s with
  | O, _ => EmptyString
  | S n', String c s' => String c (take_bytes n' s')
  | S _, EmptyString => EmptyString
  end.

(** The slice expression [s[:hi]]; out of range indices panic. *)
Definition slice_to (s : string) (hi : Z) : outcome string :=
  if (0 <=? hi) && (hi <=? len s)
  then Returns (take_bytes (Z.to_nat hi) s)
  else Panics.

(** The slice expression [s[lo:]]; out of range indices panic. *)
Definition slice_from (s : string) (lo : Z) : outcome string :=
  if (0 <=? lo) && (lo <=? len s)
  then Returns (drop_bytes (Z.to_nat lo) s)
  else Panics.

(** [strings.ReplaceAll(s, old, new)] for a non-empty [old]: occurrences
    are replaced left to right without overlap. [skip] counts the bytes
    of a matched occurrence still to be passed over. *)
Fixpoint replace_from (old new s : string) (skip : nat) : string :=
  match s with
  | EmptyString => EmptyString
  | String c s' =>
      match skip with
      | S k => replace_from old new s' k
      | O =>
          if HasPrefix s old
          then new +:+ replace_from old new s' (String.length old - 1)
          else String c (replace_from old new s' 0)
      end
  end.

Definition ReplaceAll (s old new : string) : string := replace_from old new s 0.

(** [strings.Split(s, sep)] for a non-empty [sep]. [cur] is the piece
    being collected, in reverse. *)
Fixpoint split_from (sep s : string) (skip : nat) (cur : string) : list string :=
  match s with
  | EmptyString => [String.rev cur]
  | String c s' =>
      match skip with
      | S k => split_from sep s' k cur
      | O =>
          if HasPrefix s sep
          then String.rev cur :: split_from sep s' (String.length sep - 1) EmptyString
          else split_from sep s' 0 (String c cur)
      end
  end.

Definition Split (s sep : string) : list string := split_from sep s 0 EmptyString.

(** *** 64-bit integers *)

Definition wrap64 (z : Z) : Z := (z + 2 ^ 63) mod 2 ^ 64 - 2 ^ 63.
Definition maxInt64 : Z := 2 ^ 63 - 1.
Definition minInt64 : Z := - 2 ^ 63.
Definition maxUint64 : Z := 2 ^ 64 - 1.

(** *** [strconv.Atoi]

    Documented as [ParseInt(s, 10, 0)] converted to [int]; [int] has 64
    bits on the platforms the program is built for. The value is returned
    together with the error, and on a range error it is the nearest
    bound of the type. *)

Inductive NumError := ErrSyntax | ErrRange.

Definition is_digit (c : ascii) : bool :=
  let n := Z.of_N (N_of_ascii c) in (48 <=? n) && (n <=? 57).

Definition digit_val (c : ascii) : Z := Z.of_N (N_of_ascii c) - 48.

(** The smallest [n] with [n * 10 > maxUint64]. *)
Definition cutoff10 : Z := maxUint64 / 10 + 1.

(** The digit loop of [ParseUint] in base 10 with 64 bits. A byte that is
    not a decimal digit is a syntax error; overflow is detected digit by
    digit and ends the scan at once. *)
Fixpoint parse_uint_loop (s : string) (n : Z) : Z * option NumError :=
  match s with
  | EmptyString => (n, None)
  | String c s' =>
      if is_digit c then
        if cutoff10 <=? n then (maxUint64, Some ErrRange)
        else
          let n10 := n * 10 in
          let n1 := (n10 + digit_val c) mod 2 ^ 64 in
          if (n1 <? n10) || (maxUint64 <? n1) then (maxUint64, Some ErrRange)
          else parse_uint_loop s' n1
      else (0, Some ErrSyntax)
  end.

Definition ParseUint (s : string) : Z * option NumError :=
  match s with
  | EmptyString => (0, Some ErrSyntax)
  | _ => parse_uint_loop s 0
  end.

Definition ParseInt (s : string) : Z * option NumError :=
  match s with
  | EmptyString => (0, Some ErrSyntax)
  | String c rest =>
      let neg := Ascii.eqb c "-" in
      let body := if Ascii.eqb c "+" || Ascii.eqb c "-" then rest else s in
      match ParseUint body with
      | (_, Some ErrSyntax) => (0, Some ErrSyntax)
      | (un, _) =>
          let cutoff := 2 ^ 63 in
          if negb neg && (cutoff <=? un) then (cutoff - 1, Some ErrRange)
          else if neg && (cutoff <? un) then (- cutoff, Some ErrRange)
          else
            let n := wrap64 un in
            (if neg then wrap64 (- n) else n, None)
      end
  end.

Definition Atoi (s : string) : Z * option NumError := ParseInt s.

(** [%d] of [fmt] and [fmt.Sprint] on an [int]. *)
Definition Itoa (n : Z) : string := pretty n.

(** Whether the byte [c] occurs in [s]. *)
Fixpoint contains_byte (c : ascii) (s : string) : bool :=
  match s with
  | EmptyString => false
  | String d s' => Ascii.eqb c d || contains_byte c s'
  end.

(** [net.JoinHostPort]. *)
Definition JoinHostPort (host port : string) : string :=
  if contains_byte ":" host then "[" +:+ host +:+ "]:" +:+ port
  else host +:+ ":" +:+ port.

(** *** Decimal numerals, for comparison with [Atoi]

    A numeral is an optional sign followed by one or more decimal digits;
    its value is the integer it denotes, of any size. *)

Fixpoint all_digits (s : string) : bool :=
  match s with
  | EmptyString => true
  | String c s' => is_digit c && all_digits s'
  end.

Fixpoint decimal_value (s : string) (acc : Z) : Z :=
  match s with
  | EmptyString => acc
  | String c s' => decimal_value s' (acc * 10 + digit_val c)
  end.

Definition numeral (s : string) : option Z :=
  match s with
  | EmptyString => None
  | String c rest =>
      let signed := Ascii.eqb c "+" || Ascii.eqb c "-" in
      let body := if signed then rest else s in
      match body with
      | EmptyString => None
      | _ =>
          if all_digits body
          then Some (if Ascii.eqb c "-" then - decimal_value body 0 else decimal_value body 0)
          else None
      end
  end.

(** The value nearest to [v] that a 64-bit [int] holds. *)
Definition clamp64 (v : Z) : Z := Z.max minInt64 (Z.min maxInt64 v).

(** The decimal digits a string starts with, and a string without its
    sign, if it has one. *)
Fixpoint leading_digits (s : string) : string :=
  match s with
  | EmptyString => EmptyString
  | String c s' => if is_digit c then String c (leading_digits s') else EmptyString
  end.

Definition unsigned_part (s : string) : string :=
  match s with
  | EmptyString => EmptyString
  | String c rest => if Ascii.eqb c "+" || Ascii.eqb c "-" then rest else s
  end.

Definition has_minus (s : string) : bool :=
  match s with
  | EmptyString => false
  | String c _ => Ascii.eqb c "-"
  end.

End GoStr.

(** ** The reusable-bind socket factory (internal/forward, internal/stun,
     internal/keepalive: the [_unix] and [_windows] files) *)

Module Sock.

Inductive Platform := Unix | Windows.

(** The socket-level options the sources set. *)
Inductive SockOpt := SO_REUSEADDR | SO_REUSEPORT | SO_EXCLUSIVEADDRUSE.

#[global] Instance SockOpt_eq_dec : EqDecision SockOpt.
Proof. solve_decision. Defined.

(** A [Control] hook is the list of [SetsockoptInt(fd, SOL_SOCKET, opt, v)]
    calls it makes on the new descriptor before bind. *)
Definition Control := list (SockOpt * Z).

(** [net.TCPAddr] / [net.UDPAddr]: the IP in its textual form and the port. *)
Record Addr := { IP : string; Port : Z }.

(** [net.Dialer]: the fields the sources set. A dialer built without a
    [Control] field has [None] there and touches no socket option. *)
Record Dialer := {
  LocalAddr : option Addr;
  Timeout : Z;
  DialControl : option Control
}.

(** [net.ListenConfig]. *)
Record ListenConfig := { ListenControl : option Control }.

Definition second : Z := 1000000000.

Definition reuse_control (p : Platform) : Control :=
  match p with
  | Unix => [(SO_REUSEADDR, 1); (SO_REUSEPORT, 1)]
  | Windows => [(SO_EXCLUSIVEADDRUSE, 0); (SO_REUSEADDR, 1)]
  end.

(** internal/stun: [newBoundDialer]. *)
Definition newBoundDialer (p : Platform) (laddr : Addr) (timeout : Z) : Dialer :=
  {| LocalAddr := Some laddr; Timeout := timeout;
     DialControl := Some (reuse_control p) |}.

(** internal/keepalive: [newDialerWithReuse]. *)
Definition newDialerWithReuse (p : Platform) (laddr : Addr) : Dialer :=
  {| LocalAddr := Some laddr; Timeout := 3 * second;
     DialControl := Some (reuse_control p) |}.

(** internal/forward: [listenWithReuse], as the [ListenConfig] it listens
    with. *)
Definition listenWithReuse (p : Platform) : ListenConfig :=
  {| ListenControl := Some (reuse_control p) |}.

(** [net.DialUDP(network, laddr, raddr)] and [net.ListenPacket(network,
    address)] take no [Control] hook. *)
Definition DialUDP_control : option Control := None.
Definition ListenPacket_control : option Control := None.

(** The options a socket is created with: those its [Control] hook sets,
    none when there is no hook. *)
Definition options_set (c : option Control) : list (SockOpt * Z) :=
  match c with Some l => l | None => [] end.

(** Address reuse as the specification defines it per platform. *)
Definition reuse_enabled (p : Platform) (opts : list (SockOpt * Z)) : bool :=
  match p with
  | Unix =>
      bool_decide ((SO_REUSEADDR, 1) ∈ opts) && bool_decide ((SO_REUSEPORT, 1) ∈ opts)
  | Windows =>
      bool_decide ((SO_EXCLUSIVEADDRUSE, 0) ∈ opts) && bool_decide ((SO_REUSEADDR, 1) ∈ opts)
  end.

End Sock.

(** ** The STUN probe (package stun) *)

Module Stun.
Import GoStr.

(** [Mapping]; a [net.IP] is kept in the textual form [IP.String()]
    gives it, the nil IP being ["<nil>"]. *)
Record Mapping := {
  InternalIP : string;
  InternalPort : Z;
  ExternalIP : string;
  ExternalPort : Z
}.

Record Client := {
  tcpServers : list string;
  udpServers : list string;
  timeout : Z;
  bindIP : string
}.

Definition NewClient (tcp udp : list string) (t : Z) : Client :=
  {| tcpServers := tcp; udpServers := udp; timeout := t; bindIP := "<nil>" |}.

Definition SetBindIP (c : Client) (ip : string) : Client :=
  {| tcpServers := tcpServers c; udpServers := udpServers c;
     timeout := timeout c; bindIP := ip |}.

(** [stun.XORMappedAddress]; its zero value has a nil IP and port 0. *)
Record XORMappedAddress := { XorIP : string; XorPort : Z }.
Definition xor_zero : XORMappedAddress := {| XorIP := "<nil>"; XorPort := 0 |}.

(** What the pion client hands to the callback of [Do]: an event that
    carries an error, or a message, in which [GetFrom] finds the
    XOR-MAPPED-ADDRESS attribute or not. *)
Inductive Event :=
| EvError
| EvMessage (xor : option XORMappedAddress).

(** One call of [client.Do], which blocks until the callback has run: it
    returns an error (the callback may have run or not), or it returns nil
    after the callback was called with an event. *)
Inductive DoResult :=
| DoFails (cb : option Event)
| DoReturns (ev : Event).

(** What the network does with one server of the list. *)
Inductive Attempt :=
| ResolveFails
| DialFails
| Transacts (r : DoResult).

(** The attempts on which the STUN transaction succeeds. *)
Definition succeeds (a : Attempt) : option XORMappedAddress :=
  match a with
  | Transacts (DoReturns (EvMessage (Some x))) => Some x
  | _ => None
  end.

(** The sockets a probe opens and the names it resolves, in order. *)
Inductive Contact :=
| Resolve (server : string)
| DialUDP (laddr : Sock.Addr) (server : string)
| DialTCP (d : Sock.Dialer) (server : string).

Inductive Error := AllUDPFailed | AllTCPFailed.

Definition error_text (e : Error) : string :=
  match e with
  | AllUDPFailed => "all UDP STUN servers failed"
  | AllTCPFailed => "all TCP STUN servers failed"
  end.

Record Result := {
  mapping : option Mapping;
  err : option Error;
  contacted : list Contact
}.

(** The state of [xorAddr] after the callback ran on [ev]. *)
Definition xor_after (ev : Event) : XORMappedAddress :=
  match ev with
  | EvMessage (Some x) => x
  | _ => xor_zero
  end.

(** Whether the callback stores an error on [ev]. *)
Definition callback_error (ev : Event) : bool :=
  match ev with
  | EvError => true
  | EvMessage None => true
  | EvMessage (Some _) => false
  end.

Definition mk_mapping (laddr : Sock.Addr) (x : XORMappedAddress) : Mapping :=
  {| InternalIP := Sock.IP laddr; InternalPort := Sock.Port laddr;
     ExternalIP := XorIP x; ExternalPort := XorPort x |}.

(** [GetUDPMapping]. [world i] is what happens to the [i]-th server tried.
    The loop body resolves, dials with [net.DialUDP], and runs
    [err = client.Do(message, func(ev) { ... err = ... })]: the callback
    assigns [err] while [Do] runs, and the value [Do] returns is assigned
    to [err] after that, so the test [err != nil] that follows sees what
    [Do] returned. *)
Fixpoint udp_loop (c : Client) (srcPort : Z) (servers : list string)
    (world : nat -> Attempt) (i : nat) (log : list Contact) : Result :=
  match servers with
  | [] => {| mapping := None; err := Some AllUDPFailed; contacted := log |}
  | server :: rest =>
      let addr := server +:+ ":3478" in
      let laddr := {| Sock.IP := bindIP c; Sock.Port := srcPort |} in
      match world i with
      | ResolveFails => udp_loop c srcPort rest world (S i) (log ++ [Resolve addr])
      | DialFails =>
          udp_loop c srcPort rest world (S i) (log ++ [Resolve addr; DialUDP laddr addr])
      | Transacts r =>
          let log' := log ++ [Resolve addr; DialUDP laddr addr] in
          match r with
          | DoFails _ => udp_loop c srcPort rest world (S i) log'
          | DoReturns ev =>
              {| mapping := Some (mk_mapping laddr (xor_after ev));
                 err := None; contacted := log' |}
          end
      end
  end.

Definition GetUDPMapping (c : Client) (srcPort : Z) (world : nat -> Attempt) : Result :=
  udp_loop c srcPort (udpServers c) world 0 [].

(** [GetTCPMapping]: the dialer comes from [newBoundDialer] and resolves
    the server itself; the callback stores its error in [txnErr], which
    is tested together with the value [Do] returned. *)
Fixpoint tcp_loop (p : Sock.Platform) (c : Client) (srcPort : Z)
    (servers : list string) (world : nat -> Attempt) (i : nat)
    (log : list Contact) : Result :=
  match servers with
  | [] => {| mapping := None; err := Some AllTCPFailed; contacted := log |}
  | server :: rest =>
      let addr := server +:+ ":3478" in
      let laddr := {| Sock.IP := bindIP c; Sock.Port := srcPort |} in
      let d := Sock.newBoundDialer p laddr (timeout c) in
      let log' := log ++ [DialTCP d addr] in
      match world i with
      | ResolveFails | DialFails => tcp_loop p c srcPort rest world (S i) log'
      | Transacts (DoFails _) => tcp_loop p c srcPort rest world (S i) log'
      | Transacts (DoReturns ev) =>
          if callback_error ev
          then tcp_loop p c srcPort rest world (S i) log'
          else {| mapping := Some (mk_mapping laddr (xor_after ev));
                  err := None; contacted := log' |}
      end
  end.

Definition GetTCPMapping (p : Sock.Platform) (c : Client) (srcPort : Z)
    (world : nat -> Attempt) : Result :=
  tcp_loop p c srcPort (tcpServers c) world 0 [].

(** The server names a probe touched, in order. *)
Definition server_of (k : Contact) : option string :=
  match k with
  | Resolve s => Some s
  | DialUDP _ _ => None
  | DialTCP _ s => Some s
  end.

Definition servers_tried (r : Result) : list string := omap server_of (contacted r).

(** The local address of a probe and the connection a TCP probe opens. *)
Definition local_addr (c : Client) (srcPort : Z) : Sock.Addr :=
  {| Sock.IP := bindIP c; Sock.Port := srcPort |}.

Definition tcp_dial (p : Sock.Platform) (c : Client) (srcPort : Z)
    (server : string) : Contact :=
  DialTCP (Sock.newBoundDialer p (local_addr c srcPort) (timeout c)) (server +:+ ":3478").

(** A scenario: two UDP servers, the first of which lets the transaction
    time out while the second would answer. *)
Definition two_udp_servers : Client :=
  SetBindIP (NewClient [] ["stun1.example"; "stun2.example"] Sock.second) "192.168.1.10".

Definition first_times_out (i : nat) : Attempt :=
  match i with
  | O => Transacts (DoReturns EvError)
  | _ => Transacts (DoReturns (EvMessage (Some {| XorIP := "203.0.113.4"; XorPort := 51900 |})))
  end.

End Stun.

(** ** The status manager (package status) *)

Module Status.
Import GoStr.

Record UpdateEvent := {
  Protocol : string;
  InnerAddr : string;
  OuterAddr : string
}.

(** JSON values; an object is a finite map from keys to values. *)
#[warnings="-register-all"]
Inductive JSON :=
| JNull
| JStr (s : string)
| JArr (l : list JSON)
| JObj (m : gmap string JSON).

(** A Go slice is nil or holds a list of elements. *)
Definition slice (A : Type) : Type := option (list A).

(** The built-in [append(s, x)]: the result is never nil. *)
Definition append {A : Type} (s : slice A) (x : A) : slice A :=
  Some (default [] s ++ [x]).

(** What [encoding/json] makes of the Go types of [tmp] in [writeFile]:
    a [map[string]T] is an object, a slice is an array and a nil slice is
    [null], a string is a string. *)
Definition marshal_record (r : gmap string string) : JSON := JObj (JStr <$> r).

Definition marshal_slice (s : slice (gmap string string)) : JSON :=
  match s with
  | None => JNull
  | Some l => JArr (marshal_record <$> l)
  end.

Definition marshal (tmp : gmap string (slice (gmap string string))) : JSON :=
  JObj (marshal_slice <$> tmp).

(** The operations done on the status file, oldest first. *)
Inductive FileOp :=
| Seek0
| Truncate0
| Encode (doc : JSON).

(** Which of the file operations of one [writeFile] succeed. *)
Record IO := { seek_ok : bool; truncate_ok : bool; encode_ok : bool }.

(** [StatusManager]: the hook template, the table
    protocol -> inner -> outer, the file, and the hook commands handed
    to [sh -c] so far. *)
Record StatusManager := {
  hookCmd : string;
  mappings : gmap string (gmap string string);
  file : list FileOp;
  spawned : list string
}.

(** [NewManager], once the status file is open; with [os.OpenFile]
    failing it returns the error and no manager. *)
Definition fresh (hook : string) : StatusManager :=
  {| hookCmd := hook;
     mappings := {[ "tcp" := ∅; "udp" := ∅ ]};
     file := [];
     spawned := [] |}.

Definition NewManager (open_ok : bool) (hook : string) : option StatusManager :=
  if open_ok then Some (fresh hook) else None.

(** [expandHook]. *)
Definition expandHook (m : StatusManager) (ev : UpdateEvent) : string :=
  let s := hookCmd m in
  let s := ReplaceAll s "{inner}" (InnerAddr ev) in
  let s := ReplaceAll s "{outer}" (OuterAddr ev) in
  let s := ReplaceAll s "{protocol}" (Protocol ev) in
  s.

(** The two nested [range] loops of [writeFile]. Go leaves the order in
    which a map is ranged over open; [map_to_list] fixes one. *)
Definition tmp_add (protocol : string)
    (tmp : gmap string (slice (gmap string string))) (kv : string * string)
    : gmap string (slice (gmap string string)) :=
  let rec : gmap string string := {[ "inner" := kv.1; "outer" := kv.2 ]} in
  <[ protocol := append (default None (tmp !! protocol)) rec ]> tmp.

Definition tmp_add_all (tmp : gmap string (slice (gmap string string)))
    (entry : string * gmap string string)
    : gmap string (slice (gmap string string)) :=
  foldl (tmp_add entry.1) tmp (map_to_list entry.2).

Definition build_tmp (table : gmap string (gmap string string))
    : gmap string (slice (gmap string string)) :=
  foldl tmp_add_all {[ "tcp" := Some []; "udp" := Some [] ]} (map_to_list table).

Definition with_file (m : StatusManager) (f : list FileOp) : StatusManager :=
  {| hookCmd := hookCmd m; mappings := mappings m; file := f; spawned := spawned m |}.

(** [writeFile]: the manager after the call and whether it returned nil. *)
Definition writeFile (io : IO) (m : StatusManager) : StatusManager * bool :=
  let tmp := build_tmp (mappings m) in
  if negb (seek_ok io) then (m, false)
  else
    let f1 := file m ++ [Seek0] in
    if negb (truncate_ok io) then (with_file m f1, false)
    else
      let f2 := f1 ++ [Truncate0] in
      if negb (encode_ok io) then (with_file m f2, false)
      else (with_file m (f2 ++ [Encode (marshal tmp)]), true).

(** [handleEvent]. [m.mappings[ev.Protocol]] is the nil map for a protocol
    that is not a key; reading a nil map finds nothing, assigning to it
    panics. The inner map is shared with the table, so the assignment
    updates the table. *)
Definition handleEvent (io : IO) (m : StatusManager) (ev : UpdateEvent)
    : outcome StatusManager :=
  let protocolMap := mappings m !! Protocol ev in
  let old := protocolMap ≫= (λ pm : gmap string string, pm !! InnerAddr ev) in
  if bool_decide (old = Some (OuterAddr ev)) then Returns m
  else
    match protocolMap with
    | None => Panics
    | Some pm =>
        let m1 := {| hookCmd := hookCmd m;
                     mappings := <[ Protocol ev := <[ InnerAddr ev := OuterAddr ev ]> pm ]>
                                   (mappings m);
                     file := file m;
                     spawned := spawned m |} in
        let m2 := (writeFile io m1).1 in
        if bool_decide (hookCmd m2 = "") then Returns m2
        else Returns {| hookCmd := hookCmd m2; mappings := mappings m2;
                        file := file m2;
                        spawned := spawned m2 ++ [expandHook m2 ev] |}
    end.

(** The loop of [Run] over the events taken from [Updates], each with the
    file system's answers for it. *)
Fixpoint Run (m : StatusManager) (evs : list (UpdateEvent * IO)) : outcome StatusManager :=
  match evs with
  | [] => Returns m
  | (ev, io) :: rest => and_then (handleEvent io m ev) (λ m', Run m' rest)
  end.

(** The documents written so far. *)
Definition documents (m : StatusManager) : list JSON :=
  omap (λ op, match op with Encode d => Some d | _ => None end) (file m).

(** The shape of the status document. *)
Definition is_string (j : option JSON) : bool :=
  match j with Some (JStr _) => true | _ => false end.

Definition is_record (j : JSON) : bool :=
  match j with
  | JObj m =>
      bool_decide (dom m = ({[ "inner"; "outer" ]} : gset string))
      && is_string (m !! "inner") && is_string (m !! "outer")
  | _ => false
  end.

Definition is_record_array (j : option JSON) : bool :=
  match j with
  | Some (JArr l) => forallb is_record l
  | _ => false
  end.

Definition status_document (j : JSON) : bool :=
  match j with
  | JObj m =>
      bool_decide (dom m = ({[ "tcp"; "udp" ]} : gset string))
      && is_record_array (m !! "tcp") && is_record_array (m !! "udp")
  | _ => false
  end.

(** The protocols the table is seeded with. *)
Definition known (proto : string) : Prop := proto = "tcp" \/ proto = "udp".

Definition seeded (m : StatusManager) : Prop :=
  dom (mappings m) = ({[ "tcp"; "udp" ]} : gset string).

(** What the loops of [writeFile] maintain of [tmp]. *)
Definition record_ok (r : gmap string string) : Prop :=
  is_record (marshal_record r) = true.

Definition tmp_ok (tmp : gmap string (slice (gmap string string))) : Prop :=
  dom tmp = ({[ "tcp"; "udp" ]} : gset string)
  /\ forall k s, tmp !! k = Some s -> exists l, s = Some l /\ Forall record_ok l.

End Status.

(** ** The keep-alive engine (package keepalive) *)

Module Keepalive.
Import GoStr.

Definition second : Z := Sock.second.

(** [minInterval]. *)
Definition minInterval (d : Z) : Z :=
  if d <=? 0 then 5 * second else d.

(** [float64(x)] for a 64-bit integer [x]: the nearest value with a 53-bit
    significand, ties to even. Every such value is an integer once
    [|x| >= 2^53], so the float is given by the integer it equals. *)
Definition float64_of_int64 (x : Z) : Z :=
  let a := Z.abs x in
  let e := Z.log2 a in
  if e <? 53 then x
  else
    let sh := e - 52 in
    let q := Z.shiftr a sh in
    let r := Z.land a (Z.ones sh) in
    let half := Z.shiftl 1 (sh - 1) in
    let q' := if (half <? r) || ((r =? half) && Z.odd q) then q + 1 else q in
    Z.sgn x * Z.shiftl q' sh.

(** [time.Duration(f)] for a float [f] with an integer value inside the
    64-bit range; outside of it the amd64 conversion gives the least
    integer. *)
Definition int64_of_float64 (f : Z) : Z :=
  if (minInt64 <=? f) && (f <=? maxInt64) then f else minInt64.

(** [time.Duration(math.Min(float64(backoff*2), float64(60*time.Second)))]. *)
Definition next_backoff (backoff : Z) : Z :=
  int64_of_float64
    (Z.min (float64_of_int64 (wrap64 (backoff * 2)))
           (float64_of_int64 (wrap64 (60 * second)))).

(** The state the loop of [TCPKeepAlive] carries from one turn to the
    next: whether [conn] is non-nil, and [backoff]. *)
Record State := { connected : bool; backoff : Z }.

(** The answers of the outside world during one turn of the loop, each
    used only if the turn asks for it. *)
Record World := {
  dial_ok : bool;
  write_ok : bool;
  reads : nat;
  read_timeout : bool;
  cancelled : bool
}.

Inductive Action :=
| ADial (d : Sock.Dialer) (hostPort : string)
| AWait (d : Z)
| ASetNoDelay
| AWrite (req : string)
| ASetReadDeadline (d : Z)
| ARead
| AClose.

(** The dialer the loop builds:
    [net.Dialer{LocalAddr: laddr, Timeout: 3 * time.Second}]. *)
Definition keepalive_dialer (laddr : Sock.Addr) : Sock.Dialer :=
  {| Sock.LocalAddr := Some laddr; Sock.Timeout := 3 * second;
     Sock.DialControl := None |}.

Definition head_request (host : string) : string :=
  "HEAD /natter-keep-alive HTTP/1.1" +:+ String "013" (String "010" "Host: ")
  +:+ host +:+ String "013" (String "010" "Connection: keep-alive")
  +:+ String "013" (String "010" (String "013" (String "010" ""))).

(** One turn of the [for] loop of [TCPKeepAlive]: what it does, and the
    state for the next turn, or [None] when the function returns. A wait
    is a [select] between [ctx.Done()] and [time.After(d)]; on return the
    deferred function closes a connection that is still open. *)
Definition turn (laddr : Sock.Addr) (host : string) (interval : Z)
    (st : State) (w : World) : list Action * option State :=
  let hostPort := JoinHostPort host "80" in
  let dial := ADial (keepalive_dialer laddr) hostPort in
  if negb (connected st) && negb (dial_ok w) then
    ([dial; AWait (backoff st)],
     if cancelled w then None
     else Some {| connected := false; backoff := next_backoff (backoff st) |})
  else
    let dialled := if connected st then [] else [dial; ASetNoDelay] in
    let b := if connected st then backoff st else interval in
    if negb (write_ok w) then
      (dialled ++ [AWrite (head_request host); AClose],
       Some {| connected := false; backoff := b |})
    else
      let alive := read_timeout w in
      (dialled ++ [AWrite (head_request host); ASetReadDeadline second]
         ++ repeat ARead (S (reads w))
         ++ (if alive then [] else [AClose])
         ++ [AWait interval]
         ++ (if cancelled w && alive then [AClose] else []),
       if cancelled w then None
       else Some {| connected := alive; backoff := b |}).

Fixpoint loop (laddr : Sock.Addr) (host : string) (interval : Z)
    (st : State) (ws : list World) : list Action * option State :=
  match ws with
  | [] => ([], Some st)
  | w :: ws' =>
      match turn laddr host interval st w with
      | (acts, None) => (acts, None)
      | (acts, Some st') =>
          let r := loop laddr host interval st' ws' in (acts ++ r.1, r.2)
      end
  end.

Definition initial (interval : Z) : State :=
  {| connected := false; backoff := minInterval interval |}.

(** [TCPKeepAlive], run against the turns [ws] of the outside world. *)
Definition TCPKeepAlive (laddr : Sock.Addr) (host : string) (interval : Z)
    (ws : list World) : list Action * option State :=
  loop laddr host (minInterval interval) (initial interval) ws.

(** *** UDP *)

Definition byte_of_Z (z : Z) : byte :=
  default x00 (Byte.of_N (Z.to_N (z mod 256))).

Definition ch (a : ascii) : byte := byte_of_ascii a.

(** Where the two bytes of the transaction ID come from: [crypto/rand],
    or, when that fails, [math/rand]'s [Intn(0xffff)]. *)
Inductive RandSource :=
| CryptoRand (b0 b1 : byte)
| MathRand (v : Z).

(** [binary.BigEndian.PutUint16(txid, uint16(v))]. *)
Definition PutUint16 (v : Z) : list byte :=
  let u := v mod 2 ^ 16 in [byte_of_Z (Z.shiftr u 8); byte_of_Z u].

Definition txid_of (r : RandSource) : list byte :=
  match r with
  | CryptoRand b0 b1 => [b0; b1]
  | MathRand v => PutUint16 v
  end.

Record UWorld := {
  parsed_ip : option string;
  dns_answer : option Sock.Addr;
  rand_source : RandSource;
  ucancelled : bool
}.

Inductive UAction :=
| UWriteTo (pkt : list byte) (raddr : Sock.Addr)
| UWaitTick.

(** The closure [resolve]. *)
Definition resolve (port : Z) (w : UWorld) : option Sock.Addr :=
  match parsed_ip w with
  | Some ip => Some {| Sock.IP := ip; Sock.Port := port |}
  | None => dns_answer w
  end.

Definition header (txid : list byte) : list byte :=
  txid ++ [x01; x00; x00; x01; x00; x00; x00; x00; x00; x00].

Definition qname : list byte :=
  [x09; ch "k"; ch "e"; ch "e"; ch "p"; ch "a"; ch "l"; ch "i"; ch "v"; ch "e";
   x06; ch "n"; ch "a"; ch "t"; ch "t"; ch "e"; ch "r"; x00].

Definition question : list byte := [x00; x01; x00; x01].

Definition packet (txid : list byte) : list byte :=
  header txid ++ (qname ++ question).

(** One turn of the loop of [UDPKeepAlive]: the actions, and whether the
    loop goes on. *)
Definition uturn (port : Z) (w : UWorld) : list UAction * bool :=
  match resolve port w with
  | None => ([UWaitTick], negb (ucancelled w))
  | Some raddr =>
      ([UWriteTo (packet (txid_of (rand_source w))) raddr; UWaitTick],
       negb (ucancelled w))
  end.

Fixpoint UDPKeepAlive (port : Z) (ws : list UWorld) : list UAction :=
  match ws with
  | [] => []
  | w :: ws' =>
      let r := uturn port w in
      r.1 ++ (if r.2 then UDPKeepAlive port ws' else [])
  end.

Definition datagrams (acts : list UAction) : list (list byte) :=
  omap (λ a, match a with UWriteTo p _ => Some p | UWaitTick => None end) acts.

(** *** The DNS message format (RFC 1035, 4.1), for comparison *)

Definition u16 (v : Z) : list byte := [byte_of_Z (v / 256); byte_of_Z v].

Definition dns_label (s : string) : list byte :=
  byte_of_Z (len s) :: list_byte_of_string s.

Definition dns_name (labels : list string) : list byte :=
  concat (dns_label <$> labels) ++ [x00].

Record DNSQuery := {
  q_id : list byte;
  q_flags : Z;
  q_labels : list string;
  q_type : Z;
  q_class : Z
}.

(** A query with one question and empty answer, authority and additional
    sections. *)
Definition dns_encode (q : DNSQuery) : list byte :=
  q_id q ++ u16 (q_flags q) ++ u16 1 ++ u16 0 ++ u16 0 ++ u16 0
  ++ dns_name (q_labels q) ++ u16 (q_type q) ++ u16 (q_class q).

Definition keepalive_query (txid : list byte) : DNSQuery :=
  {| q_id := txid; q_flags := 256; q_labels := Split "keepalive.natter" ".";
     q_type := 1; q_class := 1 |}.

End Keepalive.

(** ** The orchestrator (package orchestrator) *)

Module Orchestrator.
Import GoStr.

(** [config.Config]: the fields the orchestrator reads. *)
Record Config := {
  StunServer_TCP : list string;
  StunServer_UDP : list string;
  KeepAlive : string;
  Interval : Z;
  OpenPort_TCP : list string;
  OpenPort_UDP : list string;
  ForwardPort_TCP : list string;
  ForwardPort_UDP : list string;
  Hook : string;
  StatusFile : string
}.

(** [forward.TCPForwarder] as [NewTCPForwarder] builds it. *)
Record TCPForwarder := { ListenAddr : string; TargetAddr : string }.

Definition NewTCPForwarder (listenAddr targetAddr : string) : TCPForwarder :=
  {| ListenAddr := listenAddr; TargetAddr := targetAddr |}.

Record Natter := {
  cfg : Config;
  stunClient : Stun.Client;
  statusMgr : Status.StatusManager;
  interval : Z;
  tcpOpens : list Sock.Addr;
  udpOpens : list Sock.Addr;
  tcpFwds : list TCPForwarder
}.

(** [splitAddr]. The slice [a[:p]] is taken first. *)
Definition splitAddr (a : string) : outcome (string * Z) :=
  let p := LastIndex a ":" in
  and_then (slice_to a p) (λ h,
  and_then (slice_from a (p + 1)) (λ rest,
  let pi := (Atoi rest).1 in
  Returns (h, pi))).

(** [portOf]. *)
Definition portOf (addr : string) : outcome string :=
  let idx := LastIndex addr ":" in
  slice_from addr (idx + 1).

(** A [for ... range] loop whose body can panic and appends one element. *)
Fixpoint for_each {A B : Type} (body : A -> outcome B) (l : list A) : outcome (list B) :=
  match l with
  | [] => Returns []
  | a :: rest =>
      and_then (body a) (λ b,
      and_then (for_each body rest) (λ bs, Returns (b :: bs)))
  end.

(** The loop [for i, target := range cfg.ForwardPort.TCP] of the
    index-paired branch; the index expression [cfg.OpenPort.TCP[i]] panics
    out of range. *)
Fixpoint pair_by_index (opens targets : list string) (i : nat)
    : outcome (list TCPForwarder) :=
  match targets with
  | [] => Returns []
  | target :: rest =>
      match opens !! i with
      | None => Panics
      | Some listenAddr =>
          and_then (pair_by_index opens rest (S i)) (λ fs,
          Returns (NewTCPForwarder listenAddr target :: fs))
      end
  end.

Definition listen_on_target_port (target : string) : outcome TCPForwarder :=
  and_then (portOf target) (λ port,
  Returns (NewTCPForwarder ("0.0.0.0:" +:+ port) target)).

Definition prepare_forwarders (c : Config) : outcome (list TCPForwarder) :=
  if bool_decide (length (OpenPort_TCP c) = length (ForwardPort_TCP c))
  then pair_by_index (OpenPort_TCP c) (ForwardPort_TCP c) 0
  else for_each listen_on_target_port (ForwardPort_TCP c).

Section WithParseIP.

(** [net.ParseIP] followed by [IP.String()]: the library's reading of a
    host string. *)
Variable ParseIP : string -> string.

Definition open_addr (a : string) : outcome Sock.Addr :=
  and_then (splitAddr a) (λ hp,
  Returns {| Sock.IP := ParseIP hp.1; Sock.Port := hp.2 |}).

(** [New]. [Returns None] is the return of [nil] with the error of
    [status.NewManager]; [open_ok] says whether the status file opens. *)
Definition New (open_ok : bool) (c : Config) : outcome (option Natter) :=
  let stunCli := Stun.NewClient (StunServer_TCP c) (StunServer_UDP c) Sock.second in
  match Status.NewManager open_ok (Hook c) with
  | None => Returns None
  | Some sm =>
      and_then (for_each open_addr (OpenPort_TCP c)) (λ topens,
      and_then (for_each open_addr (OpenPort_UDP c)) (λ uopens,
      and_then (prepare_forwarders c) (λ fwds,
      Returns (Some {| cfg := c;
                       stunClient := stunCli;
                       statusMgr := sm;
                       interval := wrap64 (Interval c * Sock.second);
                       tcpOpens := topens;
                       udpOpens := uopens;
                       tcpFwds := fwds |}))))
  end.

End WithParseIP.

(** [addr.String()] of a [net.TCPAddr] or [net.UDPAddr] without zone. *)
Definition addr_String (a : Sock.Addr) : string :=
  let ip := if bool_decide (Sock.IP a = "<nil>") then "" else Sock.IP a in
  JoinHostPort ip (Itoa (Sock.Port a)).

(** [formatInner]; [parts[1]] panics when [parts] has one element. *)
Definition formatInner (s : string) (outboundIP : string) : outcome string :=
  if HasPrefix s "0.0.0.0:" then
    match Split s ":" !! 1%nat with
    | Some port => Returns (outboundIP +:+ ":" +:+ port)
    | None => Panics
    end
  else Returns s.

(** [fmt.Sprintf("%s:%d", res.ExternalIP, res.ExternalPort)]. *)
Definition format_outer (m : Stun.Mapping) : string :=
  Stun.ExternalIP m +:+ ":" +:+ Itoa (Stun.ExternalPort m).

(** One probe of the worker: [GetTCPMapping] for ["tcp"], [GetUDPMapping]
    otherwise; [Some outer] when [err == nil]. *)
Definition probe (p : Sock.Platform) (client : Stun.Client) (proto : string)
    (port : Z) (world : nat -> Stun.Attempt) : option string :=
  let res :=
    if bool_decide (proto = "tcp")
    then Stun.GetTCPMapping p client port world
    else Stun.GetUDPMapping client port world in
  match Stun.err res, Stun.mapping res with
  | None, Some m => Some (format_outer m)
  | _, _ => None
  end.

(** The values of a sequence that differ from the value before them, the
    first being compared with [last]: what "published only on change"
    asks of a sequence of observations. *)
Fixpoint changes (last : string) (obs : list string) : list string :=
  match obs with
  | [] => []
  | o :: rest =>
      if bool_decide (o = last) then changes last rest else o :: changes o rest
  end.

(** One turn of the loop of [runWorker]: the event sent on [Updates], if
    any, and the new [lastOuter]. *)
Definition worker_turn (proto inner lastOuter : string) (probed : option string)
    : list Status.UpdateEvent * string :=
  match probed with
  | None => ([], lastOuter)
  | Some outer =>
      if bool_decide (outer ≠ lastOuter)
      then ([{| Status.Protocol := proto; Status.InnerAddr := inner;
                Status.OuterAddr := outer |}], outer)
      else ([], lastOuter)
  end.

Fixpoint worker_loop (p : Sock.Platform) (client : Stun.Client)
    (proto : string) (port : Z) (inner lastOuter : string)
    (worlds : list (nat -> Stun.Attempt)) : list Status.UpdateEvent :=
  match worlds with
  | [] => []
  | world :: rest =>
      let r := worker_turn proto inner lastOuter (probe p client proto port world) in
      r.1 ++ worker_loop p client proto port inner r.2 rest
  end.

(** [runWorker], run for as many turns as [worlds] has before the context
    is cancelled: the events sent, in order. *)
Definition runWorker (p : Sock.Platform) (client : Stun.Client)
    (outboundIP : string) (proto : string) (addr : Sock.Addr)
    (worlds : list (nat -> Stun.Attempt)) : outcome (list Status.UpdateEvent) :=
  and_then (formatInner (addr_String addr) outboundIP) (λ inner,
  Returns (worker_loop p client proto (Sock.Port addr) inner "" worlds)).

(** The sockets [Run] and the workers create on a monitored port, with
    the options each is created with. *)
Inductive Site :=
| StunTCPProbe
| StunUDPProbe
| ForwarderListener
| KeepAliveDialer
| KeepAliveUDPSocket.

Definition site_options (p : Sock.Platform) (laddr : Sock.Addr) (s : Site)
    : list (Sock.SockOpt * Z) :=
  match s with
  | StunTCPProbe =>
      Sock.options_set (Sock.DialControl (Sock.newBoundDialer p laddr Sock.second))
  | StunUDPProbe => Sock.options_set Sock.DialUDP_control
  | ForwarderListener =>
      Sock.options_set (Sock.ListenControl (Sock.listenWithReuse p))
  | KeepAliveDialer =>
      Sock.options_set (Sock.DialControl (Keepalive.keepalive_dialer laddr))
  | KeepAliveUDPSocket => Sock.options_set Sock.ListenPacket_control
  end.

(** Whether a socket a probe opened was created with address reuse. *)
Definition probe_reuses (p : Sock.Platform) (k : Stun.Contact) : bool :=
  match k with
  | Stun.Resolve _ => true
  | Stun.DialUDP _ _ => Sock.reuse_enabled p (Sock.options_set Sock.DialUDP_control)
  | Stun.DialTCP d _ => Sock.reuse_enabled p (Sock.options_set (Sock.DialControl d))
  end.

(** The configuration of the README. *)
Definition readme_config : Config :=
  {| StunServer_TCP := ["stun.l.google.com"; "stun1.l.google.com"];
     StunServer_UDP := ["stun.l.google.com:3478"; "stun1.l.google.com:3478"];
     KeepAlive := "www.qq.com";
     Interval := 10;
     OpenPort_TCP := ["0.0.0.0:34567"];
     OpenPort_UDP := [];
     ForwardPort_TCP := ["192.168.1.1:80"];
     ForwardPort_UDP := [];
     Hook := "echo mapped from {inner} to {outer}";
     StatusFile := "status.json" |}.

(** The same with an open port written without its host part. *)
Definition bare_port_config : Config :=
  {| StunServer_TCP := StunServer_TCP readme_config;
     StunServer_UDP := StunServer_UDP readme_config;
     KeepAlive := KeepAlive readme_config;
     Interval := Interval readme_config;
     OpenPort_TCP := ["34567"];
     OpenPort_UDP := [];
     ForwardPort_TCP := ForwardPort_TCP readme_config;
     ForwardPort_UDP := [];
     Hook := Hook readme_config;
     StatusFile := StatusFile readme_config |}.

(** A network in which the first server of the list answers every probe
    with the external address [ip:port]. *)
Definition answers (ip : string) (port : Z) (i : nat) : Stun.Attempt :=
  Stun.Transacts (Stun.DoReturns (Stun.EvMessage
    (Some {| Stun.XorIP := ip; Stun.XorPort := port |}))).

(** A network in which nothing can be reached. *)
Definition unreachable (i : nat) : Stun.Attempt := Stun.DialFails.

(** Mapping drift: the external port is 51900 for three probes, one probe
    fails, then the port is 51901. *)
Definition drift : list (nat -> Stun.Attempt) :=
  [answers "203.0.113.4" 51900; answers "203.0.113.4" 51900;
   answers "203.0.113.4" 51900; unreachable;
   answers "203.0.113.4" 51901; answers "203.0.113.4" 51901].

End Orchestrator.

(** ** More of the code: tables, traces, the command line, the UDP
       forwarder, UPnP *)

(** *** Reading the status table *)

Module Table.
Import GoStr Status.

(** [table[proto][inner]] as an optional value. *)
Definition entry (table : gmap string (gmap string string)) (proto inner : string)
    : option string :=
  table !! proto ≫= (λ pm : gmap string string, pm !! inner).

(** The outer address an event leaves for [(proto, inner)]: its own when
    it is about that pair, else the one before. *)
Definition overwrite (proto inner : string) (before : option string)
    (ev : UpdateEvent) : option string :=
  if bool_decide (Protocol ev = proto /\ InnerAddr ev = inner)
  then Some (OuterAddr ev) else before.

Definition last_outer (proto inner : string) (before : option string)
    (evs : list UpdateEvent) : option string :=
  foldl (overwrite proto inner) before evs.

(** A sequence of values each of which differs from the one before it,
    the first from [cur]. *)
Fixpoint fresh_chain (cur : option string) (outs : list string) : Prop :=
  match outs with
  | [] => True
  | o :: rest => cur <> Some o /\ fresh_chain (Some o) rest
  end.

(** The record [writeFile] builds for one table entry, encoded. *)
Definition record_of (inner outer : string) : JSON :=
  marshal_record {[ "inner" := inner; "outer" := outer ]}.

(** A field of a JSON object. *)
Definition field (name : string) (j : JSON) : option JSON :=
  match j with
  | JObj m => m !! name
  | _ => None
  end.

(** Whether [sub] occurs in [s]. *)
Fixpoint occurs (sub s : string) : bool :=
  HasPrefix s sub ||
  match s with
  | EmptyString => false
  | String _ s' => occurs sub s'
  end.

(** Two managers that agree on everything but the file. *)
Definition same_core (a b : StatusManager) : Prop :=
  mappings a = mappings b /\ spawned a = spawned b /\ hookCmd a = hookCmd b.

Definition agree (a b : outcome StatusManager) : Prop :=
  match a, b with
  | Returns a', Returns b' => same_core a' b'
  | Panics, Panics => True
  | _, _ => False
  end.

Definition all_ok : IO := {| seek_ok := true; truncate_ok := true; encode_ok := true |}.

End Table.

(** *** Reading the outcome of a probe *)

Module Probe.
Import GoStr Stun.

(** The address a server of the list is dialled at. *)
Definition stun_addr (server : string) : string := server +:+ ":3478".

(** The attempts after which [GetUDPMapping] returns a mapping: those on
    which [Do] returns nil, with the value [xorAddr] then has. *)
Definition udp_accepts (a : Attempt) : option XORMappedAddress :=
  match a with
  | Transacts (DoReturns ev) => Some (xor_after ev)
  | _ => None
  end.

End Probe.

(** *** Reading the trace of the keep-alive loops *)

Module Trace.
Import GoStr Keepalive.

(** The waits of a trace, the requests written, and the number of dials. *)
Definition waits (acts : list Action) : list Z :=
  omap (λ a, match a with AWait d => Some d | _ => None end) acts.


Definition dials (acts : list Action) : nat :=
  length (omap (λ a, match a with ADial _ hp => Some hp | _ => None end) acts).

(** The backoff after [k] failed dials in a row, counted from a start or
    a connect with interval [i]. *)
Definition backoff_after (i : Z) (k : nat) : Z :=
  match k with
  | O => i
  | S _ => Z.min (2 ^ Z.of_nat k * i) (60 * second)
  end.

(** Turns of the outside world. *)
Definition dial_fails (w : World) : Prop := dial_ok w = false /\ cancelled w = false.


Definition write_fails (w : World) : Prop := dial_ok w = true /\ write_ok w = false.

(** The 32 bytes that follow the transaction ID in every datagram. *)
Definition query_tail : list byte := drop 2 (packet [x00; x00]).

End Trace.

(** *** The command line (cmd/natter/main.go) *)

Module Main.
Import GoStr Orchestrator.

(** How the part of [main] before the logger ends in port mode: with
    [usage()] and [os.Exit(1)], with "Invalid port" and [os.Exit(1)], or
    with a configuration. *)
Inductive Startup :=
| ExitUsage
| ExitInvalidPort
| Configured (c : Config).

Definition exit_code (s : Startup) : option Z :=
  match s with
  | Configured _ => None
  | _ => Some 1
  end.

(** The temporary configuration of port mode. *)
Definition port_config (host : string) (port : Z) : Config :=
  {| StunServer_TCP := [];
     StunServer_UDP := [];
     KeepAlive := "www.qq.com";
     Interval := 10;
     OpenPort_TCP := [host +:+ ":" +:+ Itoa port];
     OpenPort_UDP := [];
     ForwardPort_TCP := [];
     ForwardPort_UDP := [];
     Hook := "";
     StatusFile := "status.json" |}.

(** [main] without [-c]: [args] is what [flag.Args()] returns. The host
    is ["0.0.0.0"] and the port is [args[0]], unless there are two
    arguments, the host and the port. *)
Definition port_mode (args : list string) : Startup :=
  if negb (length args =? 1)%nat && negb (length args =? 2)%nat then ExitUsage
  else
    match args with
    | [] => ExitUsage
    | a0 :: rest =>
        let hp := match rest with
                  | [a1] => (a0, a1)
                  | _ => ("0.0.0.0", a0)
                  end in
        match Atoi hp.2 with
        | (_, Some _) => ExitInvalidPort
        | (port, None) => Configured (port_config hp.1 port)
        end
    end.

(** How [main] goes on in port mode. [logger_ok] is whether [ilog.New]
    returns a logger, [open_ok] whether the status file opens. Without a
    logger [main] exits with 1; on an error of [New] it calls
    [logger.Fatal]; otherwise it calls [Run] on the [Natter]. The test
    server of [-t] runs in a goroutine of its own and has no part in how
    [main] goes on. *)
Inductive Launch :=
| Usage
| InvalidPort
| LoggerFails
| Fatal
| Panicked
| Runs (n : Natter).

Definition launch (ParseIP : string -> string) (logger_ok open_ok : bool)
    (args : list string) : Launch :=
  match port_mode args with
  | ExitUsage => Usage
  | ExitInvalidPort => InvalidPort
  | Configured c =>
      if negb logger_ok then LoggerFails
      else
        match New ParseIP open_ok c with
        | Returns (Some n) => Runs n
        | Returns None => Fatal
        | Panics => Panicked
        end
  end.

End Main.

(** *** The UDP forwarder (internal/forward/udp.go) *)

Module Forward.

(** [UDPForwarder]. A sub-socket to the target is named by its rank among
    the sockets dialled so far. Beside the fields of the source the state
    holds the goroutines that run [handleServerResponse], each with its
    sub-socket and the client address it was started for. The map
    [clients] is only touched while [clientsMu] is held, so a step of the
    model is one locked section together with the unlocked code of the
    same goroutine around it. *)
Record UDPForwarder := {
  ListenAddr : string;
  TargetAddr : string;
  Timeout : Z;
  clients : gmap string nat;
  pumps : gmap nat string;
  opened : nat
}.

Definition NewUDPForwarder (listenAddr targetAddr : string) (timeout : Z) : UDPForwarder :=
  {| ListenAddr := listenAddr; TargetAddr := targetAddr; Timeout := timeout;
     clients := ∅; pumps := ∅; opened := 0 |}.

Inductive Action :=
| Dial (conn : nat) (target : string)
| WriteServer (conn : nat) (data : list byte)
| WriteClient (client : string) (data : list byte)
| SetReadDeadline (conn : nat) (d : Z)
| Close (conn : nat)
| CloseListener.

Record Datagram := { from : string; payload : list byte }.

(** One turn of [acceptLoop]: what [ReadFromUDP] returned ([None] for an
    error), and whether the target resolves and the dial succeeds, if
    they are asked for. *)
Record AcceptWorld := {
  read : option Datagram;
  resolve_ok : bool;
  dial_ok : bool
}.

(** What one read into the 2048-byte buffer keeps of a datagram. *)
Definition buffered (data : list byte) : list byte := take 2048 data.

Definition with_session (f : UDPForwarder) (key : string) (conn : nat) : UDPForwarder :=
  {| ListenAddr := ListenAddr f; TargetAddr := TargetAddr f; Timeout := Timeout f;
     clients := <[key := conn]> (clients f);
     pumps := <[conn := key]> (pumps f);
     opened := S (opened f) |}.

Definition without_session (f : UDPForwarder) (key : string) (conn : nat) : UDPForwarder :=
  {| ListenAddr := ListenAddr f; TargetAddr := TargetAddr f; Timeout := Timeout f;
     clients := delete key (clients f);
     pumps := delete conn (pumps f);
     opened := opened f |}.

(** One turn of the loop of [acceptLoop]. *)
Definition accept_turn (f : UDPForwarder) (w : AcceptWorld) : UDPForwarder * list Action :=
  match read w with
  | None => (f, [])
  | Some d =>
      let key := from d in
      match clients f !! key with
      | Some srvConn => (f, [WriteServer srvConn (buffered (payload d))])
      | None =>
          if negb (resolve_ok w) then (f, [])
          else if negb (dial_ok w) then (f, [])
          else
            let srvConn := opened f in
            (with_session f key srvConn,
             [Dial srvConn (TargetAddr f); WriteServer srvConn (buffered (payload d))])
      end
  end.

(** What the read of a [handleServerResponse] goroutine returns. *)
Inductive ServerRead :=
| Reply (data : list byte)
| ReadFails.

(** One turn of the loop of [handleServerResponse] for the sub-socket
    [conn], with the clean-up when the read fails. A sub-socket without
    such a goroutine has no turn. *)
Definition pump_turn (f : UDPForwarder) (conn : nat) (r : ServerRead)
    : UDPForwarder * list Action :=
  match pumps f !! conn with
  | None => (f, [])
  | Some client =>
      match r with
      | Reply data =>
          (f, [SetReadDeadline conn (Timeout f); WriteClient client (buffered data)])
      | ReadFails =>
          (without_session f client conn, [SetReadDeadline conn (Timeout f); Close conn])
      end
  end.

(** The steps of the goroutines of one forwarder, interleaved. *)
Inductive Step :=
| Accept (w : AcceptWorld)
| Pump (conn : nat) (r : ServerRead).

Definition step (f : UDPForwarder) (s : Step) : UDPForwarder * list Action :=
  match s with
  | Accept w => accept_turn f w
  | Pump conn r => pump_turn f conn r
  end.

Fixpoint run (f : UDPForwarder) (steps : list Step) : UDPForwarder * list Action :=
  match steps with
  | [] => (f, [])
  | s :: rest =>
      let r1 := step f s in
      let r2 := run r1.1 rest in
      (r2.1, r1.2 ++ r2.2)
  end.

(** The map and the goroutines describe the same sessions, and every
    sub-socket in use was dialled. *)
Definition consistent (f : UDPForwarder) : Prop :=
  (forall key conn, clients f !! key = Some conn <-> pumps f !! conn = Some key)
  /\ (forall conn key, pumps f !! conn = Some key -> (conn < opened f)%nat).

(** [Stop]: the listening socket and every sub-socket of the map are
    closed; the map itself is left to the goroutines, which [Stop] then
    waits for. *)
Definition Stop (f : UDPForwarder) : list Action :=
  CloseListener :: (Close <$> (map_to_list (clients f)).*2).

(** The reads of the given sub-sockets fail, one after the other. *)
Definition exits (conns : list nat) : list Step :=
  (λ conn, Pump conn ReadFails) <$> conns.

(** A forwarder with sessions of two clients. *)
Definition two_sessions : list Step :=
  [ Accept {| read := Some {| from := "192.0.2.1:4000"; payload := [] |};
              resolve_ok := true; dial_ok := true |};
    Accept {| read := Some {| from := "192.0.2.2:4000"; payload := [] |};
              resolve_ok := true; dial_ok := true |} ].

(** A datagram of a third client, as the accept loop may hold it when
    the listening socket is closed. *)
Definition late_datagram : Step :=
  Accept {| read := Some {| from := "192.0.2.3:4000"; payload := [] |};
            resolve_ok := true; dial_ok := true |}.

End Forward.

(** *** UPnP (internal/upnp/upnp.go) *)

Module UPnP.

(** The arguments of [AddPortMappingCtx]. *)
Record PortMapping := {
  remoteHost : string;
  externalPort : Z;
  protocol : string;
  internalPort : Z;
  internalClient : string;
  enabled : bool;
  description : string;
  leaseDuration : Z
}.

Inductive AddResult :=
| Added
| InvalidInternalIP (host : string)
| GatewayError (proto : string) (ext : Z).

(** The conversion [uint16(n)] of an [int]. *)
Definition uint16 (n : Z) : Z := n mod 2 ^ 16.

(** [add]: [valid_ip] is whether [net.ParseIP(host)] is non-nil,
    [gateway_ok] whether the gateway accepts the request. The result and
    the requests sent to the gateway. *)
Definition add (valid_ip gateway_ok : bool) (proto : string) (ext inp : Z)
    (host : string) (dur : Z) : AddResult * list PortMapping :=
  if negb valid_ip then (InvalidInternalIP host, [])
  else
    let req := {| remoteHost := ""; externalPort := uint16 ext; protocol := proto;
                  internalPort := uint16 inp; internalClient := host;
                  enabled := true; description := "natter-go";
                  leaseDuration := dur |} in
    if gateway_ok then (Added, [req]) else (GatewayError proto ext, [req]).

Definition AddTCP (valid_ip gateway_ok : bool) (externalPort internalPort : Z)
    (internalIP : string) (durationSec : Z) : AddResult * list PortMapping :=
  add valid_ip gateway_ok "TCP" externalPort internalPort internalIP durationSec.

Definition AddUDP (valid_ip gateway_ok : bool) (externalPort internalPort : Z)
    (internalIP : string) (durationSec : Z) : AddResult * list PortMapping :=
  add valid_ip gateway_ok "UDP" externalPort internalPort internalIP durationSec.

End UPnP.

(** * Properties *)

(** ** The model on concrete inputs *)

Module Examples.
Import GoStr.

Example LastIndex_host_port : LastIndex "0.0.0.0:34567" ":" = 7.
Proof. reflexivity. Qed.

Example LastIndex_ipv6 : LastIndex "[::1]:80" ":" = 5.
Proof. reflexivity. Qed.

Example LastIndex_absent : LastIndex "34567" ":" = -1.
Proof. reflexivity. Qed.

Example Split_inner : Split "0.0.0.0:34567" ":" = ["0.0.0.0"; "34567"].
Proof. reflexivity. Qed.

Example ReplaceAll_twice :
  ReplaceAll "echo {inner} {outer} {inner}" "{inner}" "10.0.0.2:80"
  = "echo 10.0.0.2:80 {outer} 10.0.0.2:80".
Proof. reflexivity. Qed.

Example Atoi_port : Atoi "34567" = (34567, None).
Proof. reflexivity. Qed.

Example Atoi_signed : Atoi "-12" = (-12, None).
Proof. reflexivity. Qed.

Example Atoi_empty : Atoi "" = (0, Some ErrSyntax).
Proof. reflexivity. Qed.

Example Atoi_letters : Atoi "80a" = (0, Some ErrSyntax).
Proof. reflexivity. Qed.

Example Atoi_too_large : Atoi "9223372036854775808" = (maxInt64, Some ErrRange).
Proof. reflexivity. Qed.

Example Atoi_too_small : Atoi "-9223372036854775809" = (minInt64, Some ErrRange).
Proof. reflexivity. Qed.

Example splitAddr_host_port :
  Orchestrator.splitAddr "0.0.0.0:34567" = Returns ("0.0.0.0", 34567).
Proof. reflexivity. Qed.

Example splitAddr_ipv6 : Orchestrator.splitAddr "[::1]:80" = Returns ("[::1]", 80).
Proof. reflexivity. Qed.

Example portOf_target : Orchestrator.portOf "192.168.1.1:80" = Returns "80".
Proof. reflexivity. Qed.

Example formatInner_unspecified :
  Orchestrator.formatInner "0.0.0.0:34567" "192.168.1.10" = Returns "192.168.1.10:34567".
Proof. reflexivity. Qed.

Example formatInner_specified :
  Orchestrator.formatInner "10.0.0.2:34567" "192.168.1.10" = Returns "10.0.0.2:34567".
Proof. reflexivity. Qed.

Example expandHook_readme :
  Status.expandHook (Status.fresh "echo mapped from {inner} to {outer}")
    {| Status.Protocol := "tcp"; Status.InnerAddr := "192.168.1.10:34567";
       Status.OuterAddr := "203.0.113.4:51900" |}
  = "echo mapped from 192.168.1.10:34567 to 203.0.113.4:51900".
Proof. reflexivity. Qed.

(** The first event writes the document of the interface description. *)
Example first_document :
  and_then
    (Status.handleEvent
       {| Status.seek_ok := true; Status.truncate_ok := true; Status.encode_ok := true |}
       (Status.fresh "")
       {| Status.Protocol := "tcp"; Status.InnerAddr := "192.168.1.10:34567";
          Status.OuterAddr := "203.0.113.4:51900" |})
    (fun m => Returns (Status.documents m))
  = Returns
      [Status.JObj
         {[ "tcp" := Status.JArr
                       [Status.JObj {[ "inner" := Status.JStr "192.168.1.10:34567";
                                       "outer" := Status.JStr "203.0.113.4:51900" ]}];
            "udp" := Status.JArr [] ]}].
Proof. vm_compute. reflexivity. Qed.

Example backoff_doubles : Keepalive.next_backoff (10 * Keepalive.second) = 20 * Keepalive.second.
Proof. reflexivity. Qed.

Example backoff_ceiling : Keepalive.next_backoff (40 * Keepalive.second) = 60 * Keepalive.second.
Proof. reflexivity. Qed.

Example minInterval_clamps : Keepalive.minInterval 0 = 5 * Keepalive.second.
Proof. reflexivity. Qed.

Example PutUint16_big_endian : Keepalive.PutUint16 4660 = [x12; x34].
Proof. reflexivity. Qed.

Example keepalive_request :
  String.length (Keepalive.head_request "www.qq.com") = 78%nat.
Proof. reflexivity. Qed.

Example tcp_probe_skips_unreachable_server :
  let c := Stun.SetBindIP
             (Stun.NewClient ["stun.l.google.com"; "stun1.l.google.com"] [] Sock.second)
             "192.168.1.10" in
  let world i := match i with
                 | O => Stun.DialFails
                 | _ => Orchestrator.answers "203.0.113.4" 51900 i
                 end in
  let r := Stun.GetTCPMapping Sock.Unix c 34567 world in
  Stun.servers_tried r = ["stun.l.google.com:3478"; "stun1.l.google.com:3478"]
  /\ Stun.err r = None
  /\ Stun.mapping r = Some {| Stun.InternalIP := "192.168.1.10"; Stun.InternalPort := 34567;
                              Stun.ExternalIP := "203.0.113.4"; Stun.ExternalPort := 51900 |}.
Proof. vm_compute. repeat split; reflexivity. Qed.

End Examples.

(** ** Socket options at the creation sites *)

Module SockFacts.
Import Sock Orchestrator.

Lemma reuse_control_enables (p : Platform) :
  reuse_enabled p (reuse_control p) = true.
Proof. destruct p; vm_compute; reflexivity. Qed.

Lemma no_option_no_reuse (p : Platform) : reuse_enabled p [] = false.
Proof. destruct p; vm_compute; reflexivity. Qed.

Lemma helper_dialers_enable_reuse (p : Platform) (laddr : Addr) (t : Z) :
  reuse_enabled p (options_set (DialControl (newBoundDialer p laddr t))) = true
  /\ reuse_enabled p (options_set (DialControl (newDialerWithReuse p laddr))) = true
  /\ reuse_enabled p (options_set (ListenControl (listenWithReuse p))) = true.
Proof. repeat split; apply reuse_control_enables. Qed.

Lemma tcp_loop_reuses (p : Platform) (c : Stun.Client) (srcPort : Z)
    (servers : list string) (world : nat -> Stun.Attempt) (i : nat)
    (log : list Stun.Contact) :
  Forall (fun k => probe_reuses p k = true) log ->
  Forall (fun k => probe_reuses p k = true)
    (Stun.contacted (Stun.tcp_loop p c srcPort servers world i log)).
Proof.
  revert i log. induction servers as [|s rest IH]; intros i log Hlog; cbn; [done|].
  assert (Hlog' : Forall (fun k => probe_reuses p k = true)
            (log ++ [Stun.DialTCP
                       (newBoundDialer p {| IP := Stun.bindIP c; Port := srcPort |}
                          (Stun.timeout c)) (s +:+ ":3478")])).
  { apply Forall_app. split; [done|]. apply Forall_singleton. cbn.
    apply reuse_control_enables. }
  destruct (world i) as [| |[cb|ev]]; try (by apply IH).
  destruct (Stun.callback_error ev); [by apply IH | done].
Qed.

(** C1. Of the five kinds of socket on a monitored port, the STUN TCP
    probe and the forwarder listener are created with address reuse
    enabled, on Unix and on Windows alike; the TCP keep-alive dialer, the
    STUN UDP probe socket and the UDP keep-alive packet socket are created
    with no socket option set. So every connection [GetTCPMapping] opens
    has reuse enabled, no socket [GetUDPMapping] opens has it, and the
    first thing [TCPKeepAlive] does is dial without it. *)
Theorem reuse_by_site (p : Platform) (laddr : Addr) :
  reuse_enabled p (site_options p laddr StunTCPProbe) = true
  /\ reuse_enabled p (site_options p laddr ForwarderListener) = true
  /\ reuse_enabled p (site_options p laddr KeepAliveDialer) = false
  /\ reuse_enabled p (site_options p laddr StunUDPProbe) = false
  /\ reuse_enabled p (site_options p laddr KeepAliveUDPSocket) = false
  /\ (forall c srcPort world,
        Forall (fun k => probe_reuses p k = true)
          (Stun.contacted (Stun.GetTCPMapping p c srcPort world)))
  /\ (forall c srcPort world,
        Forall (fun k => forall l s, k = Stun.DialUDP l s -> probe_reuses p k = false)
          (Stun.contacted (Stun.GetUDPMapping c srcPort world)))
  /\ (forall host interval w,
        exists d rest,
          (Keepalive.TCPKeepAlive laddr host interval [w]).1
          = Keepalive.ADial d (GoStr.JoinHostPort host "80") :: rest
          /\ LocalAddr d = Some laddr
          /\ reuse_enabled p (options_set (DialControl d)) = false).
Proof.
  unfold site_options; cbn [options_set DialControl ListenControl
    newBoundDialer listenWithReuse Keepalive.keepalive_dialer
    DialUDP_control ListenPacket_control].
  rewrite reuse_control_enables, no_option_no_reuse.
  repeat (split; [reflexivity|]).
  split; [intros; by apply tcp_loop_reuses|].
  split; [intros; apply Forall_forall; intros k _ l s ->; apply no_option_no_reuse|].
  intros host interval w. exists (Keepalive.keepalive_dialer laddr).
  unfold Keepalive.TCPKeepAlive, Keepalive.loop, Keepalive.turn, Keepalive.initial.
  cbn [Keepalive.connected negb andb].
  destruct (Keepalive.dial_ok w); cbn [negb].
  - destruct (Keepalive.write_ok w); cbn [negb];
      [destruct (Keepalive.cancelled w)|]; cbn; eexists;
      (split; [reflexivity | split; [reflexivity | apply no_option_no_reuse]]).
  - destruct (Keepalive.cancelled w); cbn; eexists;
      (split; [reflexivity | split; [reflexivity | apply no_option_no_reuse]]).
Qed.

End SockFacts.

(** ** The STUN probe *)

Module StunFacts.
Import Stun.

Section Loops.
Variables (p : Sock.Platform) (c : Client) (srcPort : Z) (world : nat -> Attempt).

(** When no attempt succeeds the TCP loop walks the whole list. *)
Lemma tcp_loop_all_fail (servers : list string) (i : nat) (log : list Contact) :
  (forall j, (j < length servers)%nat -> succeeds (world (i + j)) = None) ->
  tcp_loop p c srcPort servers world i log
  = {| mapping := None; err := Some AllTCPFailed;
       contacted := log ++ (tcp_dial p c srcPort <$> servers) |}.
Proof.
  revert i log. induction servers as [|s rest IH]; intros i log Hfail.
  - cbn. by rewrite app_nil_r.
  - assert (Hrest : forall j, (j < length rest)%nat -> succeeds (world (S i + j)) = None).
    { intros j Hj. replace (S i + j)%nat with (i + S j)%nat by lia.
      apply Hfail. cbn. lia. }
    specialize (Hfail 0%nat ltac:(cbn; lia)). rewrite Nat.add_0_r in Hfail.
    cbn [tcp_loop]. fold (local_addr c srcPort).
    destruct (world i) as [| |[cb|[|[x|]]]]; cbn in Hfail |- *; try discriminate;
      rewrite (IH _ _ Hrest), <- app_assoc; reflexivity.
Qed.

(** The TCP loop stops at the first attempt that succeeds. *)
Lemma tcp_loop_first_success (before : list string) (s : string)
    (after : list string) (x : XORMappedAddress) (i : nat) (log : list Contact) :
  (forall j, (j < length before)%nat -> succeeds (world (i + j)) = None) ->
  succeeds (world (i + length before)) = Some x ->
  tcp_loop p c srcPort (before ++ s :: after) world i log
  = {| mapping := Some (mk_mapping (local_addr c srcPort) x); err := None;
       contacted := log ++ (tcp_dial p c srcPort <$> before) ++ [tcp_dial p c srcPort s] |}.
Proof.
  revert i log. induction before as [|b rest IH]; intros i log Hfail Hok.
  - cbn in Hok. rewrite Nat.add_0_r in Hok. cbn [app tcp_loop]. fold (local_addr c srcPort).
    destruct (world i) as [| |[cb|[|[y|]]]]; cbn in Hok; try discriminate.
    injection Hok as ->. reflexivity.
  - assert (Hrest : forall j, (j < length rest)%nat -> succeeds (world (S i + j)) = None).
    { intros j Hj. replace (S i + j)%nat with (i + S j)%nat by lia.
      apply Hfail. cbn. lia. }
    assert (Hok' : succeeds (world (S i + length rest)) = Some x).
    { replace (S i + length rest)%nat with (i + length (b :: rest))%nat by (cbn; lia).
      exact Hok. }
    specialize (Hfail 0%nat ltac:(cbn; lia)). rewrite Nat.add_0_r in Hfail.
    cbn [app tcp_loop]. fold (local_addr c srcPort).
    destruct (world i) as [| |[cb|[|[y|]]]]; cbn in Hfail |- *; try discriminate;
      rewrite (IH _ _ Hrest Hok'), <- app_assoc; reflexivity.
Qed.

(** The UDP loop returns a mapping as soon as [Do] returns nil, whatever
    the event was. *)
Lemma udp_loop_returns_on_any_event (s : string) (rest : list string)
    (ev : Event) (i : nat) (log : list Contact) :
  world i = Transacts (DoReturns ev) ->
  udp_loop c srcPort (s :: rest) world i log
  = {| mapping := Some (mk_mapping (local_addr c srcPort) (xor_after ev)); err := None;
       contacted := log ++ [Resolve (s +:+ ":3478");
                            DialUDP (local_addr c srcPort) (s +:+ ":3478")] |}.
Proof. intros Hw. cbn [udp_loop]. rewrite Hw. reflexivity. Qed.

End Loops.

Lemma GetTCPMapping_empty (p : Sock.Platform) (c : Client) (srcPort : Z)
    (world : nat -> Attempt) :
  tcpServers c = [] ->
  GetTCPMapping p c srcPort world
  = {| mapping := None; err := Some AllTCPFailed; contacted := [] |}.
Proof. intros H. unfold GetTCPMapping. rewrite H. reflexivity. Qed.

Lemma GetUDPMapping_empty (c : Client) (srcPort : Z) (world : nat -> Attempt) :
  udpServers c = [] ->
  GetUDPMapping c srcPort world
  = {| mapping := None; err := Some AllUDPFailed; contacted := [] |}.
Proof. intros H. unfold GetUDPMapping. rewrite H. reflexivity. Qed.

(** C5. With two UDP servers, the first answering with an error event
    (a timed-out transaction) and the second one able to answer,
    [GetUDPMapping] returns a mapping with a nil external IP and port 0
    and a nil error, and the second server is never tried; the second
    attempt is the first one that succeeds. *)
Theorem udp_probe_stops_at_failed_transaction :
  let r := GetUDPMapping two_udp_servers 34567 first_times_out in
  succeeds (first_times_out 0) = None
  /\ succeeds (first_times_out 1)
     = Some {| XorIP := "203.0.113.4"; XorPort := 51900 |}
  /\ mapping r = Some {| InternalIP := "192.168.1.10"; InternalPort := 34567;
                         ExternalIP := "<nil>"; ExternalPort := 0 |}
  /\ err r = None
  /\ servers_tried r = ["stun1.example:3478"].
Proof. vm_compute. repeat split; reflexivity. Qed.

End StunFacts.

(** ** The status manager *)

Module StatusFacts.
Import GoStr Status.

Lemma writeFile_keeps (io : IO) (m : StatusManager) :
  mappings (writeFile io m).1 = mappings m
  /\ hookCmd (writeFile io m).1 = hookCmd m
  /\ spawned (writeFile io m).1 = spawned m.
Proof.
  unfold writeFile.
  destruct (seek_ok io), (truncate_ok io), (encode_ok io); cbn; auto.
Qed.

(** A step that changes the table leaves the new outer address in it. *)
Lemma handleEvent_sets (io : IO) (m m' : StatusManager) (ev : UpdateEvent) :
  handleEvent io m ev = Returns m' ->
  exists pm, mappings m' !! Protocol ev = Some pm
             /\ pm !! InnerAddr ev = Some (OuterAddr ev).
Proof.
  unfold handleEvent. case_bool_decide as Hold.
  - intros [= <-].
    destruct (mappings m !! Protocol ev) as [pm|]; cbn in Hold; [|discriminate].
    eauto.
  - destruct (mappings m !! Protocol ev) as [pm|]; [|discriminate].
    destruct (writeFile_keeps io
      {| hookCmd := hookCmd m;
         mappings := <[Protocol ev := <[InnerAddr ev := OuterAddr ev]> pm]> (mappings m);
         file := file m; spawned := spawned m |}) as (Hm & _ & _).
    cbn in Hm.
    case_bool_decide; intros [= <-]; cbn; rewrite Hm;
      exists (<[InnerAddr ev := OuterAddr ev]> pm);
      by rewrite !lookup_insert_eq.
Qed.

Lemma handleEvent_same (io : IO) (m : StatusManager) (ev : UpdateEvent) (pm : gmap string string) :
  mappings m !! Protocol ev = Some pm ->
  pm !! InnerAddr ev = Some (OuterAddr ev) ->
  handleEvent io m ev = Returns m.
Proof.
  intros Hp Hi. unfold handleEvent. rewrite Hp. cbn. rewrite Hi.
  by rewrite bool_decide_eq_true_2.
Qed.

(** C3. When the table already holds the event's outer address for its
    inner address and protocol, [handleEvent] returns the manager as it
    was: same table, same file, same hooks spawned. Handling an event a
    second time right after the first therefore changes nothing, whether
    the first call wrote the file, failed to, or panicked. *)
Theorem handleEvent_idempotent (io io' : IO) (m : StatusManager) (ev : UpdateEvent) :
  (forall pm : gmap string string,
      mappings m !! Protocol ev = Some pm ->
      pm !! InnerAddr ev = Some (OuterAddr ev) ->
      handleEvent io m ev = Returns m)
  /\ and_then (handleEvent io m ev) (fun m' => handleEvent io' m' ev)
     = handleEvent io m ev.
Proof.
  split; [apply handleEvent_same|].
  destruct (handleEvent io m ev) as [m'|] eqn:H; [|reflexivity].
  cbn. destruct (handleEvent_sets _ _ _ _ H) as (pm & Hp & Hi).
  by apply handleEvent_same with pm.
Qed.

(** The hypotheses of C3 hold for the manager that has just handled the
    event. *)
Lemma handleEvent_idempotent_witness :
  let io := {| seek_ok := true; truncate_ok := true; encode_ok := true |} in
  let ev := {| Protocol := "tcp"; InnerAddr := "192.168.1.10:34567";
               OuterAddr := "203.0.113.4:51900" |} in
  let m := {| hookCmd := ""; 
              mappings := {[ "tcp" := {[ "192.168.1.10:34567" := "203.0.113.4:51900" ]};
                             "udp" := ∅ ]};
              file := []; spawned := [] |} in
  handleEvent io m ev = Returns m.
Proof.
  intros io ev m.
  apply (proj1 (handleEvent_idempotent io io m ev)
           {[ "192.168.1.10:34567" := "203.0.113.4:51900" ]});
    vm_compute; reflexivity.
Defined.


Lemma fresh_seeded (hook : string) : seeded (fresh hook).
Proof. unfold seeded, fresh; cbn. rewrite dom_insert_L, dom_singleton_L. set_solver. Qed.

Lemma known_lookup (m : StatusManager) (proto : string) :
  seeded m -> known proto -> is_Some (mappings m !! proto).
Proof.
  intros Hs Hk. apply elem_of_dom. rewrite Hs. destruct Hk; subst; set_solver.
Qed.

Lemma unknown_lookup (m : StatusManager) (proto : string) :
  seeded m -> ~ known proto -> mappings m !! proto = None.
Proof.
  intros Hs Hk. apply not_elem_of_dom. rewrite Hs. unfold known in Hk. set_solver.
Qed.

Lemma dom_insert_present {A : Type} (k : string) (v : A) (m : gmap string A) :
  is_Some (m !! k) -> dom (<[k := v]> m) = dom m.
Proof.
  intros H. rewrite dom_insert_L. apply subseteq_union_1_L.
  by apply singleton_subseteq_l, elem_of_dom.
Qed.

Lemma handleEvent_seeded (io : IO) (m m' : StatusManager) (ev : UpdateEvent) :
  seeded m -> handleEvent io m ev = Returns m' -> seeded m'.
Proof.
  unfold handleEvent, seeded. intros Hs. case_bool_decide as Hold.
  - by intros [= <-].
  - destruct (mappings m !! Protocol ev) as [pm|] eqn:Hp; [|discriminate].
    destruct (writeFile_keeps io
      {| hookCmd := hookCmd m;
         mappings := <[Protocol ev := <[InnerAddr ev := OuterAddr ev]> pm]> (mappings m);
         file := file m; spawned := spawned m |}) as (Hm & _ & _).
    cbn in Hm.
    case_bool_decide; intros [= <-]; cbn; rewrite Hm, dom_insert_present; eauto.
Qed.

Lemma handleEvent_known (io : IO) (m : StatusManager) (ev : UpdateEvent) :
  seeded m -> known (Protocol ev) -> exists m', handleEvent io m ev = Returns m'.
Proof.
  intros Hs Hk. destruct (known_lookup m _ Hs Hk) as [pm Hp].
  unfold handleEvent. rewrite Hp. case_bool_decide; [eauto|].
  case_bool_decide; eauto.
Qed.

Lemma handleEvent_unknown (io : IO) (m : StatusManager) (ev : UpdateEvent) :
  seeded m -> ~ known (Protocol ev) -> handleEvent io m ev = Panics.
Proof.
  intros Hs Hk. unfold handleEvent. rewrite (unknown_lookup m _ Hs Hk). cbn.
  by rewrite bool_decide_eq_false_2.
Qed.

Lemma Run_seeded (evs : list (UpdateEvent * IO)) (m m' : StatusManager) :
  seeded m -> Run m evs = Returns m' -> seeded m'.
Proof.
  revert m. induction evs as [|[ev io] rest IH]; intros m Hs; cbn.
  - by intros [= <-].
  - destruct (handleEvent io m ev) as [m1|] eqn:H1; cbn; [|discriminate].
    apply IH. eapply handleEvent_seeded; eauto.
Qed.

(** C9. In every state the manager reaches from [NewManager] the table
    has exactly the keys ["tcp"] and ["udp"]; an event with any other
    protocol finds no inner map and [handleEvent] panics on it, and an
    event with one of the two protocols is handled without a panic. *)
Theorem handleEvent_panics_iff_unknown_protocol (hook : string)
    (evs : list (UpdateEvent * IO)) (m : StatusManager) (io : IO) (ev : UpdateEvent) :
  Run (fresh hook) evs = Returns m ->
  NewManager true hook = Some (fresh hook)
  /\ dom (mappings (fresh hook)) = ({[ "tcp"; "udp" ]} : gset string)
  /\ dom (mappings m) = ({[ "tcp"; "udp" ]} : gset string)
  /\ (~ known (Protocol ev) ->
      mappings m !! Protocol ev = None /\ handleEvent io m ev = Panics)
  /\ (known (Protocol ev) -> exists m', handleEvent io m ev = Returns m').
Proof.
  intros Hrun.
  assert (Hs : seeded m) by (eapply Run_seeded; [apply fresh_seeded | exact Hrun]).
  split; [reflexivity|]. split; [apply fresh_seeded|]. split; [exact Hs|].
  split.
  - intros Hk. split; [by apply unknown_lookup | by apply handleEvent_unknown].
  - intros Hk. by apply handleEvent_known.
Qed.

Lemma handleEvent_panics_iff_unknown_protocol_witness :
  let io := {| seek_ok := true; truncate_ok := true; encode_ok := true |} in
  let ev1 := {| Protocol := "tcp"; InnerAddr := "192.168.1.10:34567";
                OuterAddr := "203.0.113.4:51900" |} in
  let ev2 := {| Protocol := "sctp"; InnerAddr := "192.168.1.10:34567";
                OuterAddr := "203.0.113.4:51900" |} in
  exists m, Run (fresh "") [(ev1, io)] = Returns m
            /\ handleEvent io m ev2 = Panics.
Proof.
  intros io ev1 ev2. eexists. split; [vm_compute; reflexivity|].
  refine (proj2 (proj1 (proj2 (proj2 (proj2
    (handleEvent_panics_iff_unknown_protocol "" [(ev1, io)] _ io ev2 _)))) _)).
  - vm_compute; reflexivity.
  - unfold known; cbn. intros [H|H]; discriminate H.
Defined.

(** *** The document [writeFile] encodes *)

Lemma record_shape (inner outer : string) :
  record_ok {[ "inner" := inner; "outer" := outer ]}.
Proof.
  unfold record_ok, marshal_record, is_record.
  rewrite dom_fmap_L, !lookup_fmap.
  rewrite lookup_insert_eq, lookup_insert_ne, lookup_singleton_eq by done. cbn.
  rewrite !andb_true_r. apply bool_decide_eq_true_2.
  rewrite dom_insert_L, dom_singleton_L. set_solver.
Qed.

Lemma tmp_add_ok (proto : string) (tmp : gmap string (slice (gmap string string)))
    (kv : string * string) :
  known proto -> tmp_ok tmp -> tmp_ok (tmp_add proto tmp kv).
Proof.
  intros Hk [Hdom Hval]. unfold tmp_add. split.
  - rewrite dom_insert_L, Hdom. destruct Hk; subst; set_solver.
  - intros k s. destruct (decide (proto = k)) as [->|Hne].
    + rewrite lookup_insert_eq. intros [= <-].
      destruct (tmp !! k) as [s0|] eqn:Hk0; cbn.
      * destruct (Hval _ _ Hk0) as (l & -> & Hl). cbn. eexists; split; [reflexivity|].
        apply Forall_app; split; [exact Hl|]. apply Forall_singleton, record_shape.
      * eexists; split; [reflexivity|]. apply Forall_singleton, record_shape.
    + rewrite lookup_insert_ne by done. apply Hval.
Qed.

Lemma tmp_add_all_ok (tmp : gmap string (slice (gmap string string)))
    (entry : string * gmap string string) :
  known entry.1 -> tmp_ok tmp -> tmp_ok (tmp_add_all tmp entry).
Proof.
  intros Hk. unfold tmp_add_all. generalize (map_to_list entry.2) as kvs.
  intros kvs. revert tmp. induction kvs as [|kv kvs IH]; intros tmp Hok; cbn; [done|].
  apply IH. by apply tmp_add_ok.
Qed.

Lemma build_tmp_ok (table : gmap string (gmap string string)) :
  dom table = ({[ "tcp"; "udp" ]} : gset string) -> tmp_ok (build_tmp table).
Proof.
  intros Hdom. unfold build_tmp.
  assert (Hall : Forall (fun e : string * gmap string string => known e.1) (map_to_list table)).
  { apply Forall_forall. intros [k v] Hin. apply elem_of_map_to_list in Hin.
    assert (k ∈ dom table) by (apply elem_of_dom; eauto).
    rewrite Hdom in *. unfold known; cbn. set_solver. }
  assert (H0 : tmp_ok {[ "tcp" := Some []; "udp" := Some [] ]}).
  { split.
    - rewrite dom_insert_L, dom_singleton_L. set_solver.
    - intros k s Hk.
      apply lookup_insert_Some in Hk as [[_ <-]|[_ Hk]]; [eauto|].
      apply lookup_singleton_Some in Hk as [_ <-]. eauto. }
  revert H0. generalize ({[ "tcp" := Some []; "udp" := Some [] ]}
    : gmap string (slice (gmap string string))).
  induction Hall as [|e es He _ IH]; intros tmp Hok; cbn; [done|].
  apply IH. by apply tmp_add_all_ok.
Qed.

Lemma marshal_ok (tmp : gmap string (slice (gmap string string))) :
  tmp_ok tmp -> status_document (marshal tmp) = true.
Proof.
  intros [Hdom Hval]. unfold marshal, status_document.
  rewrite dom_fmap_L, !lookup_fmap.
  assert (Harr : forall k, k ∈ dom tmp -> is_record_array (marshal_slice <$> tmp !! k) = true).
  { intros k Hk. apply elem_of_dom in Hk as [s Hs]. rewrite Hs.
    destruct (Hval _ _ Hs) as (l & -> & Hl). cbn.
    apply forallb_forall. intros j Hj. apply list_elem_of_In in Hj.
    apply list_elem_of_fmap in Hj as (r & -> & Hr).
    rewrite Forall_forall in Hl. by apply Hl. }
  rewrite !Harr by (rewrite Hdom; set_solver).
  rewrite !andb_true_r. by apply bool_decide_eq_true_2.
Qed.

Lemma writeFile_documents (io : IO) (m : StatusManager) :
  seeded m ->
  Forall (fun d => status_document d = true) (documents m) ->
  Forall (fun d => status_document d = true) (documents (writeFile io m).1).
Proof.
  intros Hs Hd. unfold writeFile, documents in *.
  destruct (seek_ok io), (truncate_ok io), (encode_ok io); cbn;
    rewrite ?omap_app; cbn; rewrite ?app_nil_r; try exact Hd.
  apply Forall_app; split; [exact Hd|]. apply Forall_singleton.
  apply marshal_ok, build_tmp_ok, Hs.
Qed.

Lemma handleEvent_documents (io : IO) (m m' : StatusManager) (ev : UpdateEvent) :
  seeded m ->
  Forall (fun d => status_document d = true) (documents m) ->
  handleEvent io m ev = Returns m' ->
  Forall (fun d => status_document d = true) (documents m').
Proof.
  intros Hs Hd H.
  assert (Hs' : seeded m') by (eapply handleEvent_seeded; eauto).
  revert H. unfold handleEvent. case_bool_decide as Hold.
  - by intros [= <-].
  - destruct (mappings m !! Protocol ev) as [pm|] eqn:Hp; [|discriminate].
    set (m1 := {| hookCmd := hookCmd m;
         mappings := <[Protocol ev := <[InnerAddr ev := OuterAddr ev]> pm]> (mappings m);
         file := file m; spawned := spawned m |}).
    assert (Hs1 : seeded m1).
    { unfold seeded; cbn. rewrite dom_insert_present; eauto. }
    pose proof (writeFile_documents io m1 Hs1 Hd) as Hw.
    case_bool_decide; intros [= <-]; exact Hw.
Qed.

(** C7. As long as every event handled carries the protocol ["tcp"] or
    ["udp"], the manager does not panic, and every document it has handed
    to the JSON encoder is an object with exactly the keys ["tcp"] and
    ["udp"], each holding an array of objects with exactly the string
    fields ["inner"] and ["outer"]. *)
Theorem status_file_documents (hook : string) (evs : list (UpdateEvent * IO)) :
  Forall (fun e : UpdateEvent * IO => known (Protocol e.1)) evs ->
  exists m, Run (fresh hook) evs = Returns m
            /\ Forall (fun d => status_document d = true) (documents m).
Proof.
  intros Hall.
  assert (Hgen : forall m0, seeded m0 ->
            Forall (fun d => status_document d = true) (documents m0) ->
            exists m, Run m0 evs = Returns m
                      /\ Forall (fun d => status_document d = true) (documents m)).
  { induction Hall as [|[ev io] rest Hk _ IH]; intros m0 Hs Hd; cbn.
    - eauto.
    - destruct (handleEvent_known io m0 ev Hs Hk) as [m1 H1]. rewrite H1. cbn.
      apply IH.
      + eapply handleEvent_seeded; eauto.
      + eapply handleEvent_documents; eauto. }
  apply Hgen; [apply fresh_seeded | constructor].
Qed.

Lemma status_file_documents_witness :
  let io := {| seek_ok := true; truncate_ok := true; encode_ok := true |} in
  let ev1 := {| Protocol := "tcp"; InnerAddr := "192.168.1.10:34567";
                OuterAddr := "203.0.113.4:51900" |} in
  let ev2 := {| Protocol := "udp"; InnerAddr := "192.168.1.10:34568";
                OuterAddr := "203.0.113.4:51901" |} in
  exists m, Run (fresh "echo {inner}") [(ev1, io); (ev2, io)] = Returns m
            /\ Forall (fun d => status_document d = true) (documents m).
Proof.
  intros io ev1 ev2.
  apply (status_file_documents "echo {inner}" [(ev1, io); (ev2, io)]).
  constructor; [left; reflexivity|].
  constructor; [right; reflexivity|]. constructor.
Defined.

End StatusFacts.

(** ** The keep-alive engine *)

Module KeepaliveFacts.
Import GoStr Keepalive.

Lemma float64_exact (x : Z) : 0 <= x < 2 ^ 53 -> float64_of_int64 x = x.
Proof.
  intros Hx. unfold float64_of_int64.
  destruct (Z.ltb_spec (Z.log2 (Z.abs x)) 53) as [_|Hge]; [reflexivity|].
  exfalso. rewrite Z.abs_eq in Hge by lia.
  destruct (Z.eq_dec x 0) as [->|Hne]; [cbn in Hge; lia|].
  assert (Z.log2 x < 53) by (apply Z.log2_lt_pow2; lia). lia.
Qed.

Lemma float64_large (x : Z) : 2 ^ 53 <= x -> 2 ^ 53 <= float64_of_int64 x.
Proof.
  intros Hx. unfold float64_of_int64. rewrite Z.abs_eq by lia.
  destruct (Z.ltb_spec (Z.log2 x) 53) as [_|Hge]; [lia|].
  set (e := Z.log2 x) in *. set (sh := e - 52).
  assert (Hsh : 0 < sh) by (unfold sh; lia).
  pose proof (Z.log2_spec x ltac:(lia)) as [Hlo _]. fold e in Hlo.
  assert (He : 2 ^ e = 2 ^ 52 * 2 ^ sh).
  { rewrite <- Z.pow_add_r by lia. f_equal. unfold sh. lia. }
  assert (Hq : 2 ^ 52 <= Z.shiftr x sh).
  { rewrite Z.shiftr_div_pow2 by lia. apply Z.div_le_lower_bound; [lia|]. lia. }
  rewrite Z.sgn_pos by lia. rewrite Z.mul_1_l, Z.shiftl_mul_pow2 by lia.
  assert (Hp : 2 <= 2 ^ sh).
  { change 2 with (2 ^ 1) at 1. apply Z.pow_le_mono_r; lia. }
  match goal with |- _ <= ?q' * _ => assert (Hq' : 2 ^ 52 <= q') end.
  { destruct (_ || _); lia. }
  change (2 ^ 53) with (2 ^ 52 * 2). apply Z.mul_le_mono_nonneg; lia.
Qed.

(** Below 2^62 nanoseconds doubling does not overflow and the detour
    through [float64] is exact where it matters. *)
Lemma next_backoff_in_range (b : Z) :
  0 <= b < 2 ^ 62 -> next_backoff b = Z.min (2 * b) (60 * second).
Proof.
  intros Hb. unfold next_backoff.
  assert (Hw : wrap64 (b * 2) = 2 * b).
  { unfold wrap64. rewrite Z.mod_small by lia. lia. }
  rewrite Hw.
  change (float64_of_int64 (wrap64 (60 * second))) with 60000000000.
  change (60 * second) with 60000000000.
  destruct (Z.lt_ge_cases (2 * b) (2 ^ 53)) as [Hs|Hl].
  - rewrite float64_exact by lia.
    unfold int64_of_float64, minInt64, maxInt64.
    destruct (Z.leb_spec (- 2 ^ 63) (Z.min (2 * b) 60000000000)); [|lia].
    destruct (Z.leb_spec (Z.min (2 * b) 60000000000) (2 ^ 63 - 1)); [|lia].
    reflexivity.
  - pose proof (float64_large _ Hl) as Hf.
    rewrite !Z.min_r by lia. reflexivity.
Qed.

Lemma turn_dial_failed (laddr : Sock.Addr) (host : string) (interval : Z)
    (st : State) (w : World) :
  connected st = false -> dial_ok w = false ->
  turn laddr host interval st w
  = ([ADial (keepalive_dialer laddr) (JoinHostPort host "80"); AWait (backoff st)],
     if cancelled w then None
     else Some {| connected := false; backoff := next_backoff (backoff st) |}).
Proof. intros Hc Hd. unfold turn. rewrite Hc, Hd. reflexivity. Qed.

Lemma turn_dial_ok (laddr : Sock.Addr) (host : string) (interval : Z)
    (st st' : State) (w : World) :
  connected st = false -> dial_ok w = true ->
  (turn laddr host interval st w).2 = Some st' -> backoff st' = interval.
Proof.
  intros Hc Hd. unfold turn. rewrite Hc, Hd. cbn.
  destruct (write_ok w); cbn; [destruct (cancelled w)|]; intros [= <-]; reflexivity.
Qed.

(** The backoff stays positive and at most the larger of the interval
    and 60 seconds. *)
Lemma turn_backoff_range (laddr : Sock.Addr) (host : string) (interval : Z)
    (st st' : State) (w : World) :
  0 < interval < 2 ^ 62 ->
  0 < backoff st <= Z.max interval (60 * second) ->
  (turn laddr host interval st w).2 = Some st' ->
  0 < backoff st' <= Z.max interval (60 * second).
Proof.
  intros Hi Hb. unfold turn.
  assert (H60 : 60 * second = 60000000000) by reflexivity.
  assert (Hn : next_backoff (backoff st) = Z.min (2 * backoff st) (60 * second)).
  { apply next_backoff_in_range. change (2 ^ 62) with 4611686018427387904 in *. lia. }
  destruct (connected st), (dial_ok w), (write_ok w), (cancelled w); cbn;
    intros [= <-]; cbn; lia.
Qed.

Lemma loop_backoff_range (laddr : Sock.Addr) (host : string) (interval : Z)
    (ws : list World) (st st' : State) :
  0 < interval < 2 ^ 62 ->
  0 < backoff st <= Z.max interval (60 * second) ->
  (loop laddr host interval st ws).2 = Some st' ->
  0 < backoff st' <= Z.max interval (60 * second).
Proof.
  intros Hi. revert st. induction ws as [|w ws IH]; intros st Hb; cbn.
  - by intros [= <-].
  - destruct (turn laddr host interval st w) as [acts [st1|]] eqn:Ht; cbn; [|discriminate].
    apply IH. eapply turn_backoff_range; eauto. by rewrite Ht.
Qed.

Lemma minInterval_pos (d : Z) : 0 < minInterval d.
Proof.
  unfold minInterval. destruct (Z.leb_spec d 0); [reflexivity | lia].
Qed.

(** C4 (amended). [backoff] starts at the clamped interval. Provided the
    clamped interval is below 2^62 ns, in every state the loop reaches a
    failed dial is followed by a wait of the current backoff and leaves
    [min (2 * backoff) 60s] as the next backoff, and a successful dial
    sets the backoff to the clamped interval. *)
Theorem tcp_keepalive_backoff (laddr : Sock.Addr) (host : string) (interval : Z)
    (ws : list World) (st : State) (w : World) :
  minInterval interval < 2 ^ 62 ->
  (TCPKeepAlive laddr host interval ws).2 = Some st ->
  backoff (initial interval) = minInterval interval
  /\ (connected st = false -> dial_ok w = false ->
      turn laddr host (minInterval interval) st w
      = ([ADial (keepalive_dialer laddr) (JoinHostPort host "80"); AWait (backoff st)],
         if cancelled w then None
         else Some {| connected := false;
                      backoff := Z.min (2 * backoff st) (60 * second) |}))
  /\ (connected st = false -> dial_ok w = true ->
      forall st', (turn laddr host (minInterval interval) st w).2 = Some st' ->
                  backoff st' = minInterval interval).
Proof.
  intros Hi Hrun. pose proof (minInterval_pos interval) as Hpos.
  assert (Hb : 0 < backoff st <= Z.max (minInterval interval) (60 * second)).
  { eapply loop_backoff_range; [| |exact Hrun]; cbn; lia. }
  split; [reflexivity|]. split.
  - intros Hc Hd. rewrite turn_dial_failed by assumption.
    rewrite next_backoff_in_range; [reflexivity|].
    change (60 * second) with 60000000000 in Hb.
    change (2 ^ 62) with 4611686018427387904 in *. lia.
  - intros Hc Hd st'. by apply turn_dial_ok.
Qed.

Lemma tcp_keepalive_backoff_witness :
  let laddr := {| Sock.IP := "192.168.1.10"; Sock.Port := 34567 |} in
  let fails := {| dial_ok := false; write_ok := true; reads := 0;
                  read_timeout := true; cancelled := false |} in
  turn laddr "www.qq.com" (minInterval (10 * second))
    {| connected := false; backoff := 20 * second |} fails
  = ([ADial (keepalive_dialer laddr) (JoinHostPort "www.qq.com" "80");
      AWait (20 * second)],
     Some {| connected := false; backoff := 40 * second |}).
Proof.
  intros laddr fails.
  refine (proj1 (proj2 (tcp_keepalive_backoff laddr "www.qq.com" (10 * second)
            [fails] {| connected := false; backoff := 20 * second |} fails _ _)) _ _).
  - vm_compute; reflexivity.
  - vm_compute; reflexivity.
  - reflexivity.
  - reflexivity.
Defined.

(** C4 as stated fails: with the interval that ["interval": 4611686019]
    configures, the first failed dial leaves a negative backoff, not the
    smaller of twice the backoff and 60 seconds. *)
Lemma tcp_keepalive_backoff_overflows :
  let laddr := {| Sock.IP := "192.168.1.10"; Sock.Port := 34567 |} in
  let fails := {| dial_ok := false; write_ok := true; reads := 0;
                  read_timeout := true; cancelled := false |} in
  let interval := wrap64 (4611686019 * second) in
  exists st,
    (TCPKeepAlive laddr "www.qq.com" interval [fails]).2 = Some st
    /\ backoff st = -9223372035709551616
    /\ backoff st <> Z.min (2 * backoff (initial interval)) (60 * second).
Proof.
  eexists. split; [vm_compute; reflexivity|]. split; [reflexivity|].
  vm_compute. discriminate.
Qed.

(** *** UDP *)

Lemma packet_is_dns_query (txid : list byte) :
  packet txid = dns_encode (keepalive_query txid).
Proof.
  unfold packet, header, dns_encode, keepalive_query; cbn [q_id q_flags q_labels q_type q_class].
  rewrite <- !app_assoc. f_equal.
Qed.

Lemma txid_length (r : RandSource) : length (txid_of r) = 2%nat.
Proof. destruct r; reflexivity. Qed.

(** C8 (amended). A turn on which the keep-alive host resolves sends
    exactly one datagram, to the resolved address: a two-byte transaction
    ID followed by flags 0x0100, one question, no answer, authority or
    additional records, the name keepalive.natter as length-prefixed
    labels ending in the zero label, type A and class IN, and nothing
    after that. A turn on which it does not resolve sends none. *)
Theorem udp_keepalive_datagram (port : Z) (w : UWorld) :
  (forall raddr, resolve port w = Some raddr ->
     (uturn port w).1
     = [UWriteTo (dns_encode {| q_id := txid_of (rand_source w); q_flags := 256;
                                q_labels := ["keepalive"; "natter"];
                                q_type := 1; q_class := 1 |}) raddr;
        UWaitTick]
     /\ length (txid_of (rand_source w)) = 2%nat
     /\ length (datagrams (uturn port w).1) = 1%nat
     /\ Forall (fun d => length d = 34%nat) (datagrams (uturn port w).1))
  /\ (resolve port w = None -> datagrams (uturn port w).1 = []).
Proof.
  split.
  - intros raddr Hr. unfold uturn. rewrite Hr. cbn [fst datagrams omap].
    rewrite packet_is_dns_query. split; [reflexivity|].
    split; [apply txid_length|]. split; [reflexivity|].
    apply Forall_singleton. destruct (rand_source w); reflexivity.
  - intros Hr. unfold uturn. rewrite Hr. reflexivity.
Qed.

Lemma udp_keepalive_datagram_witness :
  let w := {| parsed_ip := Some "119.29.29.29"; dns_answer := None;
              rand_source := CryptoRand x12 x34; ucancelled := false |} in
  datagrams (uturn 34567 w).1
  = [[x12; x34; x01; x00; x00; x01; x00; x00; x00; x00; x00; x00;
      x09; x6b; x65; x65; x70; x61; x6c; x69; x76; x65;
      x06; x6e; x61; x74; x74; x65; x72; x00; x00; x01; x00; x01]].
Proof.
  intros w.
  pose proof (proj1 (proj1 (udp_keepalive_datagram 34567 w)
                       {| Sock.IP := "119.29.29.29"; Sock.Port := 34567 |} eq_refl)) as H.
  rewrite H. reflexivity.
Defined.

(** C8 as stated fails: on a turn where the host does not resolve no
    datagram is sent. *)
Lemma udp_keepalive_silent_turn :
  let w := {| parsed_ip := None; dns_answer := None;
              rand_source := CryptoRand x12 x34; ucancelled := false |} in
  (uturn 34567 w).1 = [UWaitTick] /\ length (datagrams (uturn 34567 w).1) <> 1%nat.
Proof. cbn. split; [reflexivity | discriminate]. Qed.

End KeepaliveFacts.

(** ** Strings and numerals *)

Module GoStrFacts.
Import GoStr.

Lemma and_then_Returns {A B : Type} (o : outcome A) (k : A -> outcome B) (b : B) :
  and_then o k = Returns b -> exists a, o = Returns a /\ k a = Returns b.
Proof. destruct o as [a|]; cbn; [eauto | discriminate]. Qed.

Lemma HasPrefix_empty (s : string) : HasPrefix s "" = true.
Proof. destruct s; reflexivity. Qed.

Lemma HasPrefix_colon (c : ascii) (s : string) :
  HasPrefix (String c s) ":" = Ascii.eqb ":" c.
Proof.
  cbn [HasPrefix]. destruct (Ascii.eqb ":" c); [apply HasPrefix_empty | reflexivity].
Qed.

Lemma append_nil (s : string) : "" +:+ s = s.
Proof. reflexivity. Qed.

Lemma append_cons (c : ascii) (h s : string) : String c h +:+ s = String c (h +:+ s).
Proof. reflexivity. Qed.

Lemma len_String (c : ascii) (s : string) : len (String c s) = len s + 1.
Proof. unfold len. cbn [String.length]. lia. Qed.

Lemma len_nonneg (s : string) : 0 <= len s.
Proof. unfold len. lia. Qed.

Lemma last_index_no_colon (s : string) (i last : Z) :
  contains_byte ":" s = false -> last_index_from ":" s i last = last.
Proof.
  revert i last. induction s as [|c s IH]; intros i last H; [reflexivity|].
  cbn [contains_byte] in H. apply orb_false_iff in H as [Hc Hs].
  cbn [last_index_from]. rewrite HasPrefix_colon, Hc. by apply IH.
Qed.

Lemma last_index_split (h sfx : string) (i last : Z) :
  contains_byte ":" sfx = false ->
  last_index_from ":" (h +:+ String ":" sfx) i last = i + len h.
Proof.
  intros Hs. revert i last. induction h as [|c h IH]; intros i last.
  - rewrite append_nil. cbn [last_index_from]. rewrite HasPrefix_colon.
    rewrite Ascii.eqb_refl, last_index_no_colon by done. unfold len; cbn; lia.
  - rewrite append_cons. cbn [last_index_from]. rewrite IH, len_String. lia.
Qed.

Lemma last_index_bounds (s : string) (i last : Z) :
  last_index_from ":" s i last = last
  \/ i <= last_index_from ":" s i last < i + len s.
Proof.
  revert i last. induction s as [|c s IH]; intros i last; [by left|].
  cbn [last_index_from]. rewrite HasPrefix_colon, len_String.
  pose proof (len_nonneg s).
  destruct (Ascii.eqb ":" c).
  - right. destruct (IH (i + 1) i) as [->|?]; lia.
  - destruct (IH (i + 1) last) as [->|?]; [by left | right; lia].
Qed.

Lemma LastIndex_range (s : string) : -1 <= LastIndex s ":" < len s.
Proof.
  unfold LastIndex. pose proof (len_nonneg s).
  destruct (last_index_bounds s 0 (-1)) as [->|?]; lia.
Qed.

Lemma take_bytes_app (h r : string) : take_bytes (String.length h) (h +:+ r) = h.
Proof.
  induction h as [|c h IH]; [by destruct r|].
  rewrite append_cons. cbn [String.length take_bytes]. by rewrite IH.
Qed.

Lemma drop_bytes_app (h r : string) : drop_bytes (String.length h) (h +:+ r) = r.
Proof.
  induction h as [|c h IH]; [reflexivity|].
  rewrite append_cons. cbn [String.length drop_bytes]. exact IH.
Qed.

Lemma len_app (h r : string) : len (h +:+ r) = len h + len r.
Proof.
  unfold len. induction h as [|c h IH]; [rewrite append_nil; cbn; lia|].
  rewrite append_cons. cbn [String.length]. lia.
Qed.

Lemma slice_to_app (h r : string) : slice_to (h +:+ r) (len h) = Returns h.
Proof.
  unfold slice_to. rewrite len_app.
  pose proof (len_nonneg h). pose proof (len_nonneg r).
  destruct (Z.leb_spec 0 (len h)); [|lia].
  destruct (Z.leb_spec (len h) (len h + len r)); [|lia]. cbn.
  unfold len. by rewrite Nat2Z.id, take_bytes_app.
Qed.

Lemma slice_from_app (h r : string) : slice_from (h +:+ r) (len h) = Returns r.
Proof.
  unfold slice_from. rewrite len_app.
  pose proof (len_nonneg h). pose proof (len_nonneg r).
  destruct (Z.leb_spec 0 (len h)); [|lia].
  destruct (Z.leb_spec (len h) (len h + len r)); [|lia]. cbn.
  unfold len. by rewrite Nat2Z.id, drop_bytes_app.
Qed.

Lemma append_assoc (a b c : string) : (a +:+ b) +:+ c = a +:+ (b +:+ c).
Proof.
  induction a as [|x a IH]; [reflexivity|]. rewrite !append_cons. by rewrite IH.
Qed.

Lemma slice_from_after_colon (h sfx : string) :
  slice_from (h +:+ String ":" sfx) (len h + 1) = Returns sfx.
Proof.
  change (String ":" sfx) with (":" +:+ sfx). rewrite <- append_assoc.
  replace (len h + 1) with (len (h +:+ ":")) by (rewrite len_app; reflexivity).
  apply slice_from_app.
Qed.

(** A string with a colon splits at its last colon. *)
Lemma last_colon_split (s : string) :
  contains_byte ":" s = true ->
  exists h sfx, s = h +:+ String ":" sfx /\ contains_byte ":" sfx = false.
Proof.
  induction s as [|c s IH]; [discriminate|]. cbn [contains_byte]. intros H.
  destruct (contains_byte ":" s) eqn:Hs.
  - destruct (IH eq_refl) as (h & sfx & -> & Hsfx). by exists (String c h), sfx.
  - rewrite orb_false_r in H. apply Ascii.eqb_eq in H as <-. by exists "", s.
Qed.

(** *** [Atoi] against the value of a numeral *)

Lemma digit_val_range (c : ascii) : is_digit c = true -> 0 <= digit_val c <= 9.
Proof.
  unfold is_digit, digit_val. intros H. apply andb_true_iff in H as [H1 H2].
  apply Z.leb_le in H1, H2. lia.
Qed.

Lemma decimal_value_mono (s : string) (acc : Z) :
  all_digits s = true -> 0 <= acc -> acc <= decimal_value s acc.
Proof.
  revert acc. induction s as [|c s IH]; intros acc H Hacc; cbn; [lia|].
  cbn in H. apply andb_true_iff in H as [Hc Hs].
  pose proof (digit_val_range c Hc).
  etransitivity; [|apply IH; [done | lia]]. lia.
Qed.

Lemma parse_uint_loop_digits (s : string) (n : Z) :
  all_digits s = true -> 0 <= n <= maxUint64 ->
  parse_uint_loop s n
  = if decimal_value s n <=? maxUint64 then (decimal_value s n, None)
    else (maxUint64, Some ErrRange).
Proof.
  revert n. induction s as [|c s IH]; intros n H Hn; cbn [parse_uint_loop decimal_value].
  - destruct (Z.leb_spec n maxUint64); [reflexivity | lia].
  - cbn in H. apply andb_true_iff in H as [Hc Hs]. rewrite Hc.
    pose proof (digit_val_range c Hc) as Hd.
    pose proof (decimal_value_mono s (n * 10 + digit_val c) Hs ltac:(lia)) as Hm.
    change cutoff10 with 1844674407370955162.
    change maxUint64 with (18446744073709551616 - 1) in *.
    change (2 ^ 64) with 18446744073709551616 in *.
    destruct (Z.leb_spec 1844674407370955162 n).
    + destruct (Z.leb_spec (decimal_value s (n * 10 + digit_val c)) (18446744073709551616 - 1));
        [lia | reflexivity].
    + destruct (Z.le_gt_cases (n * 10 + digit_val c) (18446744073709551616 - 1)) as [Hfit|Hover].
      * rewrite Z.mod_small by lia.
        destruct (Z.ltb_spec (n * 10 + digit_val c) (n * 10)); [lia|].
        destruct (Z.ltb_spec (18446744073709551616 - 1) (n * 10 + digit_val c)); [lia|].
        cbn [orb]. apply IH; [done | lia].
      * assert (Hmod : (n * 10 + digit_val c) mod 18446744073709551616
                       = n * 10 + digit_val c - 18446744073709551616).
        { symmetry. apply Z.mod_unique with 1; lia. }
        rewrite Hmod.
        destruct (Z.ltb_spec (n * 10 + digit_val c - 18446744073709551616) (n * 10)); [|lia].
        cbn [orb].
        destruct (Z.leb_spec (decimal_value s (n * 10 + digit_val c)) (18446744073709551616 - 1));
          [lia | reflexivity].
Qed.

Lemma leading_digits_all_digits (s : string) : all_digits (leading_digits s) = true.
Proof.
  induction s as [|c s IH]; [reflexivity|]. cbn [leading_digits].
  destruct (is_digit c) eqn:Hc; [|reflexivity]. cbn [all_digits]. by rewrite Hc, IH.
Qed.

(** On a string that has a byte other than a digit, the digit loop ends
    in a syntax error at that byte, unless the digits before it have
    already left the range of [uint64]. *)
Lemma parse_uint_loop_not_digits (s : string) (n : Z) :
  all_digits s = false -> 0 <= n <= maxUint64 ->
  parse_uint_loop s n
  = if decimal_value (leading_digits s) n <=? maxUint64 then (0, Some ErrSyntax)
    else (maxUint64, Some ErrRange).
Proof.
  revert n. induction s as [|c s IH]; intros n H Hn; [discriminate|].
  cbn [parse_uint_loop leading_digits]. cbn [all_digits] in H.
  destruct (is_digit c) eqn:Hc.
  - cbn [andb] in H. cbn [decimal_value].
    pose proof (digit_val_range c Hc) as Hd.
    pose proof (decimal_value_mono (leading_digits s) (n * 10 + digit_val c)
                  (leading_digits_all_digits s) ltac:(lia)) as Hm.
    change cutoff10 with 1844674407370955162.
    change maxUint64 with (18446744073709551616 - 1) in *.
    change (2 ^ 64) with 18446744073709551616 in *.
    destruct (Z.leb_spec 1844674407370955162 n).
    + destruct (Z.leb_spec (decimal_value (leading_digits s) (n * 10 + digit_val c))
                  (18446744073709551616 - 1)); [lia | reflexivity].
    + destruct (Z.le_gt_cases (n * 10 + digit_val c) (18446744073709551616 - 1))
        as [Hfit|Hover].
      * rewrite Z.mod_small by lia.
        destruct (Z.ltb_spec (n * 10 + digit_val c) (n * 10)); [lia|].
        destruct (Z.ltb_spec (18446744073709551616 - 1) (n * 10 + digit_val c)); [lia|].
        cbn [orb]. apply IH; [done | lia].
      * assert (Hmod : (n * 10 + digit_val c) mod 18446744073709551616
                       = n * 10 + digit_val c - 18446744073709551616).
        { symmetry. apply Z.mod_unique with 1; lia. }
        rewrite Hmod.
        destruct (Z.ltb_spec (n * 10 + digit_val c - 18446744073709551616) (n * 10)); [|lia].
        cbn [orb].
        destruct (Z.leb_spec (decimal_value (leading_digits s) (n * 10 + digit_val c))
                    (18446744073709551616 - 1)); [lia | reflexivity].
  - cbn [decimal_value]. destruct (Z.leb_spec n maxUint64); [reflexivity | lia].
Qed.

Lemma wrap64_small (z : Z) : - 2 ^ 63 <= z < 2 ^ 63 -> wrap64 z = z.
Proof. intros H. unfold wrap64. rewrite Z.mod_small by lia. lia. Qed.

(** On a numeral [Atoi] gives its value, or the nearest bound of [int]
    when the value does not fit. *)
Lemma Atoi_numeral (s : string) (v : Z) :
  numeral s = Some v -> (Atoi s).1 = clamp64 v.
Proof.
  unfold numeral, Atoi, ParseInt. destruct s as [|c rest]; [discriminate|].
  set (body := if Ascii.eqb c "+" || Ascii.eqb c "-" then rest else String c rest).
  destruct body as [|b0 body'] eqn:Hbody; [discriminate|].
  destruct (all_digits (String b0 body')) eqn:Hdig; [|discriminate].
  unfold ParseUint. rewrite parse_uint_loop_digits by (unfold maxUint64; done || lia).
  pose proof (decimal_value_mono _ 0 Hdig ltac:(lia)) as Hpos.
  set (V := decimal_value (String b0 body') 0) in *.
  unfold clamp64, minInt64, maxInt64, maxUint64.
  change (2 ^ 64) with 18446744073709551616.
  change (2 ^ 63) with 9223372036854775808.
  destruct (Z.leb_spec V (18446744073709551616 - 1)) as [Hfit|Hover];
    destruct (Ascii.eqb c "-"); intros [= <-]; cbn [negb andb fst].
  - destruct (Z.ltb_spec 9223372036854775808 V); cbn [fst]; [lia|].
    destruct (Z.eq_dec V 9223372036854775808) as [->|Hne]; [reflexivity|].
    rewrite !wrap64_small by (change (2 ^ 63) with 9223372036854775808;
      rewrite ?wrap64_small by (change (2 ^ 63) with 9223372036854775808; lia); lia).
    lia.
  - destruct (Z.leb_spec 9223372036854775808 V); cbn [fst]; [lia|].
    rewrite wrap64_small by (change (2 ^ 63) with 9223372036854775808; lia). lia.
  - destruct (Z.ltb_spec 9223372036854775808 (18446744073709551616 - 1)); cbn [fst]; lia.
  - destruct (Z.leb_spec 9223372036854775808 (18446744073709551616 - 1)); cbn [fst]; lia.
Qed.

(** On a string that is not a numeral [Atoi] gives 0, unless the digits
    the string starts with, after its sign, have left the range of
    [uint64]: then it gives the bound of [int] on the side of the sign. *)
Lemma Atoi_not_numeral (s : string) :
  numeral s = None ->
  (Atoi s).1 = if decimal_value (leading_digits (unsigned_part s)) 0 <=? maxUint64 then 0
               else if has_minus s then minInt64 else maxInt64.
Proof.
  unfold numeral, Atoi, ParseInt, unsigned_part, has_minus.
  destruct s as [|c rest]; [reflexivity|]. intros Hnum.
  set (body := if Ascii.eqb c "+" || Ascii.eqb c "-" then rest else String c rest) in *.
  destruct body as [|b0 body'] eqn:Hbody; [reflexivity|].
  destruct (all_digits (String b0 body')) eqn:Hdig; [discriminate|].
  unfold ParseUint.
  rewrite parse_uint_loop_not_digits by (unfold maxUint64; done || lia).
  destruct (decimal_value (leading_digits (String b0 body')) 0 <=? maxUint64);
    [reflexivity|].
  unfold minInt64, maxInt64, maxUint64.
  change (2 ^ 64) with 18446744073709551616.
  change (2 ^ 63) with 9223372036854775808.
  destruct (Ascii.eqb c "-"); cbn [negb andb].
  - destruct (Z.ltb_spec 9223372036854775808 (18446744073709551616 - 1)); cbn [fst]; lia.
  - destruct (Z.leb_spec 9223372036854775808 (18446744073709551616 - 1)); cbn [fst]; lia.
Qed.

End GoStrFacts.

(** ** The orchestrator *)

Module OrchestratorFacts.
Import GoStr Orchestrator GoStrFacts.

Lemma splitAddr_split (h sfx : string) :
  contains_byte ":" sfx = false ->
  splitAddr (h +:+ String ":" sfx) = Returns (h, (Atoi sfx).1).
Proof.
  intros Hs. unfold splitAddr, LastIndex. rewrite last_index_split by done.
  rewrite Z.add_0_l, slice_to_app. cbn [and_then].
  by rewrite slice_from_after_colon.
Qed.

Lemma splitAddr_no_colon (a : string) :
  contains_byte ":" a = false -> splitAddr a = Panics.
Proof.
  intros Ha. unfold splitAddr, LastIndex. rewrite last_index_no_colon by done.
  reflexivity.
Qed.

Lemma splitAddr_Panics (a : string) :
  splitAddr a = Panics <-> contains_byte ":" a = false.
Proof.
  split; [|apply splitAddr_no_colon].
  destruct (contains_byte ":" a) eqn:Ha; [|done].
  destruct (last_colon_split a Ha) as (h & sfx & -> & Hs).
  by rewrite splitAddr_split.
Qed.

Lemma portOf_split (h sfx : string) :
  contains_byte ":" sfx = false -> portOf (h +:+ String ":" sfx) = Returns sfx.
Proof.
  intros Hs. unfold portOf, LastIndex. rewrite last_index_split by done.
  rewrite Z.add_0_l. apply slice_from_after_colon.
Qed.

Lemma portOf_no_colon (t : string) :
  contains_byte ":" t = false -> portOf t = Returns t.
Proof.
  intros Ht. unfold portOf, LastIndex. rewrite last_index_no_colon by done.
  change (-1 + 1) with (len ""). apply (slice_from_app "" t).
Qed.

Lemma portOf_returns (t : string) : exists port, portOf t = Returns port.
Proof.
  destruct (contains_byte ":" t) eqn:Ht.
  - destruct (last_colon_split t Ht) as (h & sfx & -> & Hs).
    exists sfx. by apply portOf_split.
  - exists t. by apply portOf_no_colon.
Qed.

Lemma for_each_Panics {A B : Type} (body : A -> outcome B) (l : list A) :
  for_each body l = Panics <-> Exists (fun a => body a = Panics) l.
Proof.
  induction l as [|a l IH]; cbn.
  - split; [discriminate | by intros ?%Exists_nil].
  - rewrite Exists_cons. destruct (body a) as [b|]; cbn.
    + destruct (for_each body l) as [bs|]; cbn.
      * split; [discriminate|]. intros [?|H]; [discriminate|].
        apply IH in H. discriminate.
      * split; [intros _; right; by apply IH | done].
    + split; [by left | done].
Qed.

Lemma for_each_lookup {A B : Type} (body : A -> outcome B) (l : list A) (bs : list B) :
  for_each body l = Returns bs ->
  length bs = length l
  /\ forall i a, l !! i = Some a -> exists b, bs !! i = Some b /\ body a = Returns b.
Proof.
  revert bs. induction l as [|a l IH]; intros bs; cbn.
  - intros [= <-]. split; [reflexivity|]. intros i a0 H. by rewrite lookup_nil in H.
  - destruct (body a) as [b|] eqn:Hb; cbn; [|discriminate].
    destruct (for_each body l) as [bs'|]; cbn; [|discriminate].
    intros [= <-]. destruct (IH bs' eq_refl) as [Hlen Hall].
    split; [cbn; lia|]. intros [|i] a0; cbn.
    + intros [= <-]. eauto.
    + apply Hall.
Qed.

Lemma pair_by_index_lookup (opens targets : list string) (i : nat)
    (fs : list TCPForwarder) :
  pair_by_index opens targets i = Returns fs ->
  length fs = length targets
  /\ forall j t, targets !! j = Some t ->
       exists o, opens !! (i + j)%nat = Some o
                 /\ fs !! j = Some {| ListenAddr := o; TargetAddr := t |}.
Proof.
  revert i fs. induction targets as [|t targets IH]; intros i fs; cbn.
  - intros [= <-]. split; [reflexivity|]. intros j t H. by rewrite lookup_nil in H.
  - destruct (opens !! i) as [o|] eqn:Ho; [|discriminate].
    destruct (pair_by_index opens targets (S i)) as [fs'|] eqn:Hp; cbn; [|discriminate].
    intros [= <-]. destruct (IH _ _ Hp) as [Hlen Hall].
    split; [cbn; lia|]. intros [|j] t0; cbn.
    + intros [= <-]. rewrite Nat.add_0_r. eauto.
    + intros Ht. destruct (Hall j t0 Ht) as (o' & Ho' & Hf).
      exists o'. split; [|done]. by replace (i + S j)%nat with (S i + j)%nat by lia.
Qed.

Lemma pair_by_index_returns (opens targets : list string) (i : nat) :
  (i + length targets <= length opens)%nat ->
  exists fs, pair_by_index opens targets i = Returns fs.
Proof.
  revert i. induction targets as [|t targets IH]; intros i Hlen; cbn; [eauto|].
  cbn in Hlen. destruct (lookup_lt_is_Some_2 opens i ltac:(lia)) as [o ->].
  destruct (IH (S i) ltac:(lia)) as [fs ->]. cbn. eauto.
Qed.

Lemma listen_on_target_port_returns (t : string) :
  exists f, listen_on_target_port t = Returns f.
Proof.
  unfold listen_on_target_port. destruct (portOf_returns t) as [port ->]. cbn. eauto.
Qed.

Lemma prepare_forwarders_returns (c : Config) :
  exists fs, prepare_forwarders c = Returns fs.
Proof.
  unfold prepare_forwarders. case_bool_decide as Hlen.
  - apply pair_by_index_returns. lia.
  - destruct (for_each listen_on_target_port (ForwardPort_TCP c)) as [fs|] eqn:H; [eauto|].
    apply for_each_Panics, Exists_exists in H as (t & _ & Ht).
    destruct (listen_on_target_port_returns t) as [f Hf]. congruence.
Qed.

Section WithParseIP.
Variable ParseIP : string -> string.

Lemma open_addr_Panics (a : string) :
  open_addr ParseIP a = Panics <-> contains_byte ":" a = false.
Proof.
  unfold open_addr. rewrite <- splitAddr_Panics.
  destruct (splitAddr a); cbn; split; done.
Qed.

Lemma for_each_open_addr_Panics (l : list string) :
  for_each (open_addr ParseIP) l = Panics
  <-> exists a, a ∈ l /\ contains_byte ":" a = false.
Proof.
  rewrite for_each_Panics, Exists_exists.
  split; intros (a & Hin & Ha); exists a; (split; [done|]); by apply open_addr_Panics.
Qed.

Lemma New_Panics (c : Config) :
  New ParseIP true c = Panics
  <-> exists a, a ∈ OpenPort_TCP c ++ OpenPort_UDP c /\ contains_byte ":" a = false.
Proof.
  unfold New. cbn [Status.NewManager].
  destruct (prepare_forwarders_returns c) as [fs Hfs]. rewrite Hfs.
  setoid_rewrite elem_of_app.
  destruct (for_each (open_addr ParseIP) (OpenPort_TCP c)) as [topens|] eqn:Ht; cbn.
  - destruct (for_each (open_addr ParseIP) (OpenPort_UDP c)) as [uopens|] eqn:Hu; cbn.
    + split; [discriminate|]. intros (a & [Hin|Hin] & Ha).
      * assert (for_each (open_addr ParseIP) (OpenPort_TCP c) = Panics)
          by (apply for_each_open_addr_Panics; eauto). congruence.
      * assert (for_each (open_addr ParseIP) (OpenPort_UDP c) = Panics)
          by (apply for_each_open_addr_Panics; eauto). congruence.
    + split; [intros _|done].
      apply for_each_open_addr_Panics in Hu as (a & Hin & Ha). eauto.
  - split; [intros _|done].
    apply for_each_open_addr_Panics in Ht as (a & Hin & Ha). eauto.
Qed.

Lemma New_Returns (c : Config) (n : Natter) :
  New ParseIP true c = Returns (Some n) ->
  prepare_forwarders c = Returns (tcpFwds n).
Proof.
  unfold New. cbn [Status.NewManager].
  destruct (for_each (open_addr ParseIP) (OpenPort_TCP c)); cbn; [|discriminate].
  destruct (for_each (open_addr ParseIP) (OpenPort_UDP c)); cbn; [|discriminate].
  destruct (prepare_forwarders c); cbn; [|discriminate].
  by intros [= <-].
Qed.

(** C10 (amended). For a string with a colon [splitAddr] returns the part
    before the last colon and what [Atoi] makes of the part after it: the
    value of an optionally signed decimal numeral, or the nearest bound
    of the 64-bit [int] when that value does not fit; and for a part
    that is not a numeral 0, unless the decimal digits it starts with,
    after its sign, already denote more than 2^64 - 1: then it is the
    smallest [int] for a part with a minus sign and the largest one
    otherwise. For a string without a colon it panics. [New] returns the
    error of [NewManager] when the status file does not open; when it
    opens, [New] panics exactly when some open-port entry has no colon. *)
Theorem splitAddr_needs_colon (c : Config) (a : string) :
  (contains_byte ":" a = true ->
     exists h sfx,
       a = h +:+ ":" +:+ sfx
       /\ contains_byte ":" sfx = false
       /\ splitAddr a = Returns (h, (Atoi sfx).1)
       /\ (forall v, numeral sfx = Some v ->
             (Atoi sfx).1 = clamp64 v
             /\ (minInt64 <= v <= maxInt64 -> (Atoi sfx).1 = v))
       /\ (numeral sfx = None ->
             (Atoi sfx).1
             = if decimal_value (leading_digits (unsigned_part sfx)) 0 <=? maxUint64
               then 0
               else if has_minus sfx then minInt64 else maxInt64))
  /\ (contains_byte ":" a = false -> splitAddr a = Panics)
  /\ New ParseIP false c = Returns None
  /\ (New ParseIP true c = Panics
      <-> exists a', a' ∈ OpenPort_TCP c ++ OpenPort_UDP c
                     /\ contains_byte ":" a' = false).
Proof.
  split; [|split; [apply splitAddr_no_colon | split; [reflexivity | apply New_Panics]]].
  intros Ha. destruct (last_colon_split a Ha) as (h & sfx & -> & Hs).
  exists h, sfx. split; [reflexivity|]. split; [done|].
  split; [by apply splitAddr_split|]. split.
  - intros v Hv. rewrite (Atoi_numeral _ _ Hv). split; [reflexivity|].
    unfold clamp64. lia.
  - apply Atoi_not_numeral.
Qed.

(** C6. When [New] returns a [Natter], it holds one forwarder per
    forward target, in order. If the two lists have the same length, the
    [i]-th forwarder listens on the [i]-th open port and targets the
    [i]-th target; otherwise each forwarder listens on ["0.0.0.0:"]
    followed by the part of its target after the last colon (the whole
    target when it has no colon). *)
Theorem tcp_forwarder_pairing (c : Config) (n : Natter) :
  New ParseIP true c = Returns (Some n) ->
  length (tcpFwds n) = length (ForwardPort_TCP c)
  /\ (length (OpenPort_TCP c) = length (ForwardPort_TCP c) ->
      forall i o t,
        OpenPort_TCP c !! i = Some o -> ForwardPort_TCP c !! i = Some t ->
        tcpFwds n !! i = Some {| ListenAddr := o; TargetAddr := t |})
  /\ (length (OpenPort_TCP c) <> length (ForwardPort_TCP c) ->
      forall i t,
        ForwardPort_TCP c !! i = Some t ->
        exists f,
          tcpFwds n !! i = Some f
          /\ TargetAddr f = t
          /\ (forall pre sfx, t = pre +:+ ":" +:+ sfx -> contains_byte ":" sfx = false ->
                ListenAddr f = "0.0.0.0:" +:+ sfx)
          /\ (contains_byte ":" t = false -> ListenAddr f = "0.0.0.0:" +:+ t)).
Proof.
  intros Hnew. apply New_Returns in Hnew. unfold prepare_forwarders in Hnew.
  case_bool_decide as Hlen.
  - destruct (pair_by_index_lookup _ _ _ _ Hnew) as [Hl Hall].
    split; [done|]. split; [|done].
    intros _ i o t Ho Ht. destruct (Hall i t Ht) as (o' & Ho' & Hf).
    cbn in Ho'. congruence.
  - destruct (for_each_lookup _ _ _ Hnew) as [Hl Hall].
    split; [done|]. split; [done|].
    intros _ i t Ht. destruct (Hall i t Ht) as (f & Hf & Hbody).
    exists f. split; [done|]. unfold listen_on_target_port in Hbody.
    split; [|split].
    + destruct (portOf t); cbn in Hbody; [|discriminate]. by injection Hbody as <-.
    + intros pre sfx -> Hs. change (":" +:+ sfx) with (String ":" sfx) in Hbody.
      rewrite portOf_split in Hbody by done.
      cbn in Hbody. by injection Hbody as <-.
    + intros Hnc. rewrite portOf_no_colon in Hbody by done.
      cbn in Hbody. by injection Hbody as <-.
Qed.

End WithParseIP.

Lemma splitAddr_needs_colon_witness :
  (exists h sfx,
      "0.0.0.0:34567" = h +:+ ":" +:+ sfx
      /\ contains_byte ":" sfx = false
      /\ splitAddr "0.0.0.0:34567" = Returns (h, (Atoi sfx).1)
      /\ (forall v, numeral sfx = Some v ->
            (Atoi sfx).1 = clamp64 v
            /\ (minInt64 <= v <= maxInt64 -> (Atoi sfx).1 = v))
      /\ (numeral sfx = None ->
            (Atoi sfx).1
            = if decimal_value (leading_digits (unsigned_part sfx)) 0 <=? maxUint64
              then 0
              else if has_minus sfx then minInt64 else maxInt64))
  /\ splitAddr "34567" = Panics.
Proof.
  split.
  - apply (proj1 (splitAddr_needs_colon id readme_config "0.0.0.0:34567")).
    reflexivity.
  - apply (proj1 (proj2 (splitAddr_needs_colon id readme_config "34567"))).
    reflexivity.
Defined.

(** C10 as stated fails: the part after the colon can be a number whose
    value is not what is returned, or no number while something other
    than 0 is returned; and [New] returns without a panic on an open port
    without a colon when the status file does not open. *)
Lemma splitAddr_clamps_port :
  numeral "9223372036854775808" = Some 9223372036854775808
  /\ splitAddr "0.0.0.0:9223372036854775808" = Returns ("0.0.0.0", 9223372036854775807)
  /\ numeral "99999999999999999999x" = None
  /\ splitAddr "0.0.0.0:99999999999999999999x" = Returns ("0.0.0.0", 9223372036854775807)
  /\ contains_byte ":" "34567" = false
  /\ New id false bare_port_config = Returns None.
Proof. vm_compute. repeat split; reflexivity. Qed.

(** Parts after the colon that are no numerals: 0 as long as the digits
    in front fit [uint64], whatever the length, and a bound of [int]
    beyond that. *)
Lemma splitAddr_not_a_numeral :
  splitAddr "0.0.0.0:12345678901234567890x" = Returns ("0.0.0.0", 0)
  /\ splitAddr "0.0.0.0:abcdefghijklmnopqrstuvwxyz" = Returns ("0.0.0.0", 0)
  /\ splitAddr "0.0.0.0:18446744073709551615x" = Returns ("0.0.0.0", 0)
  /\ splitAddr "0.0.0.0:18446744073709551616x" = Returns ("0.0.0.0", maxInt64)
  /\ splitAddr "0.0.0.0:-18446744073709551616x" = Returns ("0.0.0.0", minInt64).
Proof. vm_compute. repeat split; reflexivity. Qed.

Lemma tcp_forwarder_pairing_witness :
  exists n,
    New id true readme_config = Returns (Some n)
    /\ tcpFwds n !! 0%nat
       = Some {| ListenAddr := "0.0.0.0:34567"; TargetAddr := "192.168.1.1:80" |}.
Proof.
  eexists. split; [vm_compute; reflexivity|].
  refine (proj1 (proj2 (tcp_forwarder_pairing id readme_config _ _)) _ 0%nat _ _ _ _);
    vm_compute; reflexivity.
Defined.

End OrchestratorFacts.

(** ** The endpoint worker *)

Module WorkerFacts.
Import GoStr Orchestrator GoStrFacts.

Lemma HasPrefix_true (p s : string) :
  HasPrefix s p = true -> exists r, s = p +:+ r.
Proof.
  revert s. induction p as [|c p IH]; intros s H; [by exists s|].
  destruct s as [|d s]; [discriminate|]. cbn [HasPrefix] in H.
  destruct (Ascii.eqb c d) eqn:Hcd; [|discriminate].
  apply Ascii.eqb_eq in Hcd as <-. destruct (IH s H) as [r ->]. by exists r.
Qed.

Lemma split_from_nonempty (sep s : string) (skip : nat) (cur : string) :
  split_from sep s skip cur <> [].
Proof.
  revert skip cur. induction s as [|c s IH]; intros skip cur; cbn [split_from]; [done|].
  destruct skip; [|apply IH]. destruct (HasPrefix (String c s) sep); [done | apply IH].
Qed.

Lemma formatInner_returns (s outboundIP : string) :
  exists inner, formatInner s outboundIP = Returns inner.
Proof.
  unfold formatInner. destruct (HasPrefix s "0.0.0.0:") eqn:Hp; [|eauto].
  apply HasPrefix_true in Hp as [r ->].
  assert (Hsplit : Split ("0.0.0.0:" +:+ r) ":" = "0.0.0.0" :: split_from ":" r 0 "").
  { unfold Split. rewrite !append_cons, append_nil.
    repeat (cbn [split_from]; rewrite HasPrefix_colon;
            match goal with |- context [Ascii.eqb ?a ?b] =>
              let v := eval vm_compute in (Ascii.eqb a b) in
              change (Ascii.eqb a b) with v end; cbv iota).
    reflexivity. }
  rewrite Hsplit. pose proof (split_from_nonempty ":" r 0 "") as Hne.
  destruct (split_from ":" r 0 "") as [|port rest]; [done|]. cbn. eauto.
Qed.

Lemma append_cons_nonempty (a : string) (c : ascii) (b : string) :
  a +:+ String c b <> "".
Proof. destruct a; discriminate. Qed.

Lemma format_outer_nonempty (m : Stun.Mapping) : format_outer m <> "".
Proof. unfold format_outer. apply append_cons_nonempty. Qed.

Lemma probe_nonempty (p : Sock.Platform) (client : Stun.Client) (proto : string)
    (port : Z) (world : nat -> Stun.Attempt) (outer : string) :
  probe p client proto port world = Some outer -> outer <> "".
Proof.
  unfold probe.
  destruct (Stun.err _); [discriminate|]. destruct (Stun.mapping _); [|discriminate].
  intros [= <-]. apply format_outer_nonempty.
Qed.

Section Loop.
Variables (p : Sock.Platform) (client : Stun.Client) (proto : string) (port : Z)
  (inner : string).

Lemma worker_loop_events (last : string) (worlds : list (nat -> Stun.Attempt)) :
  Forall (fun e => Status.Protocol e = proto /\ Status.InnerAddr e = inner)
    (worker_loop p client proto port inner last worlds).
Proof.
  revert last. induction worlds as [|w ws IH]; intros last; cbn [worker_loop]; [constructor|].
  apply Forall_app. split; [|apply IH].
  unfold worker_turn. destruct (probe p client proto port w) as [outer|]; [|constructor].
  case_bool_decide; cbn; [|constructor]. by apply Forall_singleton.
Qed.

Lemma worker_loop_changes (last : string) (worlds : list (nat -> Stun.Attempt)) :
  Status.OuterAddr <$> worker_loop p client proto port inner last worlds
  = changes last (omap (probe p client proto port) worlds).
Proof.
  revert last. induction worlds as [|w ws IH]; intros last; [reflexivity|].
  cbn [worker_loop].
  change (omap (probe p client proto port) (w :: ws))
    with (match probe p client proto port w with
          | Some y => y :: omap (probe p client proto port) ws
          | None => omap (probe p client proto port) ws
          end).
  unfold worker_turn. destruct (probe p client proto port w) as [outer|]; cbn; [|apply IH].
  case_bool_decide as Hne; cbn.
  - rewrite bool_decide_eq_false_2 by done. by rewrite IH.
  - rewrite Hne, bool_decide_eq_true_2 by done. apply IH.
Qed.

End Loop.

Lemma changes_adjacent (last : string) (obs : list string) :
  (forall x, head (changes last obs) = Some x -> x <> last)
  /\ (forall i a b, changes last obs !! i = Some a ->
                    changes last obs !! S i = Some b -> a <> b).
Proof.
  revert last. induction obs as [|o obs IH]; intros last; cbn [changes].
  - split; [discriminate|]. intros i a b H. by rewrite lookup_nil in H.
  - case_bool_decide as Heq; [apply IH|].
    destruct (IH o) as [Hhead Hadj]. split.
    + cbn. by intros x [= <-].
    + intros [|i] a b; cbn.
      * intros [= Ha] Hb Hab. subst a b. apply (Hhead o); [|reflexivity].
        destruct (changes o obs); cbn in *; congruence.
      * apply Hadj.
Qed.

Lemma changes_first (obs : list string) (o : string) (rest : list string) :
  obs = o :: rest -> o <> "" -> exists tl, changes "" obs = o :: tl.
Proof.
  intros -> Hne. cbn. rewrite bool_decide_eq_false_2 by done. eauto.
Qed.

(** C2. A worker sends events that all carry its protocol and its inner
    address. Their outer addresses are the successful observations, in
    order, with every observation that repeats the last one sent left
    out: two events in a row never carry the same outer address, a
    success that equals the last value sent sends nothing, failed probes
    send nothing, and the first success is always sent, because a
    formatted outer address is never the empty string. *)
Theorem worker_publishes_changes (p : Sock.Platform) (client : Stun.Client)
    (outboundIP proto : string) (addr : Sock.Addr)
    (worlds : list (nat -> Stun.Attempt)) :
  exists inner evs,
    formatInner (addr_String addr) outboundIP = Returns inner
    /\ runWorker p client outboundIP proto addr worlds = Returns evs
    /\ Forall (fun e => Status.Protocol e = proto /\ Status.InnerAddr e = inner) evs
    /\ Status.OuterAddr <$> evs
       = changes "" (omap (probe p client proto (Sock.Port addr)) worlds)
    /\ (forall i e1 e2, evs !! i = Some e1 -> evs !! S i = Some e2 ->
          Status.OuterAddr e1 <> Status.OuterAddr e2)
    /\ (forall o rest,
          omap (probe p client proto (Sock.Port addr)) worlds = o :: rest ->
          exists e evs', evs = e :: evs' /\ Status.OuterAddr e = o)
    /\ (forall last, worker_turn proto inner last (Some last) = ([], last))
    /\ (forall last, worker_turn proto inner last None = ([], last)).
Proof.
  destruct (formatInner_returns (addr_String addr) outboundIP) as [inner Hinner].
  exists inner, (worker_loop p client proto (Sock.Port addr) inner "" worlds).
  pose proof (worker_loop_changes p client proto (Sock.Port addr) inner "" worlds) as Hch.
  split; [done|]. split; [unfold runWorker; by rewrite Hinner|].
  split; [apply worker_loop_events|]. split; [done|]. split; [|split; [|split]].
  - intros i e1 e2 H1 H2.
    destruct (changes_adjacent "" (omap (probe p client proto (Sock.Port addr)) worlds))
      as [_ Hadj].
    apply (Hadj i); rewrite <- Hch, list_lookup_fmap; [by rewrite H1 | by rewrite H2].
  - intros o rest Hobs.
    assert (Ho : o <> "").
    { destruct worlds as [|w ws]; [discriminate|].
      assert (Hin : o ∈ omap (probe p client proto (Sock.Port addr)) (w :: ws))
        by (rewrite Hobs; left).
      apply list_elem_of_omap in Hin as (w' & _ & Hw'). by eapply probe_nonempty. }
    destruct (changes_first _ _ _ Hobs Ho) as [tl Htl]. rewrite Htl in Hch.
    destruct (worker_loop p client proto (Sock.Port addr) inner "" worlds) as [|e evs'];
      [discriminate|].
    cbn in Hch. injection Hch as He _. eauto.
  - intros last. unfold worker_turn. by rewrite bool_decide_eq_false_2 by (intros H; by apply H).
  - reflexivity.
Qed.

Lemma worker_publishes_changes_witness :
  let client := Stun.SetBindIP
                  (Stun.NewClient ["stun.l.google.com"] [] Sock.second) "192.168.1.10" in
  let addr := {| Sock.IP := "0.0.0.0"; Sock.Port := 34567 |} in
  exists evs,
    runWorker Sock.Unix client "192.168.1.10" "tcp" addr drift = Returns evs
    /\ Forall (fun e => Status.Protocol e = "tcp"
                        /\ Status.InnerAddr e = "192.168.1.10:34567") evs
    /\ Status.OuterAddr <$> evs = ["203.0.113.4:51900"; "203.0.113.4:51901"].
Proof.
  intros client addr.
  destruct (worker_publishes_changes Sock.Unix client "192.168.1.10" "tcp" addr drift)
    as (inner & evs & Hinner & Hrun & Hall & Hch & _).
  exists evs. split; [exact Hrun|].
  assert (Hi : inner = "192.168.1.10:34567").
  { vm_compute in Hinner. by injection Hinner as <-. }
  rewrite Hi in Hall. split; [exact Hall|]. rewrite Hch. vm_compute. reflexivity.
Defined.

End WorkerFacts.

(** ** The status table and the status file *)

Module TableFacts.
Import GoStr Status Table StatusFacts.

Lemma entry_insert (table : gmap string (gmap string string))
    (pm : gmap string string) (proto inner outer p i : string) :
  table !! proto = Some pm ->
  entry (<[proto := <[inner := outer]> pm]> table) p i
  = if bool_decide (proto = p /\ inner = i) then Some outer else entry table p i.
Proof.
  intros Hp. unfold entry. destruct (decide (proto = p)) as [<-|Hne].
  - rewrite lookup_insert_eq, Hp. cbn. destruct (decide (inner = i)) as [<-|Hni].
    + rewrite lookup_insert_eq. by rewrite bool_decide_eq_true_2.
    + rewrite lookup_insert_ne by done. rewrite bool_decide_eq_false_2; [done|].
      by intros [_ ?].
  - rewrite lookup_insert_ne by done. rewrite bool_decide_eq_false_2; [done|].
    by intros [? _].
Qed.

(** What a call of [handleEvent] that returns does to the table. *)
Lemma handleEvent_entry (io : IO) (m m' : StatusManager) (ev : UpdateEvent) (p i : string) :
  handleEvent io m ev = Returns m' ->
  entry (mappings m') p i = overwrite p i (entry (mappings m) p i) ev.
Proof.
  unfold handleEvent, overwrite. case_bool_decide as Hold.
  - intros [= <-]. case_bool_decide as Hpi; [|done].
    destruct Hpi as [<- <-]. exact Hold.
  - destruct (mappings m !! Protocol ev) as [pm|] eqn:Hp; [|discriminate].
    destruct (writeFile_keeps io
      {| hookCmd := hookCmd m;
         mappings := <[Protocol ev := <[InnerAddr ev := OuterAddr ev]> pm]> (mappings m);
         file := file m; spawned := spawned m |}) as (Hm & _ & _).
    cbn in Hm.
    case_bool_decide; intros [= <-]; cbn; rewrite Hm; by apply entry_insert.
Qed.

(** X1. After [handleEvent] returns, the table holds the event's outer
    address under its protocol and inner address, and every other entry
    of the table is what it was before. *)
Theorem handleEvent_stores_and_frames (io : IO) (m m' : StatusManager)
    (ev : UpdateEvent) :
  handleEvent io m ev = Returns m' ->
  entry (mappings m') (Protocol ev) (InnerAddr ev) = Some (OuterAddr ev)
  /\ (forall p i, ~ (p = Protocol ev /\ i = InnerAddr ev) ->
        entry (mappings m') p i = entry (mappings m) p i)
  /\ hookCmd m' = hookCmd m.
Proof.
  intros H. split; [|split].
  - rewrite (handleEvent_entry _ _ _ _ _ _ H). unfold overwrite.
    by rewrite bool_decide_eq_true_2.
  - intros p i Hne. rewrite (handleEvent_entry _ _ _ _ _ _ H). unfold overwrite.
    rewrite bool_decide_eq_false_2; [done|]. intros [? ?]. by apply Hne.
  - revert H. unfold handleEvent. case_bool_decide; [by intros [= <-]|].
    destruct (mappings m !! Protocol ev) as [pm|]; [|discriminate].
    match goal with |- context [writeFile io ?m1] =>
      destruct (writeFile_keeps io m1) as (_ & Hh & _) end.
    case_bool_decide; intros [= <-]; cbn; exact Hh.
Qed.

Lemma handleEvent_stores_and_frames_witness :
  let ev := {| Protocol := "udp"; InnerAddr := "192.168.1.10:34567";
               OuterAddr := "203.0.113.4:51900" |} in
  exists m', handleEvent all_ok (fresh "") ev = Returns m'
             /\ entry (mappings m') "udp" "192.168.1.10:34567" = Some "203.0.113.4:51900".
Proof.
  intros ev. eexists. split; [vm_compute; reflexivity|].
  refine (proj1 (handleEvent_stores_and_frames all_ok (fresh "") _ ev _)).
  vm_compute; reflexivity.
Defined.


Lemma expandHook_hookCmd (a b : StatusManager) (ev : UpdateEvent) :
  hookCmd a = hookCmd b -> expandHook a ev = expandHook b ev.
Proof. unfold expandHook. by intros ->. Qed.

Lemma handleEvent_agree (io1 io2 : IO) (a b : StatusManager) (ev : UpdateEvent) :
  same_core a b -> agree (handleEvent io1 a ev) (handleEvent io2 b ev).
Proof.
  destruct a as [ha ma fa sa], b as [hb mb fb sb]. unfold same_core; cbn.
  intros (<- & <- & <-). unfold handleEvent; cbn.
  case_bool_decide; [done|].
  destruct (ma !! Protocol ev) as [pm|]; [|done].
  match goal with |- context [writeFile io1 ?m1] =>
    destruct (writeFile_keeps io1 m1) as (Hm1 & Hh1 & Hs1);
    destruct (writeFile io1 m1).1 as [h1 t1 f1 s1] end.
  match goal with |- context [writeFile io2 ?m2] =>
    destruct (writeFile_keeps io2 m2) as (Hm2 & Hh2 & Hs2);
    destruct (writeFile io2 m2).1 as [h2 t2 f2 s2] end.
  cbn in *. subst. case_bool_decide; cbn; unfold same_core; cbn; done.
Qed.

(** X2. Whether the operations on the status file succeed or fail has no
    effect on the table, on the hooks that are spawned, or on whether the
    manager panics: two runs over the same events that differ only in the
    answers of the file system end alike. *)
Theorem Run_ignores_file_errors (m : StatusManager)
    (evs : list (UpdateEvent * IO * IO)) :
  agree (Run m ((fun x => (x.1.1, x.1.2)) <$> evs))
        (Run m ((fun x => (x.1.1, x.2)) <$> evs)).
Proof.
  assert (Hgen : forall a b, same_core a b ->
            agree (Run a ((fun x => (x.1.1, x.1.2)) <$> evs))
                  (Run b ((fun x => (x.1.1, x.2)) <$> evs))).
  { induction evs as [|[[ev io1] io2] rest IH]; intros a b Hab; cbn; [done|].
    pose proof (handleEvent_agree io1 io2 a b ev Hab) as H.
    destruct (handleEvent io1 a ev) as [a'|], (handleEvent io2 b ev) as [b'|];
      cbn in *; try done. by apply IH. }
  by apply Hgen.
Qed.

(** *** What the document lists *)

Lemma tmp_add_fold_same (k : string) (tmp : gmap string (slice (gmap string string)))
    (l : list (gmap string string)) (kvs : list (string * string)) :
  tmp !! k = Some (Some l) ->
  foldl (tmp_add k) tmp kvs !! k
  = Some (Some (l ++ ((fun kv : string * string =>
                         ({[ "inner" := kv.1; "outer" := kv.2 ]} : gmap string string))
                      <$> kvs))).
Proof.
  revert tmp l. induction kvs as [|kv kvs IH]; intros tmp l Hk; cbn.
  - by rewrite app_nil_r.
  - rewrite (IH _ (l ++ [{[ "inner" := kv.1; "outer" := kv.2 ]}])).
    + by rewrite <- app_assoc.
    + unfold tmp_add. rewrite lookup_insert_eq, Hk. reflexivity.
Qed.

Lemma tmp_add_fold_other (k p : string) (tmp : gmap string (slice (gmap string string)))
    (kvs : list (string * string)) :
  k <> p -> foldl (tmp_add k) tmp kvs !! p = tmp !! p.
Proof.
  intros Hne. revert tmp. induction kvs as [|kv kvs IH]; intros tmp; cbn; [done|].
  rewrite IH. unfold tmp_add. by rewrite lookup_insert_ne.
Qed.

Lemma tmp_add_all_fold_other (p : string) (tmp : gmap string (slice (gmap string string)))
    (entries : list (string * gmap string string)) :
  p ∉ entries.*1 -> foldl tmp_add_all tmp entries !! p = tmp !! p.
Proof.
  revert tmp. induction entries as [|[k am] rest IH]; intros tmp Hnot; cbn; [done|].
  cbn in Hnot. apply not_elem_of_cons in Hnot as [Hne Hrest].
  rewrite IH by done. unfold tmp_add_all. cbn. by apply tmp_add_fold_other.
Qed.

Lemma tmp_add_all_fold_lookup (p : string) (am : gmap string string)
    (tmp : gmap string (slice (gmap string string)))
    (entries : list (string * gmap string string)) (l : list (gmap string string)) :
  NoDup entries.*1 -> (p, am) ∈ entries -> tmp !! p = Some (Some l) ->
  foldl tmp_add_all tmp entries !! p
  = Some (Some (l ++ ((fun kv : string * string =>
                         ({[ "inner" := kv.1; "outer" := kv.2 ]} : gmap string string))
                      <$> map_to_list am))).
Proof.
  revert tmp. induction entries as [|[k am'] rest IH]; intros tmp Hnd Hin Hp.
  - by apply elem_of_nil in Hin.
  - cbn in Hnd. apply NoDup_cons in Hnd as [Hk Hnd]. cbn [foldl].
    apply elem_of_cons in Hin as [[= <- <-]|Hin].
    + rewrite tmp_add_all_fold_other by done. unfold tmp_add_all. cbn.
      by apply tmp_add_fold_same.
    + assert (k <> p).
      { intros ->. apply Hk. apply list_elem_of_fmap. by exists (p, am). }
      apply IH; [done | done |]. unfold tmp_add_all. cbn.
      by rewrite tmp_add_fold_other.
Qed.

Lemma build_tmp_lookup (table : gmap string (gmap string string))
    (proto : string) (am : gmap string string) :
  known proto -> table !! proto = Some am ->
  build_tmp table !! proto
  = Some (Some ((fun kv : string * string =>
                   ({[ "inner" := kv.1; "outer" := kv.2 ]} : gmap string string))
                <$> map_to_list am)).
Proof.
  intros Hk Hp. unfold build_tmp.
  rewrite (tmp_add_all_fold_lookup proto am _ _ []).
  - reflexivity.
  - apply NoDup_fst_map_to_list.
  - by apply elem_of_map_to_list.
  - destruct Hk as [-> | ->]; [by rewrite lookup_insert_eq|].
    rewrite lookup_insert_ne by done. by rewrite lookup_singleton_eq.
Qed.

Lemma record_of_fields (i o : string) :
  field "inner" (record_of i o) = Some (JStr i)
  /\ field "outer" (record_of i o) = Some (JStr o).
Proof.
  unfold field, record_of, marshal_record. rewrite !lookup_fmap.
  rewrite lookup_insert_eq, lookup_insert_ne, lookup_singleton_eq by done. done.
Qed.

Lemma record_of_inj (i o i' o' : string) :
  record_of i o = record_of i' o' -> i = i' /\ o = o'.
Proof.
  intros H.
  destruct (record_of_fields i o) as [Hi Ho].
  destruct (record_of_fields i' o') as [Hi' Ho'].
  rewrite H in Hi, Ho. split; congruence.
Qed.

(** X3. The document [writeFile] encodes lists the table: under each of
    the two protocols it has an array with one record per table entry,
    and a record of [inner] and [outer] is in the array exactly when the
    table maps [inner] to [outer] under that protocol. *)
Theorem document_lists_table (table : gmap string (gmap string string))
    (proto : string) (am : gmap string string) :
  known proto -> table !! proto = Some am ->
  exists (doc : gmap string JSON) (arr : list JSON),
    marshal (build_tmp table) = JObj doc
    /\ doc !! proto = Some (JArr arr)
    /\ length arr = size am
    /\ (forall inner outer, record_of inner outer ∈ arr <-> am !! inner = Some outer).
Proof.
  intros Hk Hp.
  exists (marshal_slice <$> build_tmp table),
    (marshal_record <$>
       ((fun kv : string * string =>
           ({[ "inner" := kv.1; "outer" := kv.2 ]} : gmap string string))
        <$> map_to_list am)).
  split; [reflexivity|]. split.
  { pose proof (build_tmp_lookup _ _ _ Hk Hp) as Hb.
    rewrite lookup_fmap. unfold slice in *. by rewrite Hb. }
  split.
  - by rewrite !length_fmap, length_map_to_list.
  - intros inner outer. rewrite <- list_fmap_compose. split.
    + intros Hin. apply list_elem_of_fmap in Hin as ([i o] & Heq & Hin). cbn in Heq.
      apply (record_of_inj inner outer i o) in Heq as [-> ->].
      by apply elem_of_map_to_list.
    + intros Hin. apply list_elem_of_fmap. exists (inner, outer).
      split; [reflexivity|]. by apply elem_of_map_to_list.
Qed.

Lemma document_lists_table_witness :
  exists (doc : gmap string JSON) (arr : list JSON),
    marshal (build_tmp {[ "tcp" := {[ "192.168.1.10:34567" := "203.0.113.4:51900" ]};
                          "udp" := ∅ ]}) = JObj doc
    /\ doc !! "tcp" = Some (JArr arr)
    /\ length arr = 1%nat.
Proof.
  destruct (document_lists_table
              {[ "tcp" := {[ "192.168.1.10:34567" := "203.0.113.4:51900" ]}; "udp" := ∅ ]}
              "tcp" {[ "192.168.1.10:34567" := "203.0.113.4:51900" ]})
    as (doc & arr & Hdoc & Harr & Hlen & _).
  - by left.
  - vm_compute; reflexivity.
  - exists doc, arr. split; [exact Hdoc|]. split; [exact Harr|].
    rewrite Hlen. vm_compute; reflexivity.
Defined.

End TableFacts.

(** ** From the events to the table, the file and the hook *)

Module PublishFacts.
Import GoStr Status Table Orchestrator StatusFacts TableFacts WorkerFacts.

(** X4. After [Run] has handled a sequence of events the table holds,
    for every protocol and inner address, the outer address of the last
    event about them, and what it held before when there was none. *)
Theorem Run_last_write_wins (m m' : StatusManager) (evs : list (UpdateEvent * IO))
    (p i : string) :
  Run m evs = Returns m' ->
  entry (mappings m') p i = last_outer p i (entry (mappings m) p i) evs.*1.
Proof.
  revert m. induction evs as [|[ev io] rest IH]; intros m; cbn.
  - by intros [= <-].
  - destruct (handleEvent io m ev) as [m1|] eqn:H1; cbn; [|discriminate].
    intros Hrun. rewrite (IH _ Hrun). unfold last_outer. cbn.
    by rewrite (handleEvent_entry _ _ _ _ _ _ H1).
Qed.

Lemma Run_last_write_wins_witness :
  let e1 := {| Protocol := "tcp"; InnerAddr := "192.168.1.10:34567";
               OuterAddr := "203.0.113.4:51900" |} in
  let e2 := {| Protocol := "tcp"; InnerAddr := "192.168.1.10:34567";
               OuterAddr := "203.0.113.4:51901" |} in
  exists m', Run (fresh "") [(e1, all_ok); (e2, all_ok)] = Returns m'
             /\ entry (mappings m') "tcp" "192.168.1.10:34567" = Some "203.0.113.4:51901".
Proof.
  intros e1 e2. eexists. split; [vm_compute; reflexivity|].
  rewrite (Run_last_write_wins (fresh "") _ [(e1, all_ok); (e2, all_ok)]
             "tcp" "192.168.1.10:34567"); vm_compute; reflexivity.
Defined.

Lemma writeFile_all_ok_documents (m : StatusManager) :
  documents (writeFile all_ok m).1 = documents m ++ [marshal (build_tmp (mappings m))].
Proof.
  unfold writeFile, documents, all_ok.
  cbn [seek_ok truncate_ok encode_ok negb fst with_file file].
  rewrite !omap_app. cbn. by rewrite !app_nil_r.
Qed.

(** A call that finds a different value, or none, under a known protocol
    stores the new one and spawns the hook. *)
Lemma handleEvent_changed (io : IO) (m : StatusManager) (ev : UpdateEvent) :
  seeded m -> known (Protocol ev) ->
  entry (mappings m) (Protocol ev) (InnerAddr ev) <> Some (OuterAddr ev) ->
  hookCmd m <> "" ->
  exists m1,
    handleEvent io m ev = Returns m1
    /\ seeded m1
    /\ hookCmd m1 = hookCmd m
    /\ spawned m1 = spawned m ++ [expandHook m ev]
    /\ (io = all_ok -> length (documents m1) = S (length (documents m))).
Proof.
  intros Hs Hk Hnew Hhook. destruct (known_lookup m _ Hs Hk) as [pm Hp].
  assert (Hret : exists m1, handleEvent io m ev = Returns m1)
    by (by apply handleEvent_known).
  destruct Hret as [m1 H1]. exists m1. split; [done|].
  split; [by eapply handleEvent_seeded|].
  revert H1. unfold handleEvent. unfold entry in Hnew.
  rewrite bool_decide_eq_false_2 by done. rewrite Hp.
  match goal with |- context [writeFile io ?m0] =>
    destruct (writeFile_keeps io m0) as (Hm1 & Hh1 & Hs1);
    pose proof (writeFile_all_ok_documents m0) as Hdoc;
    set (w := writeFile io m0) in * end.
  cbn in Hh1, Hs1, Hdoc. rewrite bool_decide_eq_false_2 by (by rewrite Hh1).
  intros [= <-]. cbn. split; [done|]. split.
  - rewrite Hs1. f_equal. f_equal. apply expandHook_hookCmd. by rewrite Hh1.
  - intros ->. unfold documents in *. cbn. subst w.
    rewrite Hdoc, length_app. cbn. lia.
Qed.

Lemma Run_fresh_chain (proto inner : string) (evs : list UpdateEvent)
    (io_of : nat -> IO) (m : StatusManager) :
  seeded m -> known proto -> hookCmd m <> "" ->
  Forall (fun e => Protocol e = proto /\ InnerAddr e = inner) evs ->
  fresh_chain (entry (mappings m) proto inner) (OuterAddr <$> evs) ->
  exists m',
    Run m (imap (fun k e => (e, io_of k)) evs) = Returns m'
    /\ length (spawned m') = (length (spawned m) + length evs)%nat
    /\ ((forall k, io_of k = all_ok) ->
        length (documents m') = (length (documents m) + length evs)%nat).
Proof.
  intros Hs Hk Hhook Hall. revert io_of m Hs Hhook.
  induction Hall as [|e es [He1 He2] _ IH]; intros io_of m Hs Hhook Hchain; cbn.
  - exists m. split; [done|]. split; [lia|]. intros _. lia.
  - cbn in Hchain. destruct Hchain as [Hnew Hchain].
    destruct (handleEvent_changed (io_of 0%nat) m e Hs) as (m1 & H1 & Hs1 & Hh1 & Hsp1 & Hd1).
    { by rewrite He1. }
    { by rewrite He1, He2. }
    { done. }
    rewrite H1. cbn.
    assert (Hentry : entry (mappings m1) proto inner = Some (OuterAddr e)).
    { rewrite (handleEvent_entry _ _ _ _ _ _ H1). unfold overwrite.
      by rewrite bool_decide_eq_true_2. }
    destruct (IH (io_of ∘ S) m1 Hs1) as (m' & Hrun & Hsp & Hd).
    { by rewrite Hh1. }
    { by rewrite Hentry. }
    exists m'. split; [exact Hrun|]. split.
    + rewrite Hsp, Hsp1, length_app. cbn. lia.
    + intros Hok. rewrite Hd by (intros k; apply Hok). rewrite Hd1 by apply Hok. lia.
Qed.

Lemma changes_fresh_chain (last : string) (cur : option string) (obs : list string) :
  cur = Some last \/ cur = None -> fresh_chain cur (changes last obs).
Proof.
  revert last cur. induction obs as [|o obs IH]; intros last cur Hcur; cbn; [done|].
  case_bool_decide as Heq; [by apply IH|]. cbn. split.
  - destruct Hcur as [-> | ->]; congruence.
  - apply IH. by left.
Qed.

(** X5. Every event a worker sends changes the table: fed to a fresh
    status manager with a hook configured, the events of one worker for
    a protocol the manager knows are handled without a panic and each of
    them spawns the hook, and each of them rewrites the file when the
    file operations succeed. *)
Theorem worker_events_all_take_effect (p : Sock.Platform) (client : Stun.Client)
    (outboundIP proto : string) (addr : Sock.Addr)
    (worlds : list (nat -> Stun.Attempt)) (hook : string) (io_of : nat -> IO)
    (evs : list UpdateEvent) :
  known proto -> hook <> "" ->
  runWorker p client outboundIP proto addr worlds = Returns evs ->
  exists m,
    Run (fresh hook) (imap (fun k e => (e, io_of k)) evs) = Returns m
    /\ length (spawned m) = length evs
    /\ ((forall k, io_of k = all_ok) -> length (documents m) = length evs).
Proof.
  intros Hk Hhook. unfold runWorker.
  destruct (formatInner (addr_String addr) outboundIP) as [inner|]; cbn; [|discriminate].
  intros [= <-].
  destruct (Run_fresh_chain proto inner
              (worker_loop p client proto (Sock.Port addr) inner "" worlds)
              io_of (fresh hook)) as (m & Hrun & Hsp & Hd).
  - apply fresh_seeded.
  - done.
  - done.
  - apply worker_loop_events.
  - rewrite worker_loop_changes. apply changes_fresh_chain. right.
    unfold entry, fresh; cbn. destruct Hk as [-> | ->].
    + by rewrite lookup_insert_eq.
    + rewrite lookup_insert_ne by done. by rewrite lookup_singleton_eq.
  - exists m. cbn in Hsp, Hd. split; [exact Hrun|]. split; [exact Hsp|]. exact Hd.
Qed.

Lemma worker_events_all_take_effect_witness :
  let client := Stun.SetBindIP
                  (Stun.NewClient ["stun.l.google.com"] [] Sock.second) "192.168.1.10" in
  let addr := {| Sock.IP := "0.0.0.0"; Sock.Port := 34567 |} in
  exists evs m,
    runWorker Sock.Unix client "192.168.1.10" "tcp" addr drift = Returns evs
    /\ Run (fresh "echo {outer}") (imap (fun k e => (e, all_ok)) evs) = Returns m
    /\ length (spawned m) = 2%nat.
Proof.
  intros client addr. eexists.
  assert (Hrun : runWorker Sock.Unix client "192.168.1.10" "tcp" addr drift
                 = Returns _) by (vm_compute; reflexivity).
  destruct (worker_events_all_take_effect Sock.Unix client "192.168.1.10" "tcp" addr
              drift "echo {outer}" (fun _ => all_ok) _ (or_introl eq_refl)
              ltac:(discriminate) Hrun) as (m & Hm & Hsp & _).
  exists m. split; [exact Hrun|]. split; [exact Hm|]. rewrite Hsp. reflexivity.
Defined.

(** *** The hook command *)

Lemma replace_absent (old new s : string) :
  occurs old s = false -> replace_from old new s 0 = s.
Proof.
  induction s as [|c s IH]; [reflexivity|]. cbn [occurs replace_from].
  intros H. apply orb_false_iff in H as [Hp Hs]. rewrite Hp. by rewrite IH.
Qed.

(** X6. A hook template in which none of [{inner}], [{outer}] and
    [{protocol}] occurs is handed to the shell as it is. *)
Theorem expandHook_without_placeholders (m : StatusManager) (ev : UpdateEvent) :
  occurs "{inner}" (hookCmd m) = false ->
  occurs "{outer}" (hookCmd m) = false ->
  occurs "{protocol}" (hookCmd m) = false ->
  expandHook m ev = hookCmd m.
Proof.
  intros Hi Ho Hp. unfold expandHook, ReplaceAll.
  by rewrite (replace_absent _ _ _ Hi), (replace_absent _ _ _ Ho), (replace_absent _ _ _ Hp).
Qed.

Lemma expandHook_without_placeholders_witness :
  expandHook (fresh "logger mapping changed")
    {| Protocol := "tcp"; InnerAddr := "192.168.1.10:34567";
       OuterAddr := "203.0.113.4:51900" |}
  = "logger mapping changed".
Proof.
  apply (expandHook_without_placeholders (fresh "logger mapping changed")); reflexivity.
Defined.

End PublishFacts.

(** ** The STUN probe, in general *)

Module ProbeFacts.
Import GoStr Stun Probe.

Section Loops.
Variables (p : Sock.Platform) (c : Client) (srcPort : Z) (world : nat -> Attempt).

Lemma servers_tried_tcp (servers : list string) :
  omap server_of (tcp_dial p c srcPort <$> servers) = stun_addr <$> servers.
Proof. induction servers as [|s rest IH]; cbn; [done | by rewrite IH]. Qed.

Lemma tcp_loop_tried (servers : list string) (i : nat) (log : list Contact) :
  exists n, (n <= length servers)%nat
    /\ contacted (tcp_loop p c srcPort servers world i log)
       = log ++ (tcp_dial p c srcPort <$> take n servers).
Proof.
  revert i log. induction servers as [|s rest IH]; intros i log.
  - exists 0%nat. cbn. by rewrite app_nil_r.
  - cbn [tcp_loop].
    assert (Hnext : exists n, (n <= length (s :: rest))%nat
              /\ contacted (tcp_loop p c srcPort rest world (S i)
                   (log ++ [tcp_dial p c srcPort s]))
                 = log ++ (tcp_dial p c srcPort <$> take n (s :: rest))).
    { destruct (IH (S i) (log ++ [tcp_dial p c srcPort s])) as (n & Hn & ->).
      exists (S n). split; [cbn; lia|]. cbn. by rewrite <- app_assoc. }
    destruct (world i) as [| |[cb|ev]]; try exact Hnext.
    destruct (callback_error ev); [exact Hnext|].
    exists 1%nat. split; [cbn; lia|]. cbn. by rewrite take_0.
Qed.

Lemma tcp_loop_shape (servers : list string) (i : nat) (log : list Contact) :
  let r := tcp_loop p c srcPort servers world i log in
  (mapping r = None /\ err r = Some AllTCPFailed)
  \/ (exists x, mapping r = Some (mk_mapping (local_addr c srcPort) x) /\ err r = None).
Proof.
  revert i log. induction servers as [|s rest IH]; intros i log; cbn; [by left|].
  destruct (world i) as [| |[cb|ev]]; try apply IH.
  destruct (callback_error ev); [apply IH|]. right. eauto.
Qed.

Lemma udp_loop_shape (servers : list string) (i : nat) (log : list Contact) :
  let r := udp_loop c srcPort servers world i log in
  (mapping r = None /\ err r = Some AllUDPFailed)
  \/ (exists x, mapping r = Some (mk_mapping (local_addr c srcPort) x) /\ err r = None).
Proof.
  revert i log. induction servers as [|s rest IH]; intros i log; cbn; [by left|].
  destruct (world i) as [| |[cb|ev]]; try apply IH. right. eauto.
Qed.

Lemma udp_loop_tried (servers : list string) (i : nat) (log : list Contact) :
  exists n, (n <= length servers)%nat
    /\ omap server_of (contacted (udp_loop c srcPort servers world i log))
       = omap server_of log ++ (stun_addr <$> take n servers).
Proof.
  revert i log. induction servers as [|s rest IH]; intros i log.
  - exists 0%nat. cbn. by rewrite app_nil_r.
  - cbn [udp_loop].
    assert (Hnext : forall extra, omap server_of extra = [stun_addr s] ->
              exists n, (n <= length (s :: rest))%nat
              /\ omap server_of (contacted (udp_loop c srcPort rest world (S i) (log ++ extra)))
                 = omap server_of log ++ (stun_addr <$> take n (s :: rest))).
    { intros extra Hextra. destruct (IH (S i) (log ++ extra)) as (n & Hn & ->).
      exists (S n). split; [cbn; lia|]. rewrite omap_app, Hextra. cbn.
      by rewrite <- app_assoc. }
    destruct (world i) as [| |[cb|ev]]; try (by apply Hnext).
    exists 1%nat. split; [cbn; lia|]. cbn [contacted]. rewrite omap_app. cbn.
    by rewrite take_0.
Qed.

Lemma udp_loop_all_rejected (servers : list string) (i : nat) (log : list Contact) :
  (forall j, (j < length servers)%nat -> udp_accepts (world (i + j)) = None) ->
  let r := udp_loop c srcPort servers world i log in
  mapping r = None /\ err r = Some AllUDPFailed
  /\ omap server_of (contacted r) = omap server_of log ++ (stun_addr <$> servers).
Proof.
  revert i log. induction servers as [|s rest IH]; intros i log Hrej.
  - cbn. by rewrite app_nil_r.
  - assert (Hrest : forall j, (j < length rest)%nat -> udp_accepts (world (S i + j)) = None).
    { intros j Hj. replace (S i + j)%nat with (i + S j)%nat by lia.
      apply Hrej. cbn. lia. }
    specialize (Hrej 0%nat ltac:(cbn; lia)). rewrite Nat.add_0_r in Hrej.
    cbn [udp_loop]. cbv zeta in *.
    destruct (world i) as [| |[cb|ev]]; cbn in Hrej; try discriminate;
      match goal with |- context [udp_loop c srcPort rest world (S i) ?l] =>
        destruct (IH (S i) l Hrest) as (H1 & H2 & H3) end;
      rewrite H1, H2, H3; (split; [done|]); (split; [done|]);
      rewrite omap_app; cbn; by rewrite <- app_assoc.
Qed.

Lemma udp_loop_first_accepted (before : list string) (s : string)
    (after : list string) (x : XORMappedAddress) (i : nat) (log : list Contact) :
  (forall j, (j < length before)%nat -> udp_accepts (world (i + j)) = None) ->
  udp_accepts (world (i + length before)) = Some x ->
  let r := udp_loop c srcPort (before ++ s :: after) world i log in
  mapping r = Some (mk_mapping (local_addr c srcPort) x) /\ err r = None
  /\ omap server_of (contacted r)
     = omap server_of log ++ (stun_addr <$> before) ++ [stun_addr s].
Proof.
  revert i log. induction before as [|b rest IH]; intros i log Hrej Hok.
  - cbn in Hok. rewrite Nat.add_0_r in Hok. cbn [app udp_loop]. cbv zeta.
    destruct (world i) as [| |[cb|ev]]; cbn in Hok; try discriminate.
    injection Hok as <-. cbn [mapping err contacted]. split; [done|]. split; [done|].
    rewrite omap_app. reflexivity.
  - assert (Hrest : forall j, (j < length rest)%nat -> udp_accepts (world (S i + j)) = None).
    { intros j Hj. replace (S i + j)%nat with (i + S j)%nat by lia.
      apply Hrej. cbn. lia. }
    assert (Hok' : udp_accepts (world (S i + length rest)) = Some x).
    { replace (S i + length rest)%nat with (i + length (b :: rest))%nat by (cbn; lia).
      exact Hok. }
    specialize (Hrej 0%nat ltac:(cbn; lia)). rewrite Nat.add_0_r in Hrej.
    cbn [app udp_loop]. cbv zeta in *.
    destruct (world i) as [| |[cb|ev]]; cbn in Hrej; try discriminate;
      match goal with |- context [udp_loop c srcPort (rest ++ s :: after) world (S i) ?l] =>
        destruct (IH (S i) l Hrest Hok') as (H1 & H2 & H3) end;
      rewrite H1, H2, H3; (split; [done|]); (split; [done|]);
      rewrite omap_app; cbn; by rewrite <- app_assoc.
Qed.

End Loops.

Lemma split_at (servers : list string) (k : nat) :
  (k < length servers)%nat ->
  exists s, servers !! k = Some s
            /\ servers = take k servers ++ s :: drop (S k) servers
            /\ length (take k servers) = k
            /\ take (S k) servers = take k servers ++ [s].
Proof.
  intros Hk. destruct (lookup_lt_is_Some_2 servers k Hk) as [s Hs]. exists s.
  split; [done|]. split; [by rewrite take_drop_middle|].
  split; [rewrite length_take; lia|]. by apply take_S_r.
Qed.

Lemma tcp_first_success_at (p : Sock.Platform) (c : Client) (srcPort : Z)
    (world : nat -> Attempt) (k : nat) (x : XORMappedAddress) :
  (k < length (tcpServers c))%nat ->
  (forall j, (j < k)%nat -> succeeds (world j) = None) ->
  succeeds (world k) = Some x ->
  let r := GetTCPMapping p c srcPort world in
  mapping r = Some {| InternalIP := bindIP c; InternalPort := srcPort;
                      ExternalIP := XorIP x; ExternalPort := XorPort x |}
  /\ err r = None
  /\ servers_tried r = stun_addr <$> take (S k) (tcpServers c).
Proof.
  intros Hk Hfail Hok. destruct (split_at _ _ Hk) as (s & _ & Hsplit & Hlen & Htake).
  pose proof (StunFacts.tcp_loop_first_success p c srcPort world
                (take k (tcpServers c)) s (drop (S k) (tcpServers c)) x 0 []) as Hloop.
  rewrite <- Hsplit in Hloop. cbv zeta. unfold GetTCPMapping, servers_tried.
  rewrite Hloop.
  - cbn [mapping err contacted app]. split; [reflexivity|]. split; [reflexivity|].
    change [tcp_dial p c srcPort s] with (tcp_dial p c srcPort <$> [s]).
    rewrite Htake, <- fmap_app. apply servers_tried_tcp.
  - intros j Hj. apply Hfail. cbn. lia.
  - cbn. by rewrite Hlen.
Qed.

(** X7. [GetTCPMapping] returns the mapping the first server with a
    successful transaction reports, with a nil error, after dialling the
    servers of the list in order up to that one and none after it. *)
Theorem GetTCPMapping_first_success (p : Sock.Platform) (c : Client) (srcPort : Z)
    (world : nat -> Attempt) (k : nat) (x : XORMappedAddress) :
  (k < length (tcpServers c))%nat ->
  (forall j, (j < k)%nat -> succeeds (world j) = None) ->
  succeeds (world k) = Some x ->
  let r := GetTCPMapping p c srcPort world in
  mapping r = Some {| InternalIP := bindIP c; InternalPort := srcPort;
                      ExternalIP := XorIP x; ExternalPort := XorPort x |}
  /\ err r = None
  /\ servers_tried r = stun_addr <$> take (S k) (tcpServers c).
Proof. apply tcp_first_success_at. Qed.

Lemma GetTCPMapping_first_success_witness :
  let c := SetBindIP (NewClient ["stun.l.google.com"; "stun1.l.google.com"] [] Sock.second)
             "192.168.1.10" in
  let world i := match i with
                 | O => DialFails
                 | _ => Transacts (DoReturns (EvMessage
                          (Some {| XorIP := "203.0.113.4"; XorPort := 51900 |})))
                 end in
  servers_tried (GetTCPMapping Sock.Unix c 34567 world)
  = ["stun.l.google.com:3478"; "stun1.l.google.com:3478"].
Proof.
  intros c world.
  refine (proj2 (proj2 (GetTCPMapping_first_success Sock.Unix c 34567 world 1
            {| XorIP := "203.0.113.4"; XorPort := 51900 |} _ _ _))).
  - cbn. lia.
  - intros j Hj. assert (j = 0%nat) as -> by lia. reflexivity.
  - reflexivity.
Defined.

(** X8. [GetTCPMapping] returns a nil mapping and the error "all TCP
    STUN servers failed" exactly when no server of the list completes a
    successful transaction, and it has then dialled every server of the
    list once, in order. *)
Theorem GetTCPMapping_fails_iff (p : Sock.Platform) (c : Client) (srcPort : Z)
    (world : nat -> Attempt) :
  let r := GetTCPMapping p c srcPort world in
  (err r = Some AllTCPFailed
   <-> forall j, (j < length (tcpServers c))%nat -> succeeds (world j) = None)
  /\ (err r = Some AllTCPFailed ->
      mapping r = None
      /\ error_text AllTCPFailed = "all TCP STUN servers failed"
      /\ servers_tried r = stun_addr <$> tcpServers c).
Proof.
  cbv zeta.
  assert (Hall : (forall j, (j < length (tcpServers c))%nat -> succeeds (world j) = None) ->
            GetTCPMapping p c srcPort world
            = {| mapping := None; err := Some AllTCPFailed;
                 contacted := tcp_dial p c srcPort <$> tcpServers c |}).
  { intros H. unfold GetTCPMapping.
    by rewrite (StunFacts.tcp_loop_all_fail p c srcPort world (tcpServers c) 0 []). }
  assert (Hiff : err (GetTCPMapping p c srcPort world) = Some AllTCPFailed
            <-> forall j, (j < length (tcpServers c))%nat -> succeeds (world j) = None).
  { split; [|by intros H; rewrite (Hall H)].
    intros Herr.
    (* a first success would give a nil error *)
    assert (Hno : forall n j, (j < n)%nat -> (n <= length (tcpServers c))%nat ->
              succeeds (world j) = None).
    { induction n as [|n IHn]; intros j Hj Hn; [lia|].
      destruct (decide (j = n)) as [->|Hne]; [|apply IHn; lia].
      destruct (succeeds (world n)) as [x|] eqn:Hx; [|done].
      destruct (tcp_first_success_at p c srcPort world n x) as (_ & Hnil & _);
        [lia | intros; apply IHn; lia | done |].
      congruence. }
    intros j Hj. by apply (Hno (length (tcpServers c))). }
  split; [exact Hiff|]. intros Herr. rewrite (Hall (proj1 Hiff Herr)).
  cbn. split; [done|]. split; [done|]. unfold servers_tried; cbn.
  apply servers_tried_tcp.
Qed.

Lemma GetTCPMapping_fails_iff_witness :
  let c := SetBindIP (NewClient ["stun.l.google.com"; "stun1.l.google.com"] [] Sock.second)
             "192.168.1.10" in
  let r := GetTCPMapping Sock.Unix c 34567 (fun _ => DialFails) in
  mapping r = None
  /\ error_text AllTCPFailed = "all TCP STUN servers failed"
  /\ servers_tried r = ["stun.l.google.com:3478"; "stun1.l.google.com:3478"].
Proof.
  intros c r.
  destruct (GetTCPMapping_fails_iff Sock.Unix c 34567 (fun _ => DialFails)) as [Hiff Hthen].
  apply Hthen. apply Hiff. reflexivity.
Defined.

(** X9. [GetUDPMapping] returns at the first server for which [Do]
    returns nil: the mapping carries what the callback left in
    [xorAddr], which is the zero address (nil IP, port 0) unless the
    event was a message with an XOR-MAPPED-ADDRESS, the error is nil, and
    the servers resolved are those of the list up to that one, in
    order. *)
Theorem GetUDPMapping_first_accepted (c : Client) (srcPort : Z)
    (world : nat -> Attempt) (k : nat) (ev : Event) :
  (k < length (udpServers c))%nat ->
  (forall j, (j < k)%nat -> udp_accepts (world j) = None) ->
  world k = Transacts (DoReturns ev) ->
  let r := GetUDPMapping c srcPort world in
  mapping r = Some {| InternalIP := bindIP c; InternalPort := srcPort;
                      ExternalIP := XorIP (xor_after ev);
                      ExternalPort := XorPort (xor_after ev) |}
  /\ err r = None
  /\ servers_tried r = stun_addr <$> take (S k) (udpServers c)
  /\ (succeeds (world k) = None -> xor_after ev = {| XorIP := "<nil>"; XorPort := 0 |}).
Proof.
  intros Hk Hrej Hw. destruct (split_at _ _ Hk) as (s & _ & Hsplit & Hlen & Htake).
  pose proof (udp_loop_first_accepted c srcPort world
                (take k (udpServers c)) s (drop (S k) (udpServers c))
                (xor_after ev) 0 []) as Hloop.
  rewrite <- Hsplit in Hloop. cbv zeta in *. unfold GetUDPMapping, servers_tried.
  destruct Hloop as (Hm & He & Ht).
  - intros j Hj. apply Hrej. cbn. lia.
  - cbn. by rewrite Hlen, Hw.
  - rewrite Hm, He, Ht. split; [reflexivity|]. split; [reflexivity|]. split.
    + cbn. by rewrite Htake, fmap_app.
    + rewrite Hw. by destruct ev as [|[x|]].
Qed.

Lemma GetUDPMapping_first_accepted_witness :
  let r := GetUDPMapping two_udp_servers 34567 first_times_out in
  mapping r = Some {| InternalIP := "192.168.1.10"; InternalPort := 34567;
                      ExternalIP := "<nil>"; ExternalPort := 0 |}
  /\ err r = None
  /\ servers_tried r = ["stun1.example:3478"].
Proof.
  intros r.
  destruct (GetUDPMapping_first_accepted two_udp_servers 34567 first_times_out 0 EvError)
    as (Hm & He & Ht & _).
  - cbn. lia.
  - intros j Hj. lia.
  - reflexivity.
  - split; [exact Hm|]. split; [exact He|]. exact Ht.
Defined.

(** X10. Both probes return either a mapping with a nil error or a nil
    mapping with an error, never both or neither; a mapping carries the
    bind IP and the source port it was asked for as its internal address;
    and the servers tried are an initial part of the configured list, in
    its order, each once. *)
Theorem probe_results_well_formed (p : Sock.Platform) (c : Client) (srcPort : Z)
    (world : nat -> Attempt) :
  let good (r : Result) (servers : list string) :=
    (mapping r = None <-> err r <> None)
    /\ (forall mp, mapping r = Some mp ->
          InternalIP mp = bindIP c /\ InternalPort mp = srcPort)
    /\ (exists n, (n <= length servers)%nat
                  /\ servers_tried r = stun_addr <$> take n servers) in
  good (GetTCPMapping p c srcPort world) (tcpServers c)
  /\ good (GetUDPMapping c srcPort world) (udpServers c).
Proof.
  cbv zeta. split.
  - unfold GetTCPMapping.
    destruct (tcp_loop_tried p c srcPort world (tcpServers c) 0 []) as (n & Hn & Hc).
    destruct (tcp_loop_shape p c srcPort world (tcpServers c) 0 [])
      as [[Hm He]|(x & Hm & He)]; rewrite Hm, He;
      (split; [split; congruence|]); (split; [try congruence|]).
    + exists n. split; [done|]. unfold servers_tried. rewrite Hc. apply servers_tried_tcp.
    + intros mp [= <-]. done.
    + exists n. split; [done|]. unfold servers_tried. rewrite Hc. apply servers_tried_tcp.
  - unfold GetUDPMapping.
    destruct (udp_loop_tried c srcPort world (udpServers c) 0 []) as (n & Hn & Hc).
    destruct (udp_loop_shape c srcPort world (udpServers c) 0 [])
      as [[Hm He]|(x & Hm & He)]; rewrite Hm, He;
      (split; [split; congruence|]); (split; [try congruence|]).
    + exists n. split; [done|]. unfold servers_tried. by rewrite Hc.
    + intros mp [= <-]. done.
    + exists n. split; [done|]. unfold servers_tried. by rewrite Hc.
Qed.

End ProbeFacts.

(** ** The keep-alive loops over whole runs *)

Module TraceFacts.
Import GoStr Keepalive Trace KeepaliveFacts.

Lemma backoff_after_range (i : Z) (k : nat) :
  0 < i < 2 ^ 62 -> 0 < backoff_after i k < 2 ^ 62.
Proof.
  intros Hi. destruct k as [|k]; cbn [backoff_after]; [done|].
  assert (0 < 2 ^ Z.of_nat (S k)) by (apply Z.pow_pos_nonneg; lia).
  change (60 * second) with 60000000000.
  change (2 ^ 62) with 4611686018427387904 in *. nia.
Qed.

Lemma backoff_after_step (i : Z) (k : nat) :
  0 < i < 2 ^ 62 -> next_backoff (backoff_after i k) = backoff_after i (S k).
Proof.
  intros Hi. pose proof (backoff_after_range i k Hi) as Hr.
  rewrite next_backoff_in_range by lia.
  destruct k as [|k]; cbn [backoff_after].
  - change (2 ^ Z.of_nat 1) with 2. reflexivity.
  - rewrite (Nat2Z.inj_succ (S k)), Z.pow_succ_r by lia.
    set (q := 2 ^ Z.of_nat (S k)) in *.
    change (60 * second) with 60000000000. lia.
Qed.

Lemma loop_failed_dials (laddr : Sock.Addr) (host : string) (i : Z)
    (ws : list World) (k : nat) :
  0 < i < 2 ^ 62 -> Forall dial_fails ws ->
  loop laddr host i {| connected := false; backoff := backoff_after i k |} ws
  = (flat_map (fun j => [ADial (keepalive_dialer laddr) (JoinHostPort host "80");
                         AWait (backoff_after i j)])
       (seq k (length ws)),
     Some {| connected := false; backoff := backoff_after i (k + length ws) |}).
Proof.
  intros Hi Hall. revert k. induction Hall as [|w ws [Hd Hc] _ IH]; intros k.
  - cbn. by rewrite Nat.add_0_r.
  - cbn [loop]. rewrite turn_dial_failed by done. rewrite Hc. cbn [backoff].
    rewrite backoff_after_step by done. rewrite IH. cbn.
    by replace (k + S (length ws))%nat with (S k + length ws)%nat by lia.
Qed.

Lemma waits_failed_dials (laddr : Sock.Addr) (host : string) (i : Z) (k n : nat) :
  waits (flat_map (fun j => [ADial (keepalive_dialer laddr) (JoinHostPort host "80");
                             AWait (backoff_after i j)]) (seq k n))
  = backoff_after i <$> seq k n.
Proof.
  revert k. induction n as [|n IH]; intros k; cbn; [done|].
  f_equal. apply IH.
Qed.

Lemma dials_failed_dials (laddr : Sock.Addr) (host : string) (i : Z) (k n : nat) :
  dials (flat_map (fun j => [ADial (keepalive_dialer laddr) (JoinHostPort host "80");
                             AWait (backoff_after i j)]) (seq k n))
  = n.
Proof.
  unfold dials. revert k. induction n as [|n IH]; intros k; cbn; [done|].
  f_equal. apply IH.
Qed.

(** X11. After [n] failed dials in a row from the start, none of them
    cancelled, the loop has dialled [n] times and waited after each
    failure: the clamped interval after the first, whatever its size,
    and [min (2^k * interval) 60s] after failure [k + 1] for [k >= 1],
    so only the waits after the first are capped at 60 seconds. Its
    backoff is then the clamped interval for [n = 0] and
    [min (2^n * interval) 60s] for [n >= 1] (for a clamped interval
    below 2^62 ns). *)
Theorem backoff_sequence (laddr : Sock.Addr) (host : string) (interval : Z)
    (ws : list World) :
  minInterval interval < 2 ^ 62 -> Forall dial_fails ws ->
  let r := TCPKeepAlive laddr host interval ws in
  waits r.1 = backoff_after (minInterval interval) <$> seq 0 (length ws)
  /\ dials r.1 = length ws
  /\ r.2 = Some {| connected := false;
                   backoff := backoff_after (minInterval interval) (length ws) |}.
Proof.
  intros Hi Hall. pose proof (minInterval_pos interval) as Hpos.
  cbv zeta. unfold TCPKeepAlive, initial.
  pose proof (loop_failed_dials laddr host (minInterval interval) ws 0
                ltac:(lia) Hall) as Hloop.
  cbn [backoff_after] in Hloop. rewrite Hloop. cbn [fst snd].
  split; [apply waits_failed_dials|]. split; [apply dials_failed_dials | done].
Qed.

Lemma backoff_sequence_witness :
  let laddr := {| Sock.IP := "192.168.1.10"; Sock.Port := 34567 |} in
  let fails := {| dial_ok := false; write_ok := true; reads := 0;
                  read_timeout := true; cancelled := false |} in
  let r := TCPKeepAlive laddr "www.qq.com" (10 * second) [fails; fails; fails; fails] in
  waits r.1 = [10 * second; 20 * second; 40 * second; 60 * second]
  /\ r.2 = Some {| connected := false; backoff := 60 * second |}.
Proof.
  intros laddr fails r. subst r.
  destruct (backoff_sequence laddr "www.qq.com" (10 * second) [fails; fails; fails; fails])
    as (Hw & _ & Hst).
  - vm_compute; reflexivity.
  - repeat constructor.
  - split; [rewrite Hw | rewrite Hst]; vm_compute; reflexivity.
Defined.

(** X12. Whatever the outside world does, the backoff of the loop stays
    positive and never exceeds the larger of the clamped interval and
    60 seconds (for a clamped interval below 2^62 ns). *)
Theorem backoff_bounded (laddr : Sock.Addr) (host : string) (interval : Z)
    (ws : list World) (st : State) :
  minInterval interval < 2 ^ 62 ->
  (TCPKeepAlive laddr host interval ws).2 = Some st ->
  0 < backoff st <= Z.max (minInterval interval) (60 * second).
Proof.
  intros Hi Hrun. pose proof (minInterval_pos interval) as Hpos.
  eapply loop_backoff_range; [| |exact Hrun]; cbn; lia.
Qed.

Lemma backoff_bounded_witness :
  let laddr := {| Sock.IP := "192.168.1.10"; Sock.Port := 34567 |} in
  let fails := {| dial_ok := false; write_ok := true; reads := 0;
                  read_timeout := true; cancelled := false |} in
  0 < 40 * second <= Z.max (minInterval (10 * second)) (60 * second).
Proof.
  intros laddr fails.
  apply (backoff_bounded laddr "www.qq.com" (10 * second) [fails; fails]
           {| connected := false; backoff := 40 * second |});
    vm_compute; reflexivity.
Defined.

Lemma turn_connected_backoff (laddr : Sock.Addr) (host : string) (i : Z)
    (st st' : State) (w : World) :
  (connected st = true -> backoff st = i) ->
  (turn laddr host i st w).2 = Some st' ->
  connected st' = true -> backoff st' = i.
Proof.
  intros Hinv. unfold turn.
  destruct (connected st) eqn:Hc, (dial_ok w), (write_ok w), (cancelled w); cbn;
    intros [= <-]; cbn; try discriminate; intros _; auto.
Qed.

(** X13. Whenever the loop holds a connection, its backoff is the clamped
    interval: a backoff that grew while dialling failed is forgotten at
    the connect and cannot change while connected. *)
Theorem connected_backoff_is_interval (laddr : Sock.Addr) (host : string)
    (interval : Z) (ws : list World) (st : State) :
  (TCPKeepAlive laddr host interval ws).2 = Some st ->
  connected st = true -> backoff st = minInterval interval.
Proof.
  unfold TCPKeepAlive.
  assert (Hgen : forall st0, (connected st0 = true -> backoff st0 = minInterval interval) ->
            (loop laddr host (minInterval interval) st0 ws).2 = Some st ->
            connected st = true -> backoff st = minInterval interval).
  { induction ws as [|w ws IH]; intros st0 Hinv; cbn.
    - intros [= <-]. exact Hinv.
    - destruct (turn laddr host (minInterval interval) st0 w) as [acts [st1|]] eqn:Ht;
        cbn; [|discriminate].
      apply IH. eapply turn_connected_backoff; [exact Hinv|]. by rewrite Ht. }
  apply Hgen. cbn. discriminate.
Qed.

Lemma connected_backoff_is_interval_witness :
  let laddr := {| Sock.IP := "192.168.1.10"; Sock.Port := 34567 |} in
  let fails := {| dial_ok := false; write_ok := true; reads := 0;
                  read_timeout := true; cancelled := false |} in
  let works := {| dial_ok := true; write_ok := true; reads := 0;
                  read_timeout := true; cancelled := false |} in
  exists st, (TCPKeepAlive laddr "www.qq.com" (10 * second) [fails; fails; works]).2 = Some st
             /\ backoff st = 10 * second.
Proof.
  intros laddr fails works. eexists. split; [vm_compute; reflexivity|].
  apply (connected_backoff_is_interval laddr "www.qq.com" (10 * second)
           [fails; fails; works]); vm_compute; reflexivity.
Defined.

Lemma waits_app (a b : list Action) : waits (a ++ b) = waits a ++ waits b.
Proof. apply omap_app. Qed.


Lemma dials_app (a b : list Action) : dials (a ++ b) = (dials a + dials b)%nat.
Proof. unfold dials. by rewrite omap_app, length_app. Qed.






Lemma turn_write_fails (laddr : Sock.Addr) (host : string) (i : Z) (st : State) (w : World) :
  write_fails w -> connected st = false ->
  exists acts,
    turn laddr host i st w = (acts, Some {| connected := false; backoff := i |})
    /\ waits acts = [] /\ dials acts = 1%nat.
Proof.
  intros (Hd & Hw) Hc. unfold turn. rewrite Hd, Hw, Hc. cbn. eauto.
Qed.

(** X15. A failed write is followed at once by a new dial: through any
    number of turns in which the dial succeeds and the write fails, the
    loop dials once per turn and never waits. *)
Theorem write_failures_are_not_paced (laddr : Sock.Addr) (host : string)
    (interval : Z) (ws : list World) :
  Forall write_fails ws ->
  let r := TCPKeepAlive laddr host interval ws in
  waits r.1 = [] /\ dials r.1 = length ws /\ is_Some r.2.
Proof.
  intros Hall. cbv zeta. unfold TCPKeepAlive.
  assert (Hgen : forall st, connected st = false ->
            waits (loop laddr host (minInterval interval) st ws).1 = []
            /\ dials (loop laddr host (minInterval interval) st ws).1 = length ws
            /\ is_Some (loop laddr host (minInterval interval) st ws).2).
  { induction Hall as [|w ws Hw _ IH]; intros st Hc; cbn [loop].
    - cbn. eauto.
    - destruct (turn_write_fails laddr host (minInterval interval) st w Hw Hc)
        as (a1 & -> & W1 & D1).
      destruct (IH {| connected := false; backoff := minInterval interval |} eq_refl)
        as (W2 & D2 & S2).
      cbn [fst snd]. rewrite waits_app, dials_app, W1, W2, D1, D2. auto. }
  by apply Hgen.
Qed.

Lemma write_failures_are_not_paced_witness :
  let laddr := {| Sock.IP := "192.168.1.10"; Sock.Port := 34567 |} in
  let resets := {| dial_ok := true; write_ok := false; reads := 0;
                   read_timeout := true; cancelled := false |} in
  waits (TCPKeepAlive laddr "www.qq.com" (10 * second) [resets; resets; resets]).1 = [].
Proof.
  intros laddr resets.
  apply (write_failures_are_not_paced laddr "www.qq.com" (10 * second)
           [resets; resets; resets]).
  repeat constructor.
Defined.

(** *** UDP *)

Lemma packet_tail (txid : list byte) :
  length txid = 2%nat -> drop 2 (packet txid) = query_tail /\ length (packet txid) = 34%nat.
Proof.
  destruct txid as [|b0 [|b1 [|b2 rest]]]; try discriminate. intros _.
  split; reflexivity.
Qed.

Lemma datagrams_app (a b : list UAction) :
  datagrams (a ++ b) = datagrams a ++ datagrams b.
Proof. apply omap_app. Qed.

Lemma uturn_datagrams (port : Z) (w : UWorld) :
  (length (datagrams (uturn port w).1) <= 1)%nat
  /\ Forall (fun d => length d = 34%nat /\ drop 2 d = query_tail)
       (datagrams (uturn port w).1).
Proof.
  unfold uturn. destruct (resolve port w); cbn; [|split; [lia | constructor]].
  split; [lia|]. apply Forall_singleton.
  destruct (packet_tail (txid_of (rand_source w)) (txid_length _)). auto.
Qed.

(** X16. Over a whole run of [UDPKeepAlive], whatever the resolver, the
    random source and the context do, there is at most one datagram per
    turn, every datagram has 34 bytes and the same 32 bytes after its
    transaction ID, and nothing is done after a turn on which the context
    was cancelled. *)
Theorem udp_keepalive_run (port : Z) (ws : list UWorld) :
  (length (datagrams (UDPKeepAlive port ws)) <= length ws)%nat
  /\ Forall (fun d => length d = 34%nat /\ drop 2 d = query_tail)
       (datagrams (UDPKeepAlive port ws))
  /\ (forall ws1 w ws2, ws = ws1 ++ w :: ws2 -> ucancelled w = true ->
        UDPKeepAlive port ws = UDPKeepAlive port (ws1 ++ [w])).
Proof.
  split; [|split].
  - induction ws as [|w ws IH]; cbn [UDPKeepAlive]; [done|].
    rewrite datagrams_app, length_app.
    pose proof (uturn_datagrams port w) as [Hone _].
    assert (Hrest : (length (datagrams (if (uturn port w).2
                                        then UDPKeepAlive port ws else [])) <= length ws)%nat).
    { destruct (uturn port w).2; [exact IH | cbn; lia]. }
    cbn [length]. lia.
  - induction ws as [|w ws IH]; cbn [UDPKeepAlive]; [constructor|].
    rewrite datagrams_app. apply Forall_app. split.
    + apply uturn_datagrams.
    + destruct (uturn port w).2; [exact IH | constructor].
  - intros ws1 w ws2 -> Hc. induction ws1 as [|w1 ws1 IH]; cbn [app UDPKeepAlive].
    + assert ((uturn port w).2 = false) as ->; [|done].
      unfold uturn. destruct (resolve port w); cbn; by rewrite Hc.
    + destruct (uturn port w1).2; [by rewrite IH | done].
Qed.

Lemma udp_keepalive_run_witness :
  let goes := {| parsed_ip := Some "119.29.29.29"; dns_answer := None;
                 rand_source := CryptoRand x12 x34; ucancelled := false |} in
  let ends := {| parsed_ip := Some "119.29.29.29"; dns_answer := None;
                 rand_source := MathRand 4660; ucancelled := true |} in
  UDPKeepAlive 34567 [goes; ends; goes; goes] = UDPKeepAlive 34567 [goes; ends].
Proof.
  intros goes ends.
  apply (proj2 (proj2 (udp_keepalive_run 34567 [goes; ends; goes; goes]))
           [goes] ends [goes; goes]); reflexivity.
Defined.

End TraceFacts.

(** ** Ports as text and back *)

Module PortFacts.
Import GoStr Orchestrator Main GoStrFacts OrchestratorFacts WorkerFacts.

Lemma pretty_char_digit (d : N) :
  (d < 10)%N ->
  is_digit (pretty_N_char d) = true
  /\ digit_val (pretty_N_char d) = Z.of_N d
  /\ Ascii.eqb ":" (pretty_N_char d) = false.
Proof.
  intros Hd.
  assert (d = 0 \/ d = 1 \/ d = 2 \/ d = 3 \/ d = 4 \/ d = 5 \/ d = 6 \/ d = 7
          \/ d = 8 \/ d = 9)%N as Hcases by lia.
  repeat (destruct Hcases as [->|Hcases]; [by vm_compute|]). subst. by vm_compute.
Qed.

(** The digits [pretty] puts in front of [s]. *)
Lemma pretty_go_digits (x : N) (s : string) :
  decimal_value (pretty_N_go x s) 0 = decimal_value s (Z.of_N x)
  /\ all_digits (pretty_N_go x s) = all_digits s
  /\ contains_byte ":" (pretty_N_go x s) = contains_byte ":" s
  /\ (s <> "" -> pretty_N_go x s <> "").
Proof.
  revert s. induction (N.lt_wf_0 x) as [x _ IH]; intros s.
  destruct (decide (x = 0)%N) as [->|Hx].
  - rewrite pretty_N_go_0. done.
  - rewrite pretty_N_go_step by lia.
    assert (Hlt : (x `div` 10 < x)%N) by (apply N.div_lt; lia).
    assert (Hd : (x `mod` 10 < 10)%N) by (apply N.mod_lt; lia).
    destruct (pretty_char_digit _ Hd) as (Hdig & Hval & Hcol).
    destruct (IH _ Hlt (String (pretty_N_char (x `mod` 10)) s)) as (H1 & H2 & H3 & H4).
    rewrite H1, H2, H3. cbn [decimal_value all_digits contains_byte].
    rewrite Hdig, Hval, Hcol. cbn [andb orb].
    split; [|split; [done|split; [done|]]].
    + f_equal. rewrite (N.div_mod x 10) at 3 by lia. lia.
    + intros _. by apply H4.
Qed.

Lemma pretty_pos_digits (q : positive) :
  exists c rest,
    pretty (N.pos q) = String c rest
    /\ is_digit c = true
    /\ all_digits (String c rest) = true
    /\ decimal_value (String c rest) 0 = Z.pos q
    /\ contains_byte ":" (String c rest) = false.
Proof.
  unfold pretty, pretty_N. rewrite decide_False by done.
  assert (Hstep : pretty_N_go (N.pos q) ""
            = pretty_N_go (N.pos q `div` 10) (String (pretty_N_char (N.pos q `mod` 10)) ""))
    by (apply pretty_N_go_step; lia).
  destruct (pretty_go_digits (N.pos q) "") as (H1 & H2 & H3 & _).
  destruct (pretty_go_digits (N.pos q `div` 10)
              (String (pretty_N_char (N.pos q `mod` 10)) "")) as (_ & _ & _ & Hne).
  rewrite <- Hstep in Hne.
  destruct (pretty_N_go (N.pos q) "") as [|c rest]; [by destruct Hne|].
  exists c, rest. split; [done|]. cbn in H2. apply andb_true_iff in H2 as [Hc Hr].
  split; [done|]. split; [cbn; by rewrite Hc, Hr|]. split; [exact H1 | exact H3].
Qed.

Lemma digit_not_sign (c : ascii) :
  is_digit c = true -> Ascii.eqb c "+" = false /\ Ascii.eqb c "-" = false.
Proof.
  unfold is_digit. intros H. apply andb_true_iff in H as [H1 H2].
  apply Z.leb_le in H1, H2.
  split; apply Ascii.eqb_neq; intros ->; vm_compute in H1, H2; congruence.
Qed.

Lemma Itoa_numeral (v : Z) : numeral (Itoa v) = Some v /\ contains_byte ":" (Itoa v) = false.
Proof.
  destruct v as [|q|q];
    [| change (Itoa (Z.pos q)) with (pretty (N.pos q))
     | change (Itoa (Z.neg q)) with ("-" +:+ pretty (N.pos q))].
  - done.
  - destruct (pretty_pos_digits q) as (c & rest & -> & Hc & Hall & Hval & Hcol).
    destruct (digit_not_sign c Hc) as [Hp Hm].
    split; [|done]. unfold numeral. rewrite Hp, Hm. cbn [orb].
    by rewrite Hall, Hval.
  - destruct (pretty_pos_digits q) as (c & rest & -> & Hc & Hall & Hval & Hcol).
    split.
    + change ("-" +:+ String c rest) with (String "-" (String c rest)).
      unfold numeral.
      change (Ascii.eqb "-" "+") with false. change (Ascii.eqb "-" "-") with true.
      cbn [orb]. rewrite Hall, Hval. reflexivity.
    + change ("-" +:+ String c rest) with (String "-" (String c rest)).
      change (contains_byte ":" (String "-" (String c rest)))
        with (Ascii.eqb ":" "-" || contains_byte ":" (String c rest)).
      rewrite Hcol. reflexivity.
Qed.

Lemma wrap64_range (z : Z) : - 2 ^ 63 <= wrap64 z < 2 ^ 63.
Proof.
  unfold wrap64. pose proof (Z.mod_pos_bound (z + 2 ^ 63) (2 ^ 64) ltac:(lia)). lia.
Qed.

Lemma Atoi_ok_range (s : string) (v : Z) :
  Atoi s = (v, None) -> minInt64 <= v <= maxInt64.
Proof.
  unfold Atoi, ParseInt, minInt64, maxInt64. destruct s as [|c rest]; [discriminate|].
  destruct (ParseUint _) as [un [[]|]];
    repeat (match goal with |- context [if ?b then _ else _] => destruct b end);
    try discriminate; intros [= <-];
    match goal with |- _ <= wrap64 ?z <= _ => pose proof (wrap64_range z) end; lia.
Qed.

Lemma splitAddr_Itoa (host : string) (port : Z) :
  minInt64 <= port <= maxInt64 ->
  splitAddr (host +:+ ":" +:+ Itoa port) = Returns (host, port).
Proof.
  intros Hr. destruct (Itoa_numeral port) as [Hnum Hcol].
  change (":" +:+ Itoa port) with (String ":" (Itoa port)).
  rewrite splitAddr_split by done. rewrite (Atoi_numeral _ _ Hnum).
  f_equal. f_equal. unfold clamp64. lia.
Qed.

(** X17. Writing a host and a port as [host:port] and splitting the
    result gives the host and the port back, for every host, also one
    that has colons of its own, and every port a 64-bit [int] holds. *)
Theorem splitAddr_round_trip (host : string) (port : Z) :
  minInt64 <= port <= maxInt64 ->
  splitAddr (host +:+ ":" +:+ Itoa port) = Returns (host, port)
  /\ portOf (host +:+ ":" +:+ Itoa port) = Returns (Itoa port)
  /\ (Atoi (Itoa port)).1 = port.
Proof.
  intros Hr. destruct (Itoa_numeral port) as [Hnum Hcol].
  split; [by apply splitAddr_Itoa|]. split.
  - change (":" +:+ Itoa port) with (String ":" (Itoa port)). by apply portOf_split.
  - rewrite (Atoi_numeral _ _ Hnum). unfold clamp64. lia.
Qed.

Lemma splitAddr_round_trip_witness :
  splitAddr ("::1" +:+ ":" +:+ Itoa 34567) = Returns ("::1", 34567).
Proof.
  apply (proj1 (splitAddr_round_trip "::1" 34567 ltac:(vm_compute; split; discriminate))).
Defined.

End PortFacts.

(** ** Port mode *)

Module StartupFacts.
Import GoStr Orchestrator Main GoStrFacts OrchestratorFacts WorkerFacts PortFacts.

Section WithParseIP.
Variable ParseIP : string -> string.

Lemma New_port_config (host : string) (port : Z) :
  minInt64 <= port <= maxInt64 ->
  New ParseIP true (port_config host port)
  = Returns (Some {| cfg := port_config host port;
                     stunClient := Stun.NewClient [] [] Sock.second;
                     statusMgr := Status.fresh "";
                     interval := 10 * Sock.second;
                     tcpOpens := [{| Sock.IP := ParseIP host; Sock.Port := port |}];
                     udpOpens := [];
                     tcpFwds := [] |}).
Proof.
  intros Hr. unfold New. cbn [Status.NewManager port_config Hook OpenPort_TCP
    OpenPort_UDP StunServer_TCP StunServer_UDP Interval for_each].
  unfold open_addr at 1. rewrite splitAddr_Itoa by done. reflexivity.
Qed.

Lemma port_mode_cases (args : list string) :
  match port_mode args with
  | ExitUsage => length args <> 1%nat /\ length args <> 2%nat
  | ExitInvalidPort =>
      exists host portArg e,
        (args = [portArg] \/ args = [host; portArg])
        /\ (Atoi portArg).2 = Some e
  | Configured c =>
      exists host portArg port,
        (args = [portArg] /\ host = "0.0.0.0" \/ args = [host; portArg])
        /\ Atoi portArg = (port, None)
        /\ c = port_config host port
  end.
Proof.
  unfold port_mode.
  destruct args as [|a0 [|a1 [|a2 rest]]]; cbn [length Nat.eqb negb andb];
    try (split; cbn; lia).
  - cbn [snd fst]. destruct (Atoi a0) as [port [e|]] eqn:Ha.
    + exists "", a0, e. rewrite Ha. auto.
    + exists "0.0.0.0", a0, port. auto.
  - cbn [snd fst]. destruct (Atoi a1) as [port [e|]] eqn:Ha.
    + exists a0, a1, e. rewrite Ha. auto.
    + exists a0, a1, port. auto.
Qed.

(** X18. In port mode [main] ends before [Run] in one of four ways, or
    runs a [Natter]; [New] never panics there. With other than one or
    two arguments it prints the usage and exits; with a port argument
    [Atoi] rejects it exits; otherwise it has built a configuration with
    the single open TCP port [host:port], the host being ["0.0.0.0"] when
    only the port is given, and it exits when the logger cannot be made,
    and ends in [logger.Fatal] when [New] returns the error of a status
    file that does not open. When the file opens, [New] returns a
    [Natter] with that one open port, parsed back to the same host and
    port, an interval of 10 seconds, no forwarder and no STUN server. *)
Theorem port_mode_outcomes (logger_ok open_ok : bool) (args : list string) :
  let configured (c : Config) (host : string) (port : Z) :=
    exists portArg,
      (args = [portArg] /\ host = "0.0.0.0" \/ args = [host; portArg])
      /\ Atoi portArg = (port, None)
      /\ port_mode args = Configured c
      /\ c = port_config host port in
  match launch ParseIP logger_ok open_ok args with
  | Usage => length args <> 1%nat /\ length args <> 2%nat
  | InvalidPort =>
      exists host portArg e,
        (args = [portArg] \/ args = [host; portArg])
        /\ (Atoi portArg).2 = Some e
  | LoggerFails => logger_ok = false /\ exists c host port, configured c host port
  | Fatal =>
      logger_ok = true /\ open_ok = false
      /\ exists c host port, configured c host port /\ New ParseIP false c = Returns None
  | Panicked => False
  | Runs n =>
      logger_ok = true /\ open_ok = true
      /\ exists c host port,
           configured c host port
           /\ New ParseIP true c = Returns (Some n)
           /\ n = {| cfg := c;
                     stunClient := Stun.NewClient [] [] Sock.second;
                     statusMgr := Status.fresh "";
                     interval := 10 * Sock.second;
                     tcpOpens := [{| Sock.IP := ParseIP host; Sock.Port := port |}];
                     udpOpens := [];
                     tcpFwds := [] |}
  end.
Proof.
  cbv zeta. unfold launch. pose proof (port_mode_cases args) as Hcases.
  destruct (port_mode args) as [| |c] eqn:Hpm; [done|done|].
  destruct Hcases as (host & portArg & port & Hargs & Ha & ->).
  pose proof (New_port_config host port (Atoi_ok_range _ _ Ha)) as Hnew.
  assert (Hc : exists portArg0,
             (args = [portArg0] /\ host = "0.0.0.0" \/ args = [host; portArg0])
             /\ Atoi portArg0 = (port, None)
             /\ Configured (port_config host port) = Configured (port_config host port)
             /\ port_config host port = port_config host port)
    by (by exists portArg).
  destruct logger_ok; cbn [negb].
  - destruct open_ok.
    + rewrite Hnew. split; [done|]. split; [done|].
      by exists (port_config host port), host, port.
    + change (New ParseIP false (port_config host port))
        with (@Returns (option Natter) None).
      split; [done|]. split; [done|].
      by exists (port_config host port), host, port.
  - split; [done|]. by exists (port_config host port), host, port.
Qed.

End WithParseIP.

Lemma port_mode_shape (args : list string) (c : Config) :
  port_mode args = Configured c ->
  exists host port, c = port_config host port /\ minInt64 <= port <= maxInt64.
Proof.
  unfold port_mode. destruct (_ && _); [discriminate|].
  destruct args as [|a0 rest]; [discriminate|].
  destruct (Atoi _) as [port [e|]] eqn:Ha; [discriminate|].
  intros [= <-]. eexists _, port. split; [reflexivity|]. by eapply Atoi_ok_range.
Qed.

Lemma probe_without_servers (p : Sock.Platform) (client : Stun.Client)
    (proto : string) (port : Z) (world : nat -> Stun.Attempt) :
  Stun.tcpServers client = [] -> Stun.udpServers client = [] ->
  probe p client proto port world = None.
Proof.
  intros Ht Hu. unfold probe, Stun.GetTCPMapping, Stun.GetUDPMapping.
  rewrite Ht, Hu. by case_bool_decide.
Qed.

Lemma worker_loop_without_servers (p : Sock.Platform) (client : Stun.Client)
    (proto : string) (port : Z) (inner last : string)
    (worlds : list (nat -> Stun.Attempt)) :
  Stun.tcpServers client = [] -> Stun.udpServers client = [] ->
  worker_loop p client proto port inner last worlds = [].
Proof.
  intros Ht Hu. induction worlds as [|w ws IH]; cbn [worker_loop]; [done|].
  rewrite probe_without_servers by done. cbn. exact IH.
Qed.

(** X19. Port mode configures no STUN server, so the workers of a
    [Natter] started in port mode never send an update event, whatever
    the network does: every probe fails with the all-servers-failed
    error before any server is contacted. *)
Theorem port_mode_never_publishes (ParseIP : string -> string) (args : list string)
    (c : Config) (n : Natter) (p : Sock.Platform) (bindIP outboundIP proto : string)
    (addr : Sock.Addr) (worlds : list (nat -> Stun.Attempt)) :
  port_mode args = Configured c ->
  New ParseIP true c = Returns (Some n) ->
  runWorker p (Stun.SetBindIP (stunClient n) bindIP) outboundIP proto addr worlds
  = and_then (formatInner (addr_String addr) outboundIP) (fun _ => Returns []).
Proof.
  intros Hmode Hnew.
  pose proof (port_mode_shape args c Hmode) as (host & port & -> & Hr).
  rewrite (New_port_config ParseIP host port Hr) in Hnew.
  injection Hnew as <-. unfold runWorker. cbn [stunClient].
  destruct (formatInner (addr_String addr) outboundIP) as [inner|]; cbn [and_then]; [|done].
  by rewrite worker_loop_without_servers.
Qed.

Lemma port_mode_never_publishes_witness :
  exists n,
    New id true (port_config "0.0.0.0" 2888) = Returns (Some n)
    /\ runWorker Sock.Unix (Stun.SetBindIP (stunClient n) "192.168.1.10") "192.168.1.10"
         "tcp" {| Sock.IP := "0.0.0.0"; Sock.Port := 2888 |} drift
       = Returns [].
Proof.
  eexists. split; [vm_compute; reflexivity|].
  rewrite (port_mode_never_publishes id ["2888"] (port_config "0.0.0.0" 2888) _
             Sock.Unix "192.168.1.10" "192.168.1.10" "tcp"
             {| Sock.IP := "0.0.0.0"; Sock.Port := 2888 |} drift);
    vm_compute; reflexivity.
Defined.

(** *** The inner address *)

Lemma append_nil_r (s : string) : s +:+ "" = s.
Proof. induction s as [|c s IH]; [done|]. rewrite append_cons. by rewrite IH. Qed.

Lemma rev_app_append (a b : string) :
  String.rev_app a b = String.rev_app a "" +:+ b.
Proof.
  revert b. induction a as [|x a IH]; intros b; cbn [String.rev_app]; [done|].
  rewrite (IH (String x b)), (IH (String x "")). by rewrite append_assoc.
Qed.

Lemma split_no_sep (s cur : string) :
  contains_byte ":" s = false ->
  split_from ":" s 0 cur = [String.rev cur +:+ s].
Proof.
  revert cur. induction s as [|c s IH]; intros cur H.
  - cbn [split_from]. by rewrite append_nil_r.
  - cbn [contains_byte] in H. apply orb_false_iff in H as [Hc Hs].
    cbn [split_from]. rewrite HasPrefix_colon, Hc. rewrite IH by done.
    f_equal. unfold String.rev. cbn [String.rev_app].
    rewrite (rev_app_append cur (String c "")). by rewrite append_assoc.
Qed.

Lemma formatInner_any_address (port outboundIP : string) :
  contains_byte ":" port = false ->
  formatInner ("0.0.0.0:" +:+ port) outboundIP = Returns (outboundIP +:+ ":" +:+ port).
Proof.
  intros Hp. unfold formatInner.
  assert (Hpre : HasPrefix ("0.0.0.0:" +:+ port) "0.0.0.0:" = true).
  { rewrite !append_cons, append_nil. cbn [HasPrefix].
    repeat (rewrite Ascii.eqb_refl). apply HasPrefix_empty. }
  rewrite Hpre.
  assert (Hsplit : Split ("0.0.0.0:" +:+ port) ":" = ["0.0.0.0"; port]).
  { unfold Split. rewrite !append_cons, append_nil.
    repeat (cbn [split_from]; rewrite HasPrefix_colon;
            match goal with |- context [Ascii.eqb ?a ?b] =>
              let v := eval vm_compute in (Ascii.eqb a b) in
              change (Ascii.eqb a b) with v end; cbv iota).
    rewrite split_no_sep by done. reflexivity. }
  by rewrite Hsplit.
Qed.

(** X20. [formatInner] never panics. It returns an address that does not
    start with ["0.0.0.0:"] as it is, and for the address of an endpoint
    bound to 0.0.0.0 it returns the outbound IP followed by a colon and
    the port in decimal: that is the inner address of every event of
    such an endpoint. *)
Theorem formatInner_substitutes (s outboundIP : string) (port : Z) :
  (exists inner, formatInner s outboundIP = Returns inner)
  /\ (HasPrefix s "0.0.0.0:" = false -> formatInner s outboundIP = Returns s)
  /\ formatInner (addr_String {| Sock.IP := "0.0.0.0"; Sock.Port := port |}) outboundIP
     = Returns (outboundIP +:+ ":" +:+ Itoa port).
Proof.
  split; [apply formatInner_returns|]. split.
  - intros H. unfold formatInner. by rewrite H.
  - unfold addr_String. cbn [Sock.IP Sock.Port].
    rewrite bool_decide_eq_false_2 by discriminate.
    unfold JoinHostPort. change (contains_byte ":" "0.0.0.0") with false. cbv iota.
    change ("0.0.0.0" +:+ ":" +:+ Itoa port) with ("0.0.0.0:" +:+ Itoa port).
    apply formatInner_any_address. apply Itoa_numeral.
Qed.

Lemma formatInner_substitutes_witness :
  formatInner "10.0.0.2:34567" "192.168.1.10" = Returns "10.0.0.2:34567".
Proof.
  apply (proj1 (proj2 (formatInner_substitutes "10.0.0.2:34567" "192.168.1.10" 0))).
  reflexivity.
Defined.

End StartupFacts.

(** ** The UDP forwarder *)

Module ForwardFacts.
Import Forward.

Lemma new_consistent (l t : string) (d : Z) : consistent (NewUDPForwarder l t d).
Proof.
  split; cbn.
  - intros key conn. by rewrite !lookup_empty.
  - intros conn key. by rewrite lookup_empty.
Qed.

Lemma accept_consistent (f : UDPForwarder) (w : AcceptWorld) :
  consistent f -> consistent (accept_turn f w).1.
Proof.
  intros [Hiff Hlt]. unfold accept_turn.
  destruct (read w) as [d|]; [|done].
  destruct (clients f !! from d) as [c|] eqn:Hk; [done|].
  destruct (resolve_ok w); [|done]. destruct (dial_ok w); [|done]. cbn.
  assert (Hfresh : pumps f !! opened f = None).
  { destruct (pumps f !! opened f) as [k|] eqn:Hp; [|done].
    apply Hlt in Hp. lia. }
  split; cbn.
  - intros key conn. destruct (decide (key = from d)) as [->|Hne].
    + rewrite lookup_insert_eq. split.
      * intros [= <-]. by rewrite lookup_insert_eq.
      * destruct (decide (conn = opened f)) as [->|Hc]; [done|].
        rewrite lookup_insert_ne by done. intros Hp. apply Hiff in Hp. congruence.
    + rewrite lookup_insert_ne by done.
      destruct (decide (conn = opened f)) as [->|Hc].
      * rewrite lookup_insert_eq. split; [|congruence].
        intros Hcl. apply Hiff in Hcl. congruence.
      * rewrite lookup_insert_ne by done. apply Hiff.
  - intros conn key. destruct (decide (conn = opened f)) as [->|Hc]; [lia|].
    rewrite lookup_insert_ne by done. intros Hp. apply Hlt in Hp. lia.
Qed.

Lemma pump_consistent (f : UDPForwarder) (conn : nat) (r : ServerRead) :
  consistent f -> consistent (pump_turn f conn r).1.
Proof.
  intros [Hiff Hlt]. unfold pump_turn.
  destruct (pumps f !! conn) as [client|] eqn:Hp; [|done].
  destruct r; [done|]. cbn. split; cbn.
  - intros key c. destruct (decide (key = client)) as [->|Hne].
    + rewrite lookup_delete_eq. split; [done|].
      destruct (decide (c = conn)) as [->|Hc]; [by rewrite lookup_delete_eq|].
      rewrite lookup_delete_ne by done. intros Hp'. apply Hiff in Hp'.
      apply Hiff in Hp. congruence.
    + rewrite lookup_delete_ne by done.
      destruct (decide (c = conn)) as [->|Hc].
      * rewrite lookup_delete_eq. split; [|done].
        intros Hcl. apply Hiff in Hcl. congruence.
      * rewrite lookup_delete_ne by done. apply Hiff.
  - intros c key. destruct (decide (c = conn)) as [->|Hc];
      [by rewrite lookup_delete_eq|].
    rewrite lookup_delete_ne by done. apply Hlt.
Qed.

Lemma step_consistent (f : UDPForwarder) (s : Step) :
  consistent f -> consistent (step f s).1.
Proof. destruct s; [apply accept_consistent | apply pump_consistent]. Qed.

Lemma run_consistent (f : UDPForwarder) (steps : list Step) :
  consistent f -> consistent (run f steps).1.
Proof.
  revert f. induction steps as [|s rest IH]; intros f Hf; [done|].
  cbn [run fst]. by apply IH, step_consistent.
Qed.

(** X21. However the datagrams of the clients and the reads of the
    reverse pumps interleave, the clients map and the running pumps
    describe the same sessions: a client address has a sub-socket in the
    map exactly when a pump runs for that address on that sub-socket. So
    no two addresses share a sub-socket, the clean-up of a pump, which
    deletes by address, removes the entry of its own sub-socket and no
    other, and there are as many entries as pumps. *)
Theorem sessions_consistent (l t : string) (d : Z) (steps : list Step) :
  let f := (run (NewUDPForwarder l t d) steps).1 in
  (forall key conn, clients f !! key = Some conn <-> pumps f !! conn = Some key)
  /\ (forall k1 k2 conn, clients f !! k1 = Some conn -> clients f !! k2 = Some conn -> k1 = k2)
  /\ (forall conn client, pumps f !! conn = Some client ->
        clients (pump_turn f conn ReadFails).1 = delete client (clients f)
        /\ clients f !! client = Some conn)
  /\ size (clients f) = size (pumps f).
Proof.
  cbv zeta. set (f := (run (NewUDPForwarder l t d) steps).1).
  assert (Hc : consistent f) by apply run_consistent, new_consistent.
  destruct Hc as [Hiff Hlt]. split; [exact Hiff|]. split; [|split].
  - intros k1 k2 conn H1 H2. apply Hiff in H1, H2. congruence.
  - intros conn client Hp. split; [|by apply Hiff].
    unfold pump_turn. by rewrite Hp.
  - clear Hlt. revert Hiff. generalize (pumps f) as ps. generalize (clients f) as cs.
    clear. intros cs. induction cs as [|k c cs Hk IH] using map_ind; intros ps Hiff.
    + rewrite map_size_empty. symmetry. apply map_size_empty_iff, map_empty.
      intros conn. destruct (ps !! conn) as [key|] eqn:Hp; [|done].
      apply Hiff in Hp. by rewrite lookup_empty in Hp.
    + assert (Hpc : ps !! c = Some k) by (apply Hiff; by rewrite lookup_insert_eq).
      rewrite map_size_insert_None by done.
      rewrite <- (insert_delete_id ps c k Hpc).
      rewrite map_size_insert_None by apply lookup_delete_eq.
      f_equal. apply IH. intros key conn. split.
      * intros Hcs. assert (key <> k) by (intros ->; congruence).
        assert (Hp : ps !! conn = Some key)
          by (apply Hiff; by rewrite lookup_insert_ne).
        assert (conn <> c) by (intros ->; congruence).
        by rewrite lookup_delete_ne.
      * intros Hp. destruct (decide (conn = c)) as [->|Hne];
          [by rewrite lookup_delete_eq in Hp|].
        rewrite lookup_delete_ne in Hp by done. apply Hiff in Hp.
        destruct (decide (k = key)) as [->|Hkk].
        -- rewrite lookup_insert_eq in Hp. congruence.
        -- by rewrite lookup_insert_ne in Hp.
Qed.

(** Sub-sockets are dialled one after the other, and a sub-socket whose
    goroutine has left is not taken up again. *)
Lemma step_opened (f : UDPForwarder) (s : Step) :
  (opened f <= opened (step f s).1)%nat.
Proof.
  destruct s as [w|conn r]; cbn [step].
  - unfold accept_turn. destruct (read w) as [d|]; [|done].
    destruct (clients f !! from d); [done|].
    destruct (resolve_ok w); [|done]. destruct (dial_ok w); [|done]. cbn. lia.
  - unfold pump_turn. destruct (pumps f !! conn); [|done]. by destruct r.
Qed.

Lemma run_opened (f : UDPForwarder) (steps : list Step) :
  (opened f <= opened (run f steps).1)%nat.
Proof.
  revert f. induction steps as [|s rest IH]; intros f; [done|].
  cbn [run fst]. etransitivity; [apply (step_opened f s) | apply IH].
Qed.

Lemma step_socket_gone (f : UDPForwarder) (s : Step) (c : nat) :
  (c < opened f)%nat -> pumps f !! c = None -> pumps (step f s).1 !! c = None.
Proof.
  intros Hlt Hgone. destruct s as [w|conn r]; cbn [step].
  - unfold accept_turn. destruct (read w) as [d|]; [|done].
    destruct (clients f !! from d); [done|].
    destruct (resolve_ok w); [|done]. destruct (dial_ok w); [|done]. cbn.
    rewrite lookup_insert_ne by lia. done.
  - unfold pump_turn. destruct (pumps f !! conn) as [client|] eqn:Hp; [|done].
    destruct r; [done|]. cbn.
    destruct (decide (c = conn)) as [->|Hne]; [apply lookup_delete_eq|].
    by rewrite lookup_delete_ne.
Qed.

Lemma run_socket_gone (f : UDPForwarder) (steps : list Step) (c : nat) :
  (c < opened f)%nat -> pumps f !! c = None -> pumps (run f steps).1 !! c = None.
Proof.
  revert f. induction steps as [|s rest IH]; intros f Hlt Hgone; [done|].
  cbn [run fst]. apply IH; [|by apply step_socket_gone].
  pose proof (step_opened f s). lia.
Qed.

Lemma run_exit_gone (f : UDPForwarder) (steps : list Step) (c : nat) :
  (c < opened f)%nat -> Pump c ReadFails ∈ steps -> pumps (run f steps).1 !! c = None.
Proof.
  revert f. induction steps as [|s rest IH]; intros f Hlt Hin;
    [by apply elem_of_nil in Hin|].
  cbn [run fst]. pose proof (step_opened f s) as Hmono.
  apply elem_of_cons in Hin as [<-|Hin]; [|apply IH; [lia | done]].
  apply run_socket_gone; [lia|]. cbn [step]. unfold pump_turn.
  destruct (pumps f !! c) as [client|] eqn:Hp; [|done]. cbn. apply lookup_delete_eq.
Qed.

(** X22. [Stop] closes, in its locked section, exactly the sub-sockets
    that the running goroutines of [handleServerResponse] read from. It
    does not end the accept loop. Whatever the accept loop and the
    goroutines do afterwards, once the read of each of those goroutines
    has failed, a session that is still in the clients map was dialled
    after the locked section of [Stop], which has not closed its
    sub-socket; and when nothing was dialled after it, the map is
    empty. *)
Theorem Stop_ends_open_sessions (l t : string) (d : Z) (steps later : list Step) :
  let f := (run (NewUDPForwarder l t d) steps).1 in
  let f' := (run f later).1 in
  (forall conn, is_Some (pumps f !! conn) -> Pump conn ReadFails ∈ later) ->
  (forall conn, is_Some (pumps f !! conn) <-> Close conn ∈ Stop f)
  /\ (forall key conn, clients f' !! key = Some conn ->
        (opened f <= conn)%nat /\ Close conn ∉ Stop f)
  /\ (opened f' = opened f -> clients f' = ∅ /\ pumps f' = ∅).
Proof.
  cbv zeta. set (f := (run (NewUDPForwarder l t d) steps).1).
  set (f' := (run f later).1). intros Hcov.
  assert (Hc : consistent f) by apply run_consistent, new_consistent.
  assert (Hc' : consistent f') by by apply run_consistent.
  assert (Hstop : forall conn, is_Some (pumps f !! conn) <-> Close conn ∈ Stop f).
  { intros conn. unfold Stop. rewrite elem_of_cons, list_elem_of_fmap. split.
    - intros [key Hk]. right. exists conn. split; [done|].
      apply list_elem_of_fmap. exists (key, conn). split; [done|].
      apply elem_of_map_to_list. by apply (proj1 Hc).
    - intros [|[c [[= <-] Hin]]]; [done|].
      apply list_elem_of_fmap in Hin as [[key c'] [-> Hin]].
      apply elem_of_map_to_list in Hin. exists key. by apply (proj1 Hc). }
  assert (Hlate : forall conn key, pumps f' !! conn = Some key -> (opened f <= conn)%nat).
  { intros conn key Hp. destruct (decide (opened f <= conn)%nat) as [|Hlt]; [done|].
    exfalso. assert (Hgone : pumps f' !! conn = None); [|congruence].
    destruct (pumps f !! conn) as [k|] eqn:Hold.
    - apply run_exit_gone; [lia|]. apply Hcov. by rewrite Hold.
    - apply run_socket_gone; [lia | done]. }
  split; [exact Hstop|]. split.
  - intros key conn Hk. apply (proj1 Hc') in Hk. pose proof (Hlate _ _ Hk) as Hge.
    split; [done|]. intros [k Hold]%Hstop. apply (proj2 Hc) in Hold. lia.
  - intros Hsame.
    assert (Hp : pumps f' = ∅).
    { apply map_empty. intros conn. destruct (pumps f' !! conn) as [k|] eqn:E; [|done].
      pose proof (Hlate _ _ E). apply (proj2 Hc') in E. lia. }
    split; [|done]. apply map_empty. intros key.
    destruct (clients f' !! key) as [c|] eqn:E; [|done].
    apply (proj1 Hc') in E. by rewrite Hp, lookup_empty in E.
Qed.

Lemma Stop_ends_open_sessions_witness :
  clients (run (run (NewUDPForwarder "0.0.0.0:0" "127.0.0.1:53" 10000000000)
                    two_sessions).1 (exits [1; 0]%nat)).1 = ∅.
Proof.
  refine (proj1 (proj2 (proj2 (Stop_ends_open_sessions "0.0.0.0:0" "127.0.0.1:53"
            10000000000 two_sessions (exits [1; 0]%nat) _)) _)); [|reflexivity].
  intros conn [key Hk].
  assert (Hlt : (conn < 2)%nat)
    by exact (proj2 (run_consistent _ two_sessions
                       (new_consistent "0.0.0.0:0" "127.0.0.1:53" 10000000000))
                    conn key Hk).
  destruct conn as [|[|conn]]; [repeat constructor|repeat constructor|lia].
Defined.

(** A datagram that the accept loop read before [Stop] closed the
    listening socket opens a session that [Stop] does not end: after the
    reads on the two sub-sockets that [Stop] closed have failed, the
    third client is still in the map, on a sub-socket [Stop] never
    closed. *)
Lemma late_session_outlives_Stop :
  let f := (run (NewUDPForwarder "0.0.0.0:0" "127.0.0.1:53" 10000000000)
              two_sessions).1 in
  let f' := (run f (late_datagram :: exits [0; 1]%nat)).1 in
  Stop f ≡ₚ [CloseListener; Close 0%nat; Close 1%nat]
  /\ clients f' !! "192.0.2.3:4000" = Some 2%nat
  /\ size (clients f') = 1%nat.
Proof.
  cbv zeta. split; [|split]; [|vm_compute; reflexivity..].
  vm_compute. repeat constructor || (by apply perm_swap).
Qed.

End ForwardFacts.

(** ** UPnP *)

Module UPnPFacts.
Import UPnP.

(** X23. [add] sends nothing to the gateway when the internal host is
    not an IP address, and one request otherwise; the request carries the
    ports reduced modulo 65536, so two external ports that differ by a
    multiple of 65536 ask for the same mapping, while the error text
    names the port as it was given. *)
Theorem add_requests (gateway_ok : bool) (proto host : string) (ext inp dur : Z) :
  add false gateway_ok proto ext inp host dur = (InvalidInternalIP host, [])
  /\ (exists req,
        (add true gateway_ok proto ext inp host dur).2 = [req]
        /\ externalPort req = ext mod 65536 /\ 0 <= externalPort req < 65536
        /\ internalPort req = inp mod 65536 /\ 0 <= internalPort req < 65536
        /\ protocol req = proto /\ internalClient req = host
        /\ remoteHost req = EmptyString /\ leaseDuration req = dur)
  /\ (add true gateway_ok proto ext inp host dur).1 =
       (if gateway_ok then Added else GatewayError proto ext)
  /\ (forall k, (add true gateway_ok proto (ext + 65536 * k) inp host dur).2 =
                (add true gateway_ok proto ext inp host dur).2).
Proof.
  split; [done|]. split; [|split].
  - eexists. split; [unfold add; cbn [negb]; by destruct gateway_ok|].
    cbn. unfold uint16. change (2 ^ 16) with 65536.
    pose proof (Z.mod_pos_bound ext 65536). pose proof (Z.mod_pos_bound inp 65536).
    repeat split; lia.
  - unfold add. cbn [negb]. by destruct gateway_ok.
  - intros k. unfold add. cbn [negb]. unfold uint16. change (2 ^ 16) with 65536.
    replace ((ext + 65536 * k) mod 65536) with (ext mod 65536)
      by (rewrite Z.mul_comm, Z.mod_add; lia).
    by destruct gateway_ok.
Qed.

End UPnPFacts.
